(** * The reflection-driven JSON encoder of [src/pkg/json/encode.go]

    A shallow embedding of the encoder ([Marshal], [reflectValueQuoted],
    [isEmptyValue], [isValidTag], the [string] escaper and [stringValues])
    and of [HTMLEscape] and [MarshalForHTML], together with the properties
    its specification states about them and further properties of the code.

    Conventions.
    - A Go [string] and a Go [[]byte] are lists of 8-bit bytes ([ascii]).
    - [encodeState] is its embedded [bytes.Buffer]; a method of [encodeState]
      is a function from the buffer before the call to an [Outcome].
    - [e.error(err)] panics; the panic is caught by [marshal].  A panic
      leaves the partly written buffer behind, so [Panic] keeps it.
    - A call that does not come back to [Marshal] (a loop without end, a
      run-time panic that [marshal] raises again) is [NoReturn].
    - A reflected value is a finite tree, so a cyclic input (which the
      encoder does not support) has no counterpart here. *)

From Stdlib Require Import List Bool Arith ZArith NArith Lia.
From Stdlib Require Import Ascii String.
From Stdlib Require Import Permutation Sorted.
From Stdlib Require PrimFloat.
Import ListNotations.

Set Warnings "-register-all".

Local Open Scope list_scope.

(** ** Bytes and strings *)

Definition byte := ascii.
Definition gostring := list byte.
Definition Buffer := list byte.

(** A string literal of the development as a Go string. *)
Definition str (s : String.string) : gostring := list_ascii_of_string s.

Definition byte_val (b : byte) : N := N_of_ascii b.
Definition byte_of (n : N) : byte := ascii_of_N n.

Definition byte_eqb (a b : byte) : bool := N.eqb (byte_val a) (byte_val b).

Fixpoint gostring_eqb (s t : gostring) : bool :=
  match s, t with
  | [], [] => true
  | a :: s', b :: t' => byte_eqb a b && gostring_eqb s' t'
  | _, _ => false
  end.

(** The built-in [<] of Go strings: byte-wise lexicographic order. *)
Fixpoint gostring_ltb (s t : gostring) : bool :=
  match s, t with
  | _, [] => false
  | [], _ :: _ => true
  | a :: s', b :: t' =>
      if N.ltb (byte_val a) (byte_val b) then true
      else if N.ltb (byte_val b) (byte_val a) then false
      else gostring_ltb s' t'
  end.

(** [s[lo:hi]] for [lo <= hi <= len(s)]. *)
Definition slice (s : gostring) (lo hi : nat) : gostring :=
  firstn (hi - lo) (skipn lo s).

(** [len(s)] *)
Definition len (s : gostring) : nat := List.length s.

(** [s[i]] for [i < len(s)]. *)
Definition index (s : gostring) (i : nat) : byte := nth i s Ascii.zero.

Definition quote_byte : byte := byte_of 34.      (* the double quote *)
Definition backslash_byte : byte := byte_of 92.  (* the backslash *)

(** ** reflect.Kind and reflect.Type, as far as the encoder reads them *)

Inductive Kind : Set :=
| Invalid | Bool | Int | Int8 | Int16 | Int32 | Int64
| Uint | Uint8 | Uint16 | Uint32 | Uint64 | Uintptr
| Float32 | Float64 | Complex64 | Complex128
| Array | Chan | Func | Interface | Map | Ptr | Slice | String | Struct
| UnsafePointer.

(** A type is identified by its structure, or by its name when it is a
    declared type.  The types the encoder never looks inside (channel,
    function, interface and struct types) are [Opaque], identified by
    their kind and printed form. *)
Inductive rtype : Set :=
| Basic (k : Kind)
| Named (name : gostring) (underlying : rtype)
| ArrayOf (len : nat) (elem : rtype)
| SliceOf (elem : rtype)
| MapOf (key elem : rtype)
| PtrTo (elem : rtype)
| Opaque (k : Kind) (name : gostring).

Fixpoint rtype_Kind (t : rtype) : Kind :=
  match t with
  | Basic k => k
  | Named _ u => rtype_Kind u
  | ArrayOf _ _ => Array
  | SliceOf _ => Slice
  | MapOf _ _ => Map
  | PtrTo _ => Ptr
  | Opaque k _ => k
  end.

(** [t.Key()]: the key type of a map type.  reflect panics on any other
    type; the encoder only asks for it in the [reflect.Map] case. *)
Fixpoint rtype_Key (t : rtype) : rtype :=
  match t with
  | MapOf k _ => k
  | Named _ u => rtype_Key u
  | _ => Basic Invalid
  end.

(** [t.Bits()] of a floating-point type. *)
Definition rtype_Bits (t : rtype) : Z :=
  match rtype_Kind t with
  | Float32 => 32
  | _ => 64
  end%Z.

Definition Kind_eq_dec (a b : Kind) : {a = b} + {a <> b}.
Proof. decide equality. Defined.

Definition gostring_eq_dec (a b : gostring) : {a = b} + {a <> b} :=
  list_eq_dec ascii_dec a b.

Definition rtype_eq_dec (a b : rtype) : {a = b} + {a <> b}.
Proof.
  decide equality; try apply gostring_eq_dec; try apply Kind_eq_dec;
    apply Nat.eq_dec.
Defined.

Definition Kind_eqb (a b : Kind) : bool :=
  if Kind_eq_dec a b then true else false.

Definition rtype_eqb (a b : rtype) : bool :=
  if rtype_eq_dec a b then true else false.

(** [var byteSliceType = reflect.TypeOf([]byte(nil))] *)
Definition byteSliceType : rtype := SliceOf (Basic Uint8).

(** ** Errors *)

Inductive os_Error : Set :=
| UnsupportedTypeError (Type_ : rtype)
| InvalidUTF8Error (S : gostring)
| MarshalerError (Type_ : rtype) (Error : os_Error)
| ErrorString (msg : gostring).   (* any other os.Error *)

(** ** Reflected values *)

Record StructField : Set := mkField {
  Name : gostring;
  PkgPath : gostring;          (* empty for an exported field *)
  Tag_json : gostring          (* f.Tag.Get("json") *)
}.

(** What [v.Interface().(Marshaler)] finds: [None] when the type of the value has
    no [MarshalJSON] method, otherwise the pair [MarshalJSON()] returns. *)
Definition Marshaler := option (gostring * option os_Error).

Inductive Value : Type :=
| VInvalid                                            (* the zero Value *)
| VBool (t : rtype) (j : Marshaler) (x : bool)
| VInt (t : rtype) (j : Marshaler) (x : Z)             (* Int .. Int64 *)
| VUint (t : rtype) (j : Marshaler) (x : Z)            (* Uint .. Uintptr *)
| VFloat (t : rtype) (j : Marshaler) (x : PrimFloat.float)       (* Float32, Float64 *)
| VString (t : rtype) (j : Marshaler) (s : gostring)
| VStruct (t : rtype) (j : Marshaler) (fields : list (StructField * Value))
| VMap (t : rtype) (j : Marshaler) (m : option (list (gostring * Value)))
| VArray (t : rtype) (j : Marshaler) (elems : list Value)
| VSlice (t : rtype) (j : Marshaler) (elems : list Value)
| VInterface (t : rtype) (j : Marshaler) (elem : option Value)
| VPtr (t : rtype) (j : Marshaler) (elem : option Value)
| VOther (t : rtype) (j : Marshaler).   (* Chan, Func, Complex64/128, UnsafePointer *)

Definition Value_IsValid (v : Value) : bool :=
  match v with VInvalid => false | _ => true end.

Definition Value_Type (v : Value) : rtype :=
  match v with
  | VInvalid => Basic Invalid
  | VBool t _ _ | VInt t _ _ | VUint t _ _ | VFloat t _ _ | VString t _ _
  | VStruct t _ _ | VMap t _ _ | VArray t _ _ | VSlice t _ _
  | VInterface t _ _ | VPtr t _ _ | VOther t _ => t
  end.

Definition Value_Marshaler (v : Value) : Marshaler :=
  match v with
  | VInvalid => None
  | VBool _ j _ | VInt _ j _ | VUint _ j _ | VFloat _ j _ | VString _ j _
  | VStruct _ j _ | VMap _ j _ | VArray _ j _ | VSlice _ j _
  | VInterface _ j _ | VPtr _ j _ | VOther _ j => j
  end.

(** ** The keys of a map *)

(** [stringValues] is the slice of keys [v.MapKeys()] returns.  The encoder
    reads a key only through [k.String()], so a key is kept as that string. *)
Definition stringValues := list gostring.

(** [func (sv stringValues) get(i int) string] *)
Definition stringValues_get (sv : stringValues) (i : nat) : gostring :=
  nth i sv [].

(** [func (sv stringValues) Less(i, j int) bool] *)
Definition stringValues_Less (sv : stringValues) (i j : nat) : bool :=
  gostring_ltb (stringValues_get sv i) (stringValues_get sv j).

(** ** Collaborators that are not part of the encoder

    The encoder calls into other packages: [utf8], [unicode], [strconv],
    [sort] and the JSON scanner behind [Compact].  They are taken as
    parameters, so a theorem below holds whatever these functions compute,
    or says what it requires of them. *)

Record Externals : Type := mkExternals {
  (* utf8.DecodeRuneInString: the rune and its width in bytes *)
  utf8_DecodeRuneInString : gostring -> Z * nat;
  (* the runes that [for _, c := range s] yields, in order *)
  range_runes : gostring -> list Z;
  unicode_IsLetter : Z -> bool;
  unicode_IsDigit : Z -> bool;
  (* strconv.FtoaN(f, 'g', -1, bits) *)
  strconv_FtoaN : PrimFloat.float -> Z -> gostring;
  (* Compact(dst, src): the bytes it appends to dst, or its error *)
  Compact_bytes : gostring -> gostring + os_Error;
  (* sort.Sort(sv) on a stringValues: the slice after the call *)
  sort_Sort : stringValues -> stringValues
}.

(** ** The encode state *)

Inductive Outcome : Type :=
| Done (e : Buffer)                    (* the call returned *)
| Panic (err : os_Error) (e : Buffer)  (* e.error(err) was called *)
| NoReturn.                            (* the call never comes back: a loop
                                          without end, or a run-time panic,
                                          which marshal raises again *)

Definition M : Type := Buffer -> Outcome.

Definition seq (m k : M) : M :=
  fun e => match m e with
           | Done e' => k e'
           | Panic err e' => Panic err e'
           | NoReturn => NoReturn
           end.

Declare Scope enc_scope.
Delimit Scope enc_scope with enc.
Notation "m ;; k" := (seq m k) (at level 61, right associativity) : enc_scope.
Local Open Scope enc_scope.

Definition skip : M := fun e => Done e.
Definition WriteByte (c : byte) : M := fun e => Done (e ++ [c]).
Definition WriteString (s : gostring) : M := fun e => Done (e ++ s).
Definition Write (p : list byte) : M := fun e => Done (e ++ p).

(** [func (e *encodeState) error(err os.Error) { panic(err) }] *)
Definition error (err : os_Error) : M := fun e => Panic err e.

(** ** The string escaper *)

Definition RuneSelf : N := 128.
Definition RuneError : Z := 65533.

(** [var hex = "0123456789abcdef"] *)
Definition hex : gostring := str "0123456789abcdef".

(** The bytes the scan steps over without writing: [0x20 <= b] and [b] none
    of backslash, double quote, less-than, greater-than. *)
Definition plain_byte (b : byte) : bool :=
  (32 <=? byte_val b)%N
  && negb (byte_eqb b backslash_byte)
  && negb (byte_eqb b quote_byte)
  && negb (byte_eqb b (byte_of 60))
  && negb (byte_eqb b (byte_of 62)).

(** The [switch b] of the escaper. *)
Definition escape (b : byte) : M :=
  if byte_eqb b backslash_byte || byte_eqb b quote_byte then
    WriteByte backslash_byte ;; WriteByte b
  else if byte_eqb b (byte_of 10) then
    WriteByte backslash_byte ;; WriteByte (byte_of 110)
  else if byte_eqb b (byte_of 13) then
    WriteByte backslash_byte ;; WriteByte (byte_of 114)
  else
    WriteString (str "\u00") ;;
    WriteByte (index hex (N.to_nat (N.shiftr (byte_val b) 4))) ;;
    WriteByte (index hex (N.to_nat (N.land (byte_val b) 15))).

Section Escaper.

Variable X : Externals.

(** The [for i := 0; i < len(s); { ... }] loop of [string], with the two
    statements that follow it.  Each turn moves [i] forward, by one byte or
    by the width of the decoded rune; [fuel] counts the turns left, and a
    decoder that reports width zero keeps the loop turning for ever. *)
Fixpoint string_loop (fuel : nat) (s : gostring) (i start : nat) : M :=
  fun e =>
    if i <? len s then
      match fuel with
      | O => NoReturn
      | S fuel' =>
          let b := index s i in
          if (byte_val b <? RuneSelf)%N then
            if plain_byte b then string_loop fuel' s (i + 1) start e
            else
              ((if start <? i then WriteString (slice s start i) else skip) ;;
               escape b ;;
               string_loop fuel' s (i + 1) (i + 1)) e
          else
            let (c, size) := utf8_DecodeRuneInString X (skipn i s) in
            if (c =? RuneError)%Z && (size =? 1) then
              error (InvalidUTF8Error s) e
            else string_loop fuel' s (i + size) start e
      end
    else
      ((if start <? len s then WriteString (skipn start s) else skip) ;;
       WriteByte quote_byte) e.

(** [func (e *encodeState) string(s string) (int, os.Error)].  No caller
    reads the byte count it returns, and the error it returns is always
    nil, so the result is the state alone. *)
Definition string_ (s : gostring) : M :=
  WriteByte quote_byte ;; string_loop (len s) s 0 0.

End Escaper.

(** ** Number and base64 rendering *)

Fixpoint decimal_digits (fuel : nat) (n : N) (acc : gostring) : gostring :=
  match fuel with
  | O => acc
  | S fuel' =>
      let acc' := byte_of (48 + n mod 10) :: acc in
      if (n <? 10)%N then acc' else decimal_digits fuel' (n / 10) acc'
  end.

(** Modelled from the spec: [strconv.Uitoa64] is not under src/.  The
    canonical textual form of an unsigned 64-bit number is its decimal digit
    text; such a number has at most twenty digits. *)
Definition strconv_Uitoa64 (x : Z) : gostring :=
  decimal_digits 20 (Z.to_N x) [].

(** Modelled from the spec: [strconv.Itoa64] is not under src/.  Decimal
    digit text, after a minus sign for a negative number. *)
Definition strconv_Itoa64 (x : Z) : gostring :=
  if (x <? 0)%Z then byte_of 45 :: decimal_digits 20 (Z.to_N (- x)) []
  else decimal_digits 20 (Z.to_N x) [].

Definition base64_alphabet : gostring :=
  str "ABCDEFGHIJKLMNOPQRSTUVWXYZabcdefghijklmnopqrstuvwxyz0123456789+/".

Definition base64_char (n : N) : byte := index base64_alphabet (N.to_nat n).

(** Modelled from the spec: [base64.StdEncoding] is not under src/.  Three
    bytes become four characters of the standard alphabet; a last group of
    one or two bytes is padded with equals signs. *)
Fixpoint base64_Encode (src : list byte) : list byte :=
  match src with
  | [] => []
  | [a] =>
      let x := byte_val a in
      [base64_char (N.shiftr x 2); base64_char (N.shiftl (N.land x 3) 4);
       byte_of 61; byte_of 61]
  | [a; b] =>
      let x := byte_val a in
      let y := byte_val b in
      [base64_char (N.shiftr x 2);
       base64_char (N.lor (N.shiftl (N.land x 3) 4) (N.shiftr y 4));
       base64_char (N.shiftl (N.land y 15) 2); byte_of 61]
  | a :: b :: c :: rest =>
      let x := byte_val a in
      let y := byte_val b in
      let z := byte_val c in
      base64_char (N.shiftr x 2)
      :: base64_char (N.lor (N.shiftl (N.land x 3) 4) (N.shiftr y 4))
      :: base64_char (N.lor (N.shiftl (N.land y 15) 2) (N.shiftr z 6))
      :: base64_char (N.land z 63)
      :: base64_Encode rest
  end.

(** ** Struct tags *)

Definition comma_byte : byte := byte_of 44.

(** The text before the first comma and the text after it, when there is
    a comma. *)
Fixpoint cut_comma (s : gostring) : option (gostring * gostring) :=
  match s with
  | [] => None
  | c :: s' =>
      if byte_eqb c comma_byte then Some ([], s')
      else match cut_comma s' with
           | Some (a, b) => Some (c :: a, b)
           | None => None
           end
  end.

(** The comma-separated tokens of [s]. *)
Fixpoint tokens (s : gostring) : list gostring :=
  match s with
  | [] => [[]]
  | c :: s' =>
      if byte_eqb c comma_byte then [] :: tokens s'
      else match tokens s' with
           | [] => [[c]]
           | t :: ts => (c :: t) :: ts
           end
  end.

Definition tagOptions := gostring.

(** Modelled from the spec: [parseTag] (tags.go) is not under src/.  It
    splits on the first comma: the prefix is the name, what follows the
    comma is the option list. *)
Definition parseTag (tag : gostring) : gostring * tagOptions :=
  match cut_comma tag with
  | Some (name, opts) => (name, opts)
  | None => (tag, [])
  end.

(** Modelled from the spec: [tagOptions.Contains] (tags.go) is not under
    src/.  An option is set when it is one of the comma-separated tokens. *)
Definition Contains (o : tagOptions) (optionName : gostring) : bool :=
  existsb (gostring_eqb optionName) (tokens o).

Section Tags.

Variable X : Externals.

(** The test of the loop body: [c] is none of dollar, hyphen, underscore,
    and neither a letter nor a digit. *)
Definition rejected_rune (c : Z) : bool :=
  negb (c =? 36)%Z && negb (c =? 45)%Z && negb (c =? 95)%Z
  && negb (unicode_IsLetter X c) && negb (unicode_IsDigit X c).

Fixpoint isValidTag_loop (rs : list Z) : bool :=
  match rs with
  | [] => true
  | c :: rs' => if rejected_rune c then false else isValidTag_loop rs'
  end.

(** [func isValidTag(s string) bool] *)
Definition isValidTag (s : gostring) : bool :=
  if gostring_eqb s [] then false
  else isValidTag_loop (range_runes X s).

(** The three variables [tag, omitEmpty, quoted] that the struct case
    computes for the field [f]. *)
Definition field_config (f : StructField) : gostring * bool * bool :=
  let tv := Tag_json f in
  if negb (gostring_eqb tv []) then
    let (name, opts) := parseTag tv in
    (if isValidTag name then name else Name f,
     Contains opts (str "omitempty"),
     Contains opts (str "string"))
  else (Name f, false, false).

End Tags.

(** ** Emptiness *)

(** [func isEmptyValue(v reflect.Value) bool] *)
Definition isEmptyValue (v : Value) : bool :=
  match v with
  | VArray _ _ elems | VSlice _ _ elems => List.length elems =? 0
  | VMap _ _ m =>
      match m with
      | None => true     (* the length of a nil map is zero *)
      | Some es => List.length es =? 0
      end
  | VString _ _ s => len s =? 0
  | VBool _ _ x => negb x
  | VInt _ _ x => (x =? 0)%Z
  | VUint _ _ x => (x =? 0)%Z
  | VFloat _ _ x => PrimFloat.eqb x PrimFloat.zero
  | VInterface _ _ elem | VPtr _ _ elem =>
      match elem with None => true | Some _ => false end
  | _ => false
  end.

(** ** The encoder *)

(** What a Go function with results [([]byte, os.Error)] hands back; a nil
    slice and a nil error are [None]. *)
Inductive Returned : Type :=
| Returns (b : option (list byte)) (err : option os_Error)
| Never.

(** [v.Interface().([]byte)] for a value of type [[]byte]: the bytes held
    by its elements. *)
Fixpoint Interface_bytes (elems : list Value) : option (list byte) :=
  match elems with
  | [] => Some []
  | VUint _ _ x :: rest =>
      match Interface_bytes rest with
      | Some s => Some (byte_of (Z.to_N x) :: s)
      | None => None
      end
  | _ => None
  end.

Section Encoder.

Variable X : Externals.

(** [Compact(&e.Buffer, b)]: the state after the call and the error. *)
Definition Compact (b : gostring) (e : Buffer) : Buffer * option os_Error :=
  match Compact_bytes X b with
  | inl out => (e ++ out, None)
  | inr err => (e, Some err)
  end.

(** The hook branch of [reflectValueQuoted], for a value of type [t] whose
    [MarshalJSON] returns [(b, err)]. *)
Definition call_Marshaler (t : rtype) (b : gostring) (err : option os_Error) : M :=
  fun e =>
    let (e', err') :=
      match err with
      | None => Compact b e
      | Some x => (e, Some x)
      end in
    match err' with
    | Some x => error (MarshalerError t x) e'
    | None => Done e'
    end.

(** [Marshal(v.String())] as the quoted string case calls it.  The argument
    is a plain [string]: it is valid, has no [MarshalJSON], and its kind is
    [String], so the nested encode is [e.string(s)] on a fresh state
    ([Marshal_plain_string] below shows that this is what [Marshal] does). *)
Definition Marshal_string (s : gostring) : Returned :=
  match string_ X s [] with
  | Done e => Returns (Some e) None
  | Panic err _ => Returns None (Some err)
  | NoReturn => Never
  end.

Section Loops.

(** [e.reflectValueQuoted] *)
Variable rv : Value -> bool -> M.

(** The field loop of the struct case, from field [i] on. *)
Fixpoint struct_loop (fields : list (StructField * Value)) (first : bool) : M :=
  match fields with
  | [] => skip
  | (f, fieldValue) :: rest =>
      if negb (gostring_eqb (PkgPath f) []) then struct_loop rest first
      else
        let '(tag, omitEmpty, quoted) := field_config X f in
        if omitEmpty && isEmptyValue fieldValue then struct_loop rest first
        else
          (if first then skip else WriteByte comma_byte) ;;
          string_ X tag ;;
          WriteByte (byte_of 58) ;;
          rv fieldValue quoted ;;
          struct_loop rest false
  end.

(** The element loop of the array and slice case, from index [i] on. *)
Fixpoint array_loop (elems : list Value) (i : nat) : M :=
  match elems with
  | [] => skip
  | x :: rest =>
      (if 0 <? i then WriteByte comma_byte else skip) ;;
      rv x false ;;
      array_loop rest (i + 1)
  end.

Section MapLoop.

Variable m : list (gostring * Value).

(** [e.reflectValue(v.MapIndex(k))].  [MapIndex] returns the zero Value
    for a key the map does not hold, which encodes as null. *)
Fixpoint reflectValue_MapIndex (es : list (gostring * Value)) (k : gostring) : M :=
  match es with
  | [] => WriteString (str "null")
  | (k', x) :: es' =>
      if gostring_eqb k' k then rv x false else reflectValue_MapIndex es' k
  end.

(** The [for i, k := range sv] loop of the map case, from index [i] on. *)
Fixpoint map_loop (sv : stringValues) (i : nat) : M :=
  match sv with
  | [] => skip
  | k :: rest =>
      (if 0 <? i then WriteByte comma_byte else skip) ;;
      string_ X k ;;
      WriteByte (byte_of 58) ;;
      reflectValue_MapIndex m k ;;
      map_loop rest (i + 1)
  end.

End MapLoop.

(** The array and slice case. *)
Definition encode_sequence (t : rtype) (elems : list Value) : M :=
  if rtype_eqb t byteSliceType then
    WriteByte quote_byte ;;
    (match Interface_bytes elems with
     | Some s =>
         if len s <? 1024 then Write (base64_Encode s)
         else Write (base64_Encode s)   (* the streaming encoder, then Close *)
     | None => fun _ => NoReturn
     end) ;;
    WriteByte quote_byte
  else
    WriteByte (byte_of 91) ;;
    array_loop elems 0 ;;
    WriteByte (byte_of 93).

End Loops.

(** [v.MapKeys()], in the order the storage of the map yields them. *)
Definition MapKeys (es : list (gostring * Value)) : stringValues :=
  map fst es.

(** [func (e *encodeState) reflectValueQuoted(v reflect.Value, quoted bool)] *)
Fixpoint reflectValueQuoted (v : Value) (quoted : bool) {struct v} : M :=
  if negb (Value_IsValid v) then WriteString (str "null")
  else
    match Value_Marshaler v with
    | Some (b, err) => call_Marshaler (Value_Type v) b err
    | None =>
        let writeString := if quoted then string_ X else WriteString in
        match v with
        | VBool _ _ x =>
            if x then writeString (str "true") else writeString (str "false")
        | VInt _ _ x => writeString (strconv_Itoa64 x)
        | VUint _ _ x => writeString (strconv_Uitoa64 x)
        | VFloat t _ x => writeString (strconv_FtoaN X x (rtype_Bits t))
        | VString _ _ s =>
            if quoted then
              match Marshal_string s with
              | Returns sb None =>
                  string_ X (match sb with Some b => b | None => [] end)
              | Returns _ (Some err) => error err
              | Never => fun _ => NoReturn
              end
            else string_ X s
        | VStruct _ _ fields =>
            WriteByte (byte_of 123) ;;
            struct_loop reflectValueQuoted fields true ;;
            WriteByte (byte_of 125)
        | VMap t _ m =>
            if negb (Kind_eqb (rtype_Kind (rtype_Key t)) String) then
              error (UnsupportedTypeError t)
            else
              match m with
              | None => WriteString (str "null")
              | Some es =>
                  WriteByte (byte_of 123) ;;
                  map_loop reflectValueQuoted es (sort_Sort X (MapKeys es)) 0 ;;
                  WriteByte (byte_of 125)
              end
        | VArray t _ elems | VSlice t _ elems =>
            encode_sequence reflectValueQuoted t elems
        | VInterface _ _ elem | VPtr _ _ elem =>
            match elem with
            | None => WriteString (str "null")
            | Some x => reflectValueQuoted x false
            end
        | VOther _ _ | VInvalid =>
            error (UnsupportedTypeError (Value_Type v))
        end
    end.

(** [func (e *encodeState) reflectValue(v reflect.Value)] *)
Definition reflectValue (v : Value) : M := reflectValueQuoted v false.

(** [func (e *encodeState) marshal(v interface{}) (err os.Error)], on
    [reflect.ValueOf(v)].  The deferred function turns the panic of
    [e.error] into the returned error and lets every other panic through. *)
Definition marshal (v : Value) (e : Buffer) : option (Buffer * option os_Error) :=
  match reflectValue v e with
  | Done e' => Some (e', None)
  | Panic err e' => Some (e', Some err)
  | NoReturn => None
  end.

(** [func Marshal(v interface{}) ([]byte, os.Error)], on
    [reflect.ValueOf(v)]; the zero Value stands for an untyped nil. *)
Definition Marshal (v : Value) : Returned :=
  match marshal v [] with
  | Some (e, Some err) => Returns None (Some err)
  | Some (e, None) => Returns (Some e) None
  | None => Never
  end.

End Encoder.

(** ** Sample collaborators

    One choice of the parameters, used to evaluate the encoder on concrete
    inputs.  No theorem depends on it. *)

Module Sample.

Definition continuation (x : N) : bool := (128 <=? x)%N && (x <? 192)%N.

(** A UTF-8 decoder: one to four bytes, shortest form only; anything else
    is [(RuneError, 1)], and the empty string is [(RuneError, 0)]. *)
Definition decode (s : gostring) : Z * nat :=
  match s with
  | [] => (RuneError, 0)
  | c0 :: r0 =>
      let x0 := byte_val c0 in
      if (x0 <? 128)%N then (Z.of_N x0, 1)
      else if (x0 <? 192)%N then (RuneError, 1)
      else
        match r0 with
        | [] => (RuneError, 1)
        | c1 :: r1 =>
            let x1 := byte_val c1 in
            if negb (continuation x1) then (RuneError, 1)
            else if (x0 <? 224)%N then
              let r := N.lor (N.shiftl (N.land x0 31) 6) (N.land x1 63) in
              if (r <=? 127)%N then (RuneError, 1) else (Z.of_N r, 2)
            else
              match r1 with
              | [] => (RuneError, 1)
              | c2 :: r2 =>
                  let x2 := byte_val c2 in
                  if negb (continuation x2) then (RuneError, 1)
                  else if (x0 <? 240)%N then
                    let r := N.lor (N.shiftl (N.land x0 15) 12)
                               (N.lor (N.shiftl (N.land x1 63) 6) (N.land x2 63)) in
                    if (r <=? 2047)%N then (RuneError, 1) else (Z.of_N r, 3)
                  else
                    match r2 with
                    | [] => (RuneError, 1)
                    | c3 :: _ =>
                        let x3 := byte_val c3 in
                        if negb (continuation x3) then (RuneError, 1)
                        else if (x0 <? 248)%N then
                          let r := N.lor (N.shiftl (N.land x0 7) 18)
                                     (N.lor (N.shiftl (N.land x1 63) 12)
                                        (N.lor (N.shiftl (N.land x2 63) 6)
                                               (N.land x3 63))) in
                          if (r <=? 65535)%N then (RuneError, 1)
                          else (Z.of_N r, 4)
                        else (RuneError, 1)
                    end
              end
        end
  end.

Fixpoint runes (fuel : nat) (s : gostring) : list Z :=
  match fuel with
  | O => []
  | S fuel' =>
      match s with
      | [] => []
      | _ :: _ =>
          let (c, size) := decode s in
          c :: runes fuel' (skipn size s)
      end
  end.

(** Letters and digits of the ASCII range only. *)
Definition letter (c : Z) : bool :=
  ((65 <=? c) && (c <=? 90) || (97 <=? c) && (c <=? 122))%Z.

Definition digit (c : Z) : bool := ((48 <=? c) && (c <=? 57))%Z.

Definition is_space (b : byte) : bool :=
  byte_eqb b (byte_of 32) || byte_eqb b (byte_of 9)
  || byte_eqb b (byte_of 10) || byte_eqb b (byte_of 13).

(** A stand-in for the scanner: it accepts the JSON literals and numbers
    made of digits, and drops surrounding white space. *)
Definition compact (src : gostring) : gostring + os_Error :=
  let body := filter (fun b => negb (is_space b)) src in
  if gostring_eqb body (str "null") || gostring_eqb body (str "true")
     || gostring_eqb body (str "false")
     || (negb (gostring_eqb body []) && forallb (fun b => digit (Z.of_N (byte_val b))) body)
  then inl body
  else inr (ErrorString (str "invalid character")).

Fixpoint insert (k : gostring) (sv : stringValues) : stringValues :=
  match sv with
  | [] => [k]
  | x :: rest =>
      if gostring_ltb k x then k :: x :: rest else x :: insert k rest
  end.

(** Sorting by insertion. *)
Definition sort (sv : stringValues) : stringValues :=
  fold_right insert [] sv.

(** A stand-in that does not format: no example encodes a float. *)
Definition ftoa (f : PrimFloat.float) (bits : Z) : gostring := str "0".

Definition externals : Externals :=
  {| utf8_DecodeRuneInString := decode;
     range_runes := fun s => runes (len s) s;
     unicode_IsLetter := letter;
     unicode_IsDigit := digit;
     strconv_FtoaN := ftoa;
     Compact_bytes := compact;
     sort_Sort := sort |}.

(** Predeclared types and values of them, for the examples. *)
Definition int_ (x : Z) : Value := VInt (Basic Int) None x.
Definition string_value (s : gostring) : Value := VString (Basic String) None s.
Definition uint8_ (x : Z) : Value := VUint (Basic Uint8) None x.
Definition func_ : Value := VOther (Opaque Func (str "func()")) None.
Definition exported (name tag : String.string) : StructField :=
  {| Name := str name; PkgPath := []; Tag_json := str tag |}.
Definition unexported (name : String.string) : StructField :=
  {| Name := str name; PkgPath := str "main"; Tag_json := [] |}.
Definition struct_ (name : String.string) (fs : list (StructField * Value)) : Value :=
  VStruct (Opaque Struct (str name)) None fs.
Definition map_string (elem : rtype) (es : list (gostring * Value)) : Value :=
  VMap (MapOf (Basic String) elem) None (Some es).
Definition empty_interface : rtype := Opaque Interface (str "interface {}").
(** A slice of empty interfaces, each element holding one of the values. *)
Definition slice_interface (elems : list Value) : Value :=
  VSlice (SliceOf empty_interface) None
    (map (fun x => VInterface empty_interface None (Some x)) elems).

(** A value of a declared integer type whose [MarshalJSON] returns the
    text 12 between two spaces. *)
Definition celsius (x : Z) : Value :=
  VInt (Named (str "Celsius") (Basic Int)) (Some (str " 12 ", None)) x.

End Sample.

(** ** Vocabulary of the specification *)

Definition hex_digit (n : N) : byte := index hex (N.to_nat n).

(** The rendering of one byte inside a JSON string literal, following the
    words of the specification: less-than and greater-than as their u003c
    and u003e escapes, backslash and double quote behind a backslash, line
    feed and carriage return as their letter escapes, any other byte below
    0x20 as a u00XX escape, and every other byte (the ampersand among them)
    as itself. *)
Definition spec_rendering (b : byte) : gostring :=
  let x := byte_val b in
  if (x =? 60)%N then str "\u003c"
  else if (x =? 62)%N then str "\u003e"
  else if (x =? 92)%N then [backslash_byte; backslash_byte]
  else if (x =? 34)%N then [backslash_byte; quote_byte]
  else if (x =? 10)%N then str "\n"
  else if (x =? 13)%N then str "\r"
  else if (x <? 32)%N then
    str "\u00" ++ [hex_digit (x / 16); hex_digit (x mod 16)]
  else [b].

(** A JSON string literal with the given content. *)
Definition quoted_literal (content : gostring) : gostring :=
  quote_byte :: content ++ [quote_byte].

Definition nonascii (b : byte) : Prop := (128 <= byte_val b)%N.

(** What the escaper relies on from [utf8.DecodeRuneInString]: on a
    non-empty string it reports a width of at least one byte, and the bytes
    of the rune it decodes at a byte of 0x80 or more are all 0x80 or more. *)
Definition decoder_advances (X : Externals) : Prop :=
  forall s c size,
    s <> [] -> utf8_DecodeRuneInString X s = (c, size) -> 1 <= size.

Definition decoder_spans_nonascii (X : Externals) : Prop :=
  forall b s c size,
    nonascii b -> utf8_DecodeRuneInString X (b :: s) = (c, size) ->
    Forall nonascii (firstn size (b :: s)).

(** A string holds a malformed sequence when, reading it rune by rune, some
    rune starts at a byte of 0x80 or more that the decoder rejects. *)
Inductive Malformed (X : Externals) : gostring -> Prop :=
| malformed_here b r :
    nonascii b ->
    utf8_DecodeRuneInString X (b :: r) = (RuneError, 1) ->
    Malformed X (b :: r)
| malformed_after_byte b r :
    (byte_val b < 128)%N -> Malformed X r -> Malformed X (b :: r)
| malformed_after_rune b r c size :
    nonascii b ->
    utf8_DecodeRuneInString X (b :: r) = (c, size) ->
    ~ (c = RuneError /\ size = 1) ->
    Malformed X (skipn size (b :: r)) ->
    Malformed X (b :: r).

(** The value is empty in the sense of the omitempty option: a false
    boolean, a zero number, a string, array, slice or map of length zero (a
    nil map has length zero), a nil interface or pointer.  No clause makes
    a struct empty. *)
Inductive Empty : Value -> Prop :=
| empty_bool t j : Empty (VBool t j false)
| empty_int t j : Empty (VInt t j 0)
| empty_uint t j : Empty (VUint t j 0)
| empty_float t j x :
    PrimFloat.eqb x PrimFloat.zero = true -> Empty (VFloat t j x)
| empty_string t j : Empty (VString t j [])
| empty_array t j : Empty (VArray t j [])
| empty_slice t j : Empty (VSlice t j [])
| empty_map t j : Empty (VMap t j (Some []))
| empty_nil_map t j : Empty (VMap t j None)
| empty_nil_interface t j : Empty (VInterface t j None)
| empty_nil_ptr t j : Empty (VPtr t j None).

(** The tag of the field lists the option among the comma-separated
    tokens that follow its first comma. *)
Definition has_option (f : StructField) (o : gostring) : Prop :=
  In o (tokens (snd (parseTag (Tag_json f)))).

(** The characters a name override may be made of. *)
Definition allowed (X : Externals) (c : Z) : Prop :=
  c = 36%Z \/ c = 45%Z \/ c = 95%Z
  \/ unicode_IsLetter X c = true \/ unicode_IsDigit X c = true.

Definition field_key (X : Externals) (f : StructField) : gostring :=
  fst (fst (field_config X f)).
Definition field_omitEmpty (X : Externals) (f : StructField) : bool :=
  snd (fst (field_config X f)).
Definition field_quoted (X : Externals) (f : StructField) : bool :=
  snd (field_config X f).

(** What the struct case writes for a field it does not skip: the comma
    unless the field is the first one written, the key, the colon, the
    value. *)
Definition emit_field (X : Externals) (rv : Value -> bool -> M)
    (f : StructField) (v : Value) (first : bool) : M :=
  ((if first then skip else WriteByte comma_byte) ;;
   string_ X (field_key X f) ;;
   WriteByte (byte_of 58) ;;
   rv v (field_quoted X f))%enc.

(** The text a boolean or a number is rendered as. *)
Definition primitive_text (X : Externals) (v : Value) : option gostring :=
  match v with
  | VBool _ _ x => Some (if x then str "true" else str "false")
  | VInt _ _ x => Some (strconv_Itoa64 x)
  | VUint _ _ x => Some (strconv_Uitoa64 x)
  | VFloat t _ x => Some (strconv_FtoaN X x (rtype_Bits t))
  | _ => None
  end.

(** The text a boolean or an integer is rendered as. *)
Definition literal_text (v : Value) : option gostring :=
  match v with
  | VBool _ _ x => Some (if x then str "true" else str "false")
  | VInt _ _ x => Some (strconv_Itoa64 x)
  | VUint _ _ x => Some (strconv_Uitoa64 x)
  | _ => None
  end.

(** A byte below 0x80 that the escaper copies as it is. *)
Definition plain_ascii (b : byte) : bool :=
  plain_byte b && (byte_val b <? 128)%N.

(** A JSON text of the examples, written with an apostrophe wherever it
    has a double quote. *)
Definition json (s : String.string) : gostring :=
  map (fun c => if byte_eqb c (byte_of 39) then quote_byte else c) (str s).

(** Lexicographic order of strings, byte by byte: a proper prefix comes
    first, and otherwise the first byte that differs decides. *)
Inductive lex_lt : gostring -> gostring -> Prop :=
| lex_prefix b t : lex_lt [] (b :: t)
| lex_head a s b t : (byte_val a < byte_val b)%N -> lex_lt (a :: s) (b :: t)
| lex_tail a s t : lex_lt s t -> lex_lt (a :: s) (a :: t).

(** The order of the keys as [Less] has it: [a] is strictly before [b],
    and [a] is not after [b]. *)
Definition key_lt (a b : gostring) : Prop := gostring_ltb a b = true.
Definition key_le (a b : gostring) : Prop := gostring_ltb b a = false.

(** What the map case relies on from [sort.Sort]: the slice it leaves holds
    the same keys, and no key in it is [Less] than a key before it. *)
Definition sorts_by_Less (X : Externals) : Prop :=
  forall sv,
    Permutation (sort_Sort X sv) sv
    /\ forall i j, i < j -> j < List.length sv ->
                   stringValues_Less (sort_Sort X sv) j i = false.

(** ** The value the traversal is at *)

(** [v.MapIndex(k)]; [None] stands for the zero Value of an absent key. *)
Fixpoint MapIndex (es : list (gostring * Value)) (k : gostring) : option Value :=
  match es with
  | [] => None
  | (k', x) :: es' => if gostring_eqb k' k then Some x else MapIndex es' k
  end.

(** The struct case passes over the field: it is not exported, or it is
    tagged omitempty and its value is empty. *)
Definition skipped (X : Externals) (f : StructField) (v : Value) : bool :=
  negb (gostring_eqb (PkgPath f) [])
  || (field_omitEmpty X f && isEmptyValue v).

(** The variable [first] of the struct case after the fields [pre]. *)
Definition first_after (X : Externals) (pre : list (StructField * Value))
    (first : bool) : bool :=
  first && forallb (fun p => skipped X (fst p) (snd p)) pre.

(** [Reaches X v q e w q' e']: the call [reflectValueQuoted(v, q)] made
    with the buffer [e] comes, every step before having returned, to the
    call [reflectValueQuoted(w, q')] with the buffer [e'].  The way down
    goes through a non-nil interface or pointer, an element of an array or
    slice that is not a byte slice, a field that the struct case does not
    skip, or a value of a map with string keys; never through a value
    that has a MarshalJSON hook. *)
Inductive Reaches (X : Externals) :
  Value -> bool -> Buffer -> Value -> bool -> Buffer -> Prop :=
| reaches_here v q e : Reaches X v q e v q e
| reaches_interface t x q e w q' e' :
    Reaches X x false e w q' e' ->
    Reaches X (VInterface t None (Some x)) q e w q' e'
| reaches_ptr t x q e w q' e' :
    Reaches X x false e w q' e' ->
    Reaches X (VPtr t None (Some x)) q e w q' e'
| reaches_array_elem t pre x post q e e1 e2 w q' e' :
    rtype_eqb t byteSliceType = false ->
    array_loop (reflectValueQuoted X) pre 0 (e ++ [byte_of 91]) = Done e1 ->
    (if 0 <? List.length pre then WriteByte comma_byte else skip) e1 = Done e2 ->
    Reaches X x false e2 w q' e' ->
    Reaches X (VArray t None (pre ++ x :: post)) q e w q' e'
| reaches_slice_elem t pre x post q e e1 e2 w q' e' :
    rtype_eqb t byteSliceType = false ->
    array_loop (reflectValueQuoted X) pre 0 (e ++ [byte_of 91]) = Done e1 ->
    (if 0 <? List.length pre then WriteByte comma_byte else skip) e1 = Done e2 ->
    Reaches X x false e2 w q' e' ->
    Reaches X (VSlice t None (pre ++ x :: post)) q e w q' e'
| reaches_field t pre f x post q e e1 e2 w q' e' :
    struct_loop X (reflectValueQuoted X) pre true (e ++ [byte_of 123]) = Done e1 ->
    skipped X f x = false ->
    ((if first_after X pre true then skip else WriteByte comma_byte) ;;
     string_ X (field_key X f) ;;
     WriteByte (byte_of 58))%enc e1 = Done e2 ->
    Reaches X x (field_quoted X f) e2 w q' e' ->
    Reaches X (VStruct t None (pre ++ (f, x) :: post)) q e w q' e'
| reaches_map_value t es pre k post x q e e1 e2 w q' e' :
    rtype_Kind (rtype_Key t) = String ->
    sort_Sort X (MapKeys es) = pre ++ k :: post ->
    map_loop X (reflectValueQuoted X) es pre 0 (e ++ [byte_of 123]) = Done e1 ->
    ((if 0 <? List.length pre then WriteByte comma_byte else skip) ;;
     string_ X k ;;
     WriteByte (byte_of 58))%enc e1 = Done e2 ->
    MapIndex es k = Some x ->
    Reaches X x false e2 w q' e' ->
    Reaches X (VMap t None (Some es)) q e w q' e'.

(** ** Induction on reflected values *)

(** A value holds values inside lists, so the induction has to go through
    the lists: the property holds of a composite value when it holds of
    every value inside it. *)
Section ValueInduction.

Variable P : Value -> Prop.

Hypothesis H_invalid : P VInvalid.
Hypothesis H_bool : forall t j x, P (VBool t j x).
Hypothesis H_int : forall t j x, P (VInt t j x).
Hypothesis H_uint : forall t j x, P (VUint t j x).
Hypothesis H_float : forall t j x, P (VFloat t j x).
Hypothesis H_string : forall t j s, P (VString t j s).
Hypothesis H_struct :
  forall t j fields, Forall (fun p => P (snd p)) fields -> P (VStruct t j fields).
Hypothesis H_nil_map : forall t j, P (VMap t j None).
Hypothesis H_map :
  forall t j es, Forall (fun p => P (snd p)) es -> P (VMap t j (Some es)).
Hypothesis H_array : forall t j elems, Forall P elems -> P (VArray t j elems).
Hypothesis H_slice : forall t j elems, Forall P elems -> P (VSlice t j elems).
Hypothesis H_nil_interface : forall t j, P (VInterface t j None).
Hypothesis H_interface : forall t j x, P x -> P (VInterface t j (Some x)).
Hypothesis H_nil_ptr : forall t j, P (VPtr t j None).
Hypothesis H_ptr : forall t j x, P x -> P (VPtr t j (Some x)).
Hypothesis H_other : forall t j, P (VOther t j).

Fixpoint Value_induction (v : Value) : P v :=
  match v with
  | VInvalid => H_invalid
  | VBool t j x => H_bool t j x
  | VInt t j x => H_int t j x
  | VUint t j x => H_uint t j x
  | VFloat t j x => H_float t j x
  | VString t j s => H_string t j s
  | VStruct t j fields =>
      H_struct t j fields
        ((fix all (l : list (StructField * Value)) :
            Forall (fun p => P (snd p)) l :=
            match l with
            | [] => Forall_nil _
            | p :: r => Forall_cons p (Value_induction (snd p)) (all r)
            end) fields)
  | VMap t j None => H_nil_map t j
  | VMap t j (Some es) =>
      H_map t j es
        ((fix all (l : list (gostring * Value)) :
            Forall (fun p => P (snd p)) l :=
            match l with
            | [] => Forall_nil _
            | p :: r => Forall_cons p (Value_induction (snd p)) (all r)
            end) es)
  | VArray t j elems =>
      H_array t j elems
        ((fix all (l : list Value) : Forall P l :=
            match l with
            | [] => Forall_nil _
            | x :: r => Forall_cons x (Value_induction x) (all r)
            end) elems)
  | VSlice t j elems =>
      H_slice t j elems
        ((fix all (l : list Value) : Forall P l :=
            match l with
            | [] => Forall_nil _
            | x :: r => Forall_cons x (Value_induction x) (all r)
            end) elems)
  | VInterface t j None => H_nil_interface t j
  | VInterface t j (Some x) => H_interface t j x (Value_induction x)
  | VPtr t j None => H_nil_ptr t j
  | VPtr t j (Some x) => H_ptr t j x (Value_induction x)
  | VOther t j => H_other t j
  end.

End ValueInduction.

(** The call only appends to the buffer it is given. *)
Definition appends (m : M) : Prop :=
  forall e out, m e = Done out -> exists w, out = e ++ w.

(** An object as bytes: the members, each a key literal, a colon and the
    bytes of the value, with a comma before every member but the first. *)
Definition member_text (k w : gostring) : gostring :=
  quoted_literal (flat_map spec_rendering k) ++ byte_of 58 :: w.

Fixpoint members_text (kws : list (gostring * gostring)) (i : nat) : gostring :=
  match kws with
  | [] => []
  | (k, w) :: rest =>
      (if 0 <? i then [comma_byte] else [])
      ++ member_text k w ++ members_text rest (i + 1)
  end.

Definition object_text (kws : list (gostring * gostring)) : gostring :=
  byte_of 123 :: members_text kws 0 ++ [byte_of 125].

(** ** HTMLEscape and MarshalForHTML *)

Definition html_special (c : byte) : bool :=
  byte_eqb c (byte_of 60) || byte_eqb c (byte_of 62) || byte_eqb c (byte_of 38).

(** The [for i, c := range src] loop of [HTMLEscape] at index [i], with the
    bytes [rest] of [src] still to read: the buffer and the variable
    [start] when the loop ends. *)
Fixpoint HTMLEscape_loop (src rest : list byte) (i start : nat) (dst : Buffer)
  : Buffer * nat :=
  match rest with
  | [] => (dst, start)
  | c :: rest' =>
      if html_special c then
        let dst1 := if start <? i then dst ++ slice src start i else dst in
        let dst2 := dst1 ++ str "\u00" in
        let dst3 := dst2 ++ [index hex (N.to_nat (N.shiftr (byte_val c) 4))] in
        let dst4 := dst3 ++ [index hex (N.to_nat (N.land (byte_val c) 15))] in
        HTMLEscape_loop src rest' (i + 1) (i + 1) dst4
      else HTMLEscape_loop src rest' (i + 1) start dst
  end.

(** [func HTMLEscape(dst *bytes.Buffer, src []byte)]: the buffer after the
    call. *)
Definition HTMLEscape (dst : Buffer) (src : list byte) : Buffer :=
  let (dst', start) := HTMLEscape_loop src src 0 0 dst in
  if start <? len src then dst' ++ skipn start src else dst'.

(** [func MarshalForHTML(v interface{}) ([]byte, os.Error)], on
    [reflect.ValueOf(v)]. *)
Definition MarshalForHTML (X : Externals) (v : Value) : Returned :=
  match Marshal X v with
  | Returns _ (Some err) => Returns None (Some err)
  | Returns b None =>
      Returns (Some (HTMLEscape [] (match b with Some p => p | None => [] end)))
              None
  | Never => Never
  end.

(** What [HTMLEscape] makes of one byte: the escapes u003c, u003e and u0026
    for less-than, greater-than and ampersand, the byte itself otherwise. *)
Definition html_rendering (c : byte) : gostring :=
  if byte_eqb c (byte_of 60) then str "\u003c"
  else if byte_eqb c (byte_of 62) then str "\u003e"
  else if byte_eqb c (byte_of 38) then str "\u0026"
  else [c].

(** ** Reading a rendered byte back *)

(** The value of a lower-case hexadecimal digit. *)
Definition hex_value (c : byte) : N :=
  let x := byte_val c in
  if (x <? 58)%N then x - 48 else x - 87.

(** The byte whose rendering starts the text, and the text after that
    rendering. *)
Definition unrender (l : gostring) : option (byte * gostring) :=
  match l with
  | [] => None
  | c :: rest =>
      if byte_eqb c backslash_byte then
        match rest with
        | [] => None
        | d :: rest' =>
            if byte_eqb d (byte_of 110) then Some (byte_of 10, rest')
            else if byte_eqb d (byte_of 114) then Some (byte_of 13, rest')
            else if byte_eqb d (byte_of 117) then
              match rest' with
              | _ :: _ :: h :: l' :: rest'' =>
                  Some (byte_of (16 * hex_value h + hex_value l'), rest'')
              | _ => None
              end
            else Some (d, rest')
        end
      else Some (c, rest)
  end.

(** A byte that may stand in a JSON text inside HTML: 0x20 or more, and
    neither less-than nor greater-than. *)
Definition markup_safe (c : byte) : bool :=
  (32 <=? byte_val c)%N
  && negb (byte_eqb c (byte_of 60)) && negb (byte_eqb c (byte_of 62)).

(** ** Outcomes under a longer buffer *)

(** The outcome [o] of a call made with the empty buffer, had the call been
    made with the buffer [e]. *)
Definition extend (e : Buffer) (o : Outcome) : Outcome :=
  match o with
  | Done w => Done (e ++ w)
  | Panic err w => Panic err (e ++ w)
  | NoReturn => NoReturn
  end.

(** What the call does is what it does with the empty buffer, after the
    bytes the buffer holds. *)
Definition frames (m : M) : Prop := forall e, m e = extend e (m []).

(** The texts with a comma between each two. *)
Definition join_commas (ws : list gostring) : gostring :=
  match ws with
  | [] => []
  | w :: rest => w ++ flat_map (fun x => comma_byte :: x) rest
  end.

(** The values directly inside a value. *)
Definition children (v : Value) : list Value :=
  match v with
  | VStruct _ _ fields => map snd fields
  | VMap _ _ (Some es) => map snd es
  | VArray _ _ elems | VSlice _ _ elems => elems
  | VInterface _ _ (Some x) | VPtr _ _ (Some x) => [x]
  | _ => []
  end.

(** The property holds of the value and of every value inside it. *)
Inductive Everywhere (P : Value -> Prop) : Value -> Prop :=
| everywhere v : P v -> Forall (Everywhere P) (children v) -> Everywhere P v.


Definition no_hook (v : Value) : Prop := Value_Marshaler v = None.

(** The kinds on which the quoted flag is read. *)
Definition primitive_kind (v : Value) : bool :=
  match v with
  | VBool _ _ _ | VInt _ _ _ | VUint _ _ _ | VFloat _ _ _ | VString _ _ _ => true
  | _ => false
  end.

(** Neither less-than nor greater-than. *)
Definition tag_free_byte (c : byte) : bool :=
  negb (byte_eqb c (byte_of 60)) && negb (byte_eqb c (byte_of 62)).

Definition tag_free (w : list byte) : Prop := forallb tag_free_byte w = true.

(** What is assumed of [strconv.FtoaN] where floats are written bare: its
    text has no less-than and no greater-than. *)
Definition float_text_tag_free (X : Externals) : Prop :=
  forall f bits, tag_free (strconv_FtoaN X f bits).

(** The ampersand as its escape u0026, any other byte as it is. *)
Definition amp_rendering (c : byte) : gostring :=
  if byte_eqb c (byte_of 38) then html_rendering c else [c].

(** The three kinds of error of the package. *)
Definition json_error (err : os_Error) : Prop :=
  match err with
  | UnsupportedTypeError _ | InvalidUTF8Error _ | MarshalerError _ _ => True
  | ErrorString _ => False
  end.

(** The texts from the element of index [i] on, as the loops lay them out:
    a comma before every text but the one of index zero. *)
Fixpoint joined_from (ws : list gostring) (i : nat) : gostring :=
  match ws with
  | [] => []
  | w :: rest =>
      (if 0 <? i then [comma_byte] else []) ++ w ++ joined_from rest (i + 1)
  end.

(** The members from a field on, as the struct loop lays them out. *)
Fixpoint joined_first (ms : list gostring) (first : bool) : gostring :=
  match ms with
  | [] => []
  | m :: rest =>
      (if first then [] else [comma_byte]) ++ m ++ joined_first rest false
  end.

(** The member a written field contributes: key literal, colon, value. *)
Definition member_of (X : Externals) (p : StructField * Value) (m : gostring)
  : Prop :=
  exists k w,
    string_ X (field_key X (fst p)) [] = Done k
    /\ reflectValueQuoted X (snd p) (field_quoted X (fst p)) [] = Done w
    /\ m = k ++ byte_of 58 :: w.

(** No byte of [w] is one [HTMLEscape] escapes. *)
Definition html_free (w : list byte) : Prop :=
  Forall (fun c => html_special c = false) w.

(** ** Three things a call may be known to do *)

(** The call comes back, by return or by panic. *)
Definition returns (m : M) : Prop := forall e, m e <> NoReturn.

(** What the call appends on return has no less-than and no greater-than. *)
Definition writes_tag_free (m : M) : Prop :=
  forall e out, m e = Done out -> exists w, out = e ++ w /\ tag_free w.

(** The call panics with one of the three errors of the package only. *)
Definition raises_json_error (m : M) : Prop :=
  forall e err p, m e = Panic err p -> json_error err.

(** ** The sort interface of the keys *)

(** [func (sv stringValues) Len() int] *)
Definition stringValues_Len (sv : stringValues) : nat := List.length sv.

(** [sv[i] = x], for [i] in range. *)
Fixpoint assign (sv : stringValues) (i : nat) (x : gostring) : stringValues :=
  match sv, i with
  | [], _ => []
  | _ :: rest, O => x :: rest
  | y :: rest, S i' => y :: assign rest i' x
  end.

(** [func (sv stringValues) Swap(i, j int)]: the slice after
    [sv[i], sv[j] = sv[j], sv[i]].  Both elements are read, then [sv[i]]
    and [sv[j]] are assigned in this order; an index out of range is a
    run-time panic, [None]. *)
Definition stringValues_Swap (sv : stringValues) (i j : nat)
  : option stringValues :=
  if (i <? List.length sv) && (j <? List.length sv) then
    Some (assign (assign sv i (stringValues_get sv j)) j (stringValues_get sv i))
  else None.

(** The index [Swap] moves the element of index [k] from. *)
Definition exchanged (i j k : nat) : nat :=
  if k =? i then j else if k =? j then i else k.

(** ** Values that encode *)

(** The bytes of 0x80 or more that the string starts with. *)
Fixpoint nonascii_run (s : gostring) : gostring :=
  match s with
  | [] => []
  | b :: r => if (128 <=? byte_val b)%N then b :: nonascii_run r else []
  end.

(** What the quoted string case relies on from [utf8.DecodeRuneInString]
    when it escapes a literal a second time: of what follows the first byte
    of a rune, the decoder reads the bytes of 0x80 or more only (a
    continuation byte is 0x80 or more; a smaller byte ends the rune as the
    end of the string does). *)
Definition decoder_reads_run (X : Externals) : Prop :=
  forall b s t,
    nonascii b -> nonascii_run s = nonascii_run t ->
    utf8_DecodeRuneInString X (b :: s) = utf8_DecodeRuneInString X (b :: t).

(** A value that has no hook and, by itself, gives the encoder no reason to
    fail: its string, the text of its float, its field keys and its map
    keys hold no malformed sequence, its map type has string keys, its
    byte slice holds bytes, and its kind is one the encoder knows. *)
Definition encodable (X : Externals) (v : Value) : Prop :=
  Value_Marshaler v = None
  /\ match v with
     | VString _ _ s => ~ Malformed X s
     | VFloat t _ x => ~ Malformed X (strconv_FtoaN X x (rtype_Bits t))
     | VStruct _ _ fields =>
         Forall (fun p => ~ Malformed X (field_key X (fst p))) fields
     | VMap t _ m =>
         rtype_Kind (rtype_Key t) = String
         /\ match m with
            | Some es => Forall (fun p => ~ Malformed X (fst p)) es
            | None => True
            end
     | VArray t _ elems | VSlice t _ elems =>
         rtype_eqb t byteSliceType = true -> Interface_bytes elems <> None
     | VOther _ _ => False
     | _ => True
     end.

(** The call returns, whatever the buffer. *)
Definition succeeds (m : M) : Prop := forall e, exists out, m e = Done out.

(** A byte below 0x80. *)
Definition ascii (b : byte) : Prop := (byte_val b < 128)%N.

(** The content of a literal and its closing quote. *)
Definition literal_tail (s : gostring) : gostring :=
  flat_map spec_rendering s ++ [quote_byte].

(** * Properties *)

(** ** The zero Value *)

(** What [Marshal] does on a plain string, as [Marshal_string] has it. *)
Lemma Marshal_plain_string (X : Externals) (s : gostring) :
  Marshal X (VString (Basic String) None s) = Marshal_string X s.
Proof.
  unfold Marshal, marshal, reflectValue, Marshal_string. simpl.
  destruct (string_ X s []); reflexivity.
Qed.

(** C10. Encoding a value that carries no type information at all (the
    zero reflected value of an untyped nil) succeeds and produces exactly
    the four bytes of the JSON literal null. *)
Theorem Marshal_untyped_nil :
  forall X, Marshal X VInvalid = Returns (Some (str "null")) None.
Proof. intros X. reflexivity. Qed.

(** ** The custom serialization hook *)

(** C8. A value that exposes the hook is encoded by the hook alone, whatever
    its kind, its contents and the quoted flag: a hook error, or an error of
    the compaction of the returned bytes, is raised as a MarshalerError that
    carries the type of the value; otherwise the compacted bytes are appended
    to the output. *)
Theorem hook_takes_priority :
  forall X v quoted b err e,
    Value_Marshaler v = Some (b, err) ->
    reflectValueQuoted X v quoted e =
      match err with
      | Some x => Panic (MarshalerError (Value_Type v) x) e
      | None =>
          match Compact_bytes X b with
          | inl out => Done (e ++ out)
          | inr x => Panic (MarshalerError (Value_Type v) x) e
          end
      end.
Proof.
  intros X v quoted b err e H.
  destruct v; simpl in H; try discriminate;
    simpl; rewrite H; unfold call_Marshaler, Compact, error;
    destruct err; try reflexivity;
    destruct (Compact_bytes X b); reflexivity.
Qed.

Lemma hook_takes_priority_witness :
  Value_Marshaler (Sample.celsius 7) = Some (str " 12 ", None)
  /\ reflectValueQuoted Sample.externals (Sample.celsius 7) true []
     = Done (str "12").
Proof.
  split; [reflexivity|].
  exact (hook_takes_priority Sample.externals (Sample.celsius 7) true
           (str " 12 ") None [] eq_refl).
Defined.

(** ** The string escaper *)

Lemma firstn_plus {A} (k n : nat) (t : list A) :
  firstn (k + n) t = firstn k t ++ firstn n (skipn k t).
Proof.
  revert t; induction k as [|k IH]; intros t; simpl; [reflexivity|].
  destruct t as [|a t]; simpl.
  - now rewrite firstn_nil.
  - now rewrite IH.
Qed.

Lemma skipn_index (s : gostring) (i : nat) :
  i < len s -> skipn i s = index s i :: skipn (i + 1) s.
Proof.
  unfold len, index. revert i; induction s as [|a s IH]; intros i H; simpl in H.
  - lia.
  - destruct i as [|i]; simpl; [reflexivity|].
    apply IH. lia.
Qed.

Lemma skipn_cons_inv (s : gostring) (i : nat) (b : byte) (r : gostring) :
  skipn i s = b :: r -> i < len s /\ index s i = b /\ skipn (i + 1) s = r.
Proof.
  intros H.
  assert (Hi : i < len s).
  { destruct (Nat.lt_ge_cases i (len s)) as [Hlt|Hge]; [exact Hlt|].
    rewrite (skipn_all2 s Hge) in H. discriminate H. }
  rewrite (skipn_index s i Hi) in H. inversion H. auto.
Qed.

Lemma slice_extend (s : gostring) (start i n : nat) :
  start <= i -> slice s start (i + n) = slice s start i ++ firstn n (skipn i s).
Proof.
  intros H. unfold slice.
  replace (i + n - start) with ((i - start) + n) by lia.
  rewrite firstn_plus, skipn_skipn.
  now replace (i - start + start) with i by lia.
Qed.

Lemma slice_empty (s : gostring) (i : nat) : slice s i i = [].
Proof. unfold slice. now rewrite Nat.sub_diag. Qed.

Lemma slice_to_end (s : gostring) (start i : nat) :
  start <= i -> len s <= i -> slice s start i = skipn start s.
Proof.
  intros H1 H2. unfold slice. apply firstn_all2.
  rewrite length_skipn. unfold len in H2. lia.
Qed.

Lemma escape_spec (b : byte) (e : Buffer) :
  (byte_val b < 128)%N -> plain_byte b = false ->
  escape b e = Done (e ++ spec_rendering b).
Proof.
  destruct b as [[] [] [] [] [] [] [] []]; intros H1 H2;
    try discriminate H2; try (exfalso; vm_compute in H1; discriminate H1);
    cbv [escape seq WriteByte WriteString]; simpl;
    rewrite <- ?app_assoc; f_equal; f_equal; vm_compute; reflexivity.
Qed.

Lemma plain_verbatim (b : byte) :
  plain_byte b = true -> spec_rendering b = [b].
Proof.
  destruct b as [[] [] [] [] [] [] [] []]; intros H;
    try discriminate H; reflexivity.
Qed.

Lemma nonascii_verbatim (b : byte) :
  nonascii b -> spec_rendering b = [b].
Proof.
  destruct b as [[] [] [] [] [] [] [] []]; intros H; try reflexivity;
    exfalso; apply H; reflexivity.
Qed.

Lemma nonascii_run_verbatim (l : gostring) :
  Forall nonascii l -> flat_map spec_rendering l = l.
Proof.
  induction 1 as [|b l Hb _ IH]; simpl; [reflexivity|].
  now rewrite (nonascii_verbatim b Hb), IH.
Qed.

Lemma string_loop_eq (X : Externals) fuel s i start e :
  string_loop X fuel s i start e =
    if i <? len s then
      match fuel with
      | O => NoReturn
      | S fuel' =>
          let b := index s i in
          if (byte_val b <? RuneSelf)%N then
            if plain_byte b then string_loop X fuel' s (i + 1) start e
            else
              ((if start <? i then WriteString (slice s start i) else skip) ;;
               escape b ;;
               string_loop X fuel' s (i + 1) (i + 1)) e
          else
            let (c, size) := utf8_DecodeRuneInString X (skipn i s) in
            if (c =? RuneError)%Z && (size =? 1) then
              error (InvalidUTF8Error s) e
            else string_loop X fuel' s (i + size) start e
      end
    else
      ((if start <? len s then WriteString (skipn start s) else skip) ;;
       WriteByte quote_byte) e.
Proof. destruct fuel; reflexivity. Qed.

(** The bytes pending between [start] and [i], written at the next flush. *)
Lemma flush_pending (s : gostring) (start i : nat) (e : Buffer) :
  start <= i ->
  (if start <? i then WriteString (slice s start i) else skip) e
  = Done (e ++ slice s start i).
Proof.
  intros H. destruct (start <? i) eqn:E; [reflexivity|].
  apply Nat.ltb_ge in E. assert (start = i) by lia. subst.
  rewrite slice_empty, app_nil_r. reflexivity.
Qed.

Lemma string_loop_Done (X : Externals) :
  decoder_spans_nonascii X ->
  forall fuel s i start e out,
    start <= i ->
    string_loop X fuel s i start e = Done out ->
    out = e ++ slice s start i ++ flat_map spec_rendering (skipn i s)
            ++ [quote_byte].
Proof.
  intros Hspan fuel; induction fuel as [|fuel IH]; intros s i start e out Hle;
    rewrite string_loop_eq; destruct (i <? len s) eqn:Ei.
  - discriminate.
  - apply Nat.ltb_ge in Ei. intros H.
    rewrite (skipn_all2 s Ei), (slice_to_end s start i Hle Ei). simpl.
    unfold seq in H. destruct (start <? len s) eqn:Es.
    + cbv [WriteString WriteByte] in H. inversion H.
      now rewrite <- app_assoc.
    + apply Nat.ltb_ge in Es. cbv [skip WriteByte] in H. inversion H.
      now rewrite (skipn_all2 s Es).
  - apply Nat.ltb_lt in Ei. cbv zeta.
    pose proof (skipn_index s i Ei) as Hsk. set (b := index s i) in *.
    destruct (byte_val b <? RuneSelf)%N eqn:Eb.
    + destruct (plain_byte b) eqn:Ep.
      * intros H. apply IH in H; [|lia]. subst out.
        rewrite (slice_extend s start i 1 Hle), Hsk.
        simpl. rewrite (plain_verbatim b Ep).
        now rewrite <- !app_assoc.
      * unfold seq at 1. rewrite (flush_pending s start i e Hle).
        unfold seq. rewrite escape_spec; [|now apply N.ltb_lt in Eb|exact Ep].
        intros H. apply IH in H; [|lia]. subst out.
        rewrite slice_empty, Hsk. simpl. now rewrite <- !app_assoc.
    + destruct (utf8_DecodeRuneInString X (skipn i s)) as [c size] eqn:Ed.
      destruct ((c =? RuneError)%Z && (size =? 1)); [discriminate|].
      intros H. apply IH in H; [|lia]. subst out.
      rewrite (slice_extend s start i size Hle).
      rewrite (Nat.add_comm i size), <- skipn_skipn.
      rewrite <- (firstn_skipn size (skipn i s)) at 3.
      rewrite flat_map_app.
      rewrite Hsk in Ed. apply N.ltb_ge in Eb.
      pose proof (Hspan b _ c size Eb Ed) as Hrun. rewrite <- Hsk in Hrun.
      rewrite (nonascii_run_verbatim _ Hrun).
      now rewrite <- !app_assoc.
  - apply Nat.ltb_ge in Ei. intros H.
    rewrite (skipn_all2 s Ei), (slice_to_end s start i Hle Ei). simpl.
    unfold seq in H. destruct (start <? len s) eqn:Es.
    + cbv [WriteString WriteByte] in H. inversion H.
      now rewrite <- app_assoc.
    + apply Nat.ltb_ge in Es. cbv [skip WriteByte] in H. inversion H.
      now rewrite (skipn_all2 s Es).
Qed.

Lemma rune_test_false (c : Z) (size : nat) :
  ~ (c = RuneError /\ size = 1) -> (c =? RuneError)%Z && (size =? 1) = false.
Proof.
  intros H. destruct (c =? RuneError)%Z eqn:E1; [|reflexivity].
  destruct (size =? 1) eqn:E2; [|reflexivity].
  exfalso. apply H. split; [now apply Z.eqb_eq|now apply Nat.eqb_eq].
Qed.

Lemma escape_returns (b : byte) (e : Buffer) : exists e', escape b e = Done e'.
Proof.
  unfold escape.
  destruct (byte_eqb b backslash_byte || byte_eqb b quote_byte);
    [|destruct (byte_eqb b (byte_of 10)); [|destruct (byte_eqb b (byte_of 13))]];
    eexists; reflexivity.
Qed.

(** A malformed sequence ahead of the scan makes the loop panic. *)
Lemma string_loop_malformed (X : Externals) :
  decoder_advances X ->
  forall t, Malformed X t ->
  forall fuel s i start e,
    skipn i s = t -> len s - i <= fuel ->
    exists e', string_loop X fuel s i start e = Panic (InvalidUTF8Error s) e'.
Proof.
  intros Hadv t Hm.
  induction Hm as [b r Hb Hd | b r Hb Hm IH | b r c size Hb Hd Hne Hm IH];
    intros fuel s i start e Hsk Hfuel;
    destruct (skipn_cons_inv s i b r Hsk) as (Hi & Hidx & Hrest);
    rewrite string_loop_eq;
    (destruct (i <? len s) eqn:Ei; [|apply Nat.ltb_ge in Ei; lia]);
    (destruct fuel as [|fuel]; [lia|]); cbv zeta; rewrite Hidx.
  - assert (Eb : (byte_val b <? RuneSelf)%N = false) by now apply N.ltb_ge.
    rewrite Eb, Hsk, Hd. simpl. eexists; reflexivity.
  - assert (Eb : (byte_val b <? RuneSelf)%N = true) by now apply N.ltb_lt.
    rewrite Eb. destruct (plain_byte b).
    + apply IH; [exact Hrest|lia].
    + unfold seq at 1.
      destruct (start <? i); cbv [WriteString skip]; unfold seq;
        match goal with
        | |- context [escape b ?x] =>
            destruct (escape_returns b x) as [e2 He2]; rewrite He2
        end; (apply IH; [exact Hrest|lia]).
  - assert (Eb : (byte_val b <? RuneSelf)%N = false) by now apply N.ltb_ge.
    rewrite Eb, Hsk, Hd, (rune_test_false c size Hne).
    assert (1 <= size) by (apply (Hadv (b :: r) c size); [discriminate|exact Hd]).
    apply IH; [|lia].
    now rewrite (Nat.add_comm i size), <- skipn_skipn, Hsk.
Qed.

(** With a decoder that advances, the loop comes back. *)
Lemma string_loop_returns (X : Externals) :
  decoder_advances X ->
  forall fuel s i start e,
    len s - i <= fuel -> string_loop X fuel s i start e <> NoReturn.
Proof.
  intros Hadv fuel; induction fuel as [|fuel IH]; intros s i start e Hfuel;
    rewrite string_loop_eq; destruct (i <? len s) eqn:Ei;
    try (apply Nat.ltb_lt in Ei; lia);
    try (unfold seq; destruct (start <? len s); discriminate).
  apply Nat.ltb_lt in Ei. cbv zeta.
  destruct (byte_val (index s i) <? RuneSelf)%N.
  - destruct (plain_byte (index s i)); [apply IH; lia|].
    unfold seq at 1.
    destruct (start <? i); cbv [WriteString skip]; unfold seq;
      match goal with
      | |- context [escape ?b ?x] =>
          destruct (escape_returns b x) as [e2 He2]; rewrite He2
      end; apply IH; lia.
  - destruct (utf8_DecodeRuneInString X (skipn i s)) as [c size] eqn:Ed.
    destruct ((c =? RuneError)%Z && (size =? 1)); [discriminate|].
    assert (1 <= size).
    { apply (Hadv (skipn i s) c size); [|exact Ed].
      rewrite (skipn_index s i Ei). discriminate. }
    apply IH. lia.
Qed.

Lemma string_returns (X : Externals) (s : gostring) (e : Buffer) :
  decoder_advances X -> string_ X s e <> NoReturn.
Proof.
  intros Hadv. unfold string_, seq, WriteByte.
  apply string_loop_returns; [exact Hadv|lia].
Qed.

Lemma string_malformed (X : Externals) (s : gostring) (e : Buffer) :
  decoder_advances X -> Malformed X s ->
  exists e', string_ X s e = Panic (InvalidUTF8Error s) e'.
Proof.
  intros Hadv Hm. unfold string_, seq, WriteByte.
  apply (string_loop_malformed X Hadv s Hm); [reflexivity|lia].
Qed.



(** What the escaper writes when it returns. *)
Lemma string_Done (X : Externals) (s : gostring) (e out : Buffer) :
  decoder_spans_nonascii X ->
  string_ X s e = Done out ->
  out = e ++ quoted_literal (flat_map spec_rendering s).
Proof.
  intros Hspan H. unfold string_, seq, WriteByte in H.
  apply (string_loop_Done X Hspan) in H; [|lia].
  rewrite slice_empty in H. simpl in H. subst out.
  unfold quoted_literal. rewrite <- app_assoc. reflexivity.
Qed.

(** A string of plain bytes below 0x80 is copied between two quotes, in
    one piece, and the decoder is never asked. *)
Lemma string_loop_plain (X : Externals) (s : gostring) :
  Forall (fun b => plain_ascii b = true) s ->
  forall fuel i start e,
    len s - i <= fuel ->
    string_loop X fuel s i start e = Done (e ++ skipn start s ++ [quote_byte]).
Proof.
  intros Hs fuel; induction fuel as [|fuel IH]; intros i start e Hfuel;
    rewrite string_loop_eq; destruct (i <? len s) eqn:Ei;
    try (apply Nat.ltb_lt in Ei; lia).
  - unfold seq. destruct (start <? len s) eqn:Es; cbv [WriteString WriteByte skip].
    + now rewrite <- app_assoc.
    + apply Nat.ltb_ge in Es. now rewrite (skipn_all2 s Es).
  - apply Nat.ltb_lt in Ei. cbv zeta.
    assert (Hb : plain_ascii (index s i) = true).
    { rewrite Forall_forall in Hs. apply Hs. apply nth_In. exact Ei. }
    apply andb_true_iff in Hb. destruct Hb as [Hp Ha].
    unfold RuneSelf. rewrite Ha, Hp. apply IH. lia.
  - unfold seq. destruct (start <? len s) eqn:Es; cbv [WriteString WriteByte skip].
    + now rewrite <- app_assoc.
    + apply Nat.ltb_ge in Es. now rewrite (skipn_all2 s Es).
Qed.

Lemma string_plain (X : Externals) (s : gostring) (e : Buffer) :
  Forall (fun b => plain_ascii b = true) s ->
  string_ X s e = Done (e ++ quoted_literal s).
Proof.
  intros Hs. unfold string_, seq, WriteByte.
  rewrite (string_loop_plain X s Hs); [|lia].
  unfold quoted_literal. now rewrite <- app_assoc.
Qed.

(** C7. Whenever a string is encoded as a JSON string literal, the literal
    is the string with every byte rendered on its own between two double
    quotes: less-than and greater-than as the escapes u003c and u003e, a byte
    below 0x20, the backslash and the double quote as their JSON escapes
    (letter escapes for line feed and carriage return, u00XX for the other
    control bytes), and every other byte, the ampersand among them, copied
    as it is. *)
Theorem string_literal_rendering :
  forall X s e out,
    decoder_spans_nonascii X ->
    string_ X s e = Done out ->
    out = e ++ quoted_literal (flat_map spec_rendering s).
Proof.
  intros X s e out Hspan H. exact (string_Done X s e out Hspan H).
Qed.

(** The sample decoder meets both requirements. *)

Ltac split_decode H :=
  repeat match type of H with
         | context [if ?c then _ else _] => destruct c eqn:?
         | context [match ?l with [] => _ | _ :: _ => _ end] => destruct l
         end.

Lemma continuation_nonascii (b : byte) :
  negb (Sample.continuation (byte_val b)) = false -> nonascii b.
Proof.
  unfold Sample.continuation, nonascii. intros H.
  apply negb_false_iff, andb_true_iff in H. destruct H as [H _].
  now apply N.leb_le.
Qed.

Lemma sample_decoder_advances : decoder_advances Sample.externals.
Proof.
  intros s c size Hne H. simpl in H. unfold Sample.decode in H.
  destruct s as [|c0 s]; [congruence|].
  split_decode H; inversion H; lia.
Qed.

Lemma sample_decoder_spans_nonascii : decoder_spans_nonascii Sample.externals.
Proof.
  intros b s c size Hb H. simpl in H. unfold Sample.decode in H.
  split_decode H; inversion H; subst; simpl;
    repeat (constructor; try assumption; try (now apply continuation_nonascii)).
Qed.

Lemma string_literal_rendering_witness :
  let s := str "a<b>&c" ++ [byte_of 10; byte_of 9] in
  let out := quoted_literal (str "a\u003cb\u003e&c\n\u0009") in
  decoder_spans_nonascii Sample.externals
  /\ string_ Sample.externals s [] = Done out
  /\ out = [] ++ quoted_literal (flat_map spec_rendering s).
Proof.
  split; [exact sample_decoder_spans_nonascii|]. split; [reflexivity|].
  apply (string_literal_rendering Sample.externals _ [] _
           sample_decoder_spans_nonascii).
  reflexivity.
Defined.

(** ** Equality and order of strings *)

Lemma byte_eqb_eq (a b : byte) : byte_eqb a b = true <-> a = b.
Proof.
  unfold byte_eqb, byte_val. rewrite N.eqb_eq. split; [|now intros ->].
  intros H. rewrite <- (ascii_N_embedding a), <- (ascii_N_embedding b).
  now rewrite H.
Qed.

Lemma gostring_eqb_eq (s t : gostring) : gostring_eqb s t = true <-> s = t.
Proof.
  revert t; induction s as [|a s IH]; intros [|b t]; simpl;
    try (split; [discriminate|discriminate]); try tauto.
  rewrite andb_true_iff, byte_eqb_eq, IH. split.
  - now intros [-> ->].
  - intros H; inversion H; auto.
Qed.

Lemma gostring_eqb_refl (s : gostring) : gostring_eqb s s = true.
Proof. now apply gostring_eqb_eq. Qed.

Lemma gostring_eqb_neq (s t : gostring) : gostring_eqb s t = false <-> s <> t.
Proof.
  rewrite <- gostring_eqb_eq. destruct (gostring_eqb s t); split;
    congruence.
Qed.

(** ** Struct fields *)

Lemma seq_assoc (a b c : M) (e : Buffer) :
  ((a ;; b) ;; c) e = (a ;; b ;; c) e.
Proof. unfold seq. destruct (a e); reflexivity. Qed.

Lemma Contains_In (o : tagOptions) (name : gostring) :
  Contains o name = true <-> In name (tokens o).
Proof.
  unfold Contains. rewrite existsb_exists. split.
  - intros (x & Hin & Heq). apply gostring_eqb_eq in Heq. now subst.
  - intros H. exists name. split; [exact H|apply gostring_eqb_refl].
Qed.

(** The three settings of a field, whether or not its tag is empty. *)
Lemma field_config_eq (X : Externals) (f : StructField) :
  field_config X f =
    (if isValidTag X (fst (parseTag (Tag_json f)))
     then fst (parseTag (Tag_json f)) else Name f,
     Contains (snd (parseTag (Tag_json f))) (str "omitempty"),
     Contains (snd (parseTag (Tag_json f))) (str "string")).
Proof.
  unfold field_config. destruct (Tag_json f) as [|c tv] eqn:E.
  - reflexivity.
  - simpl negb. cbv iota. destruct (parseTag (c :: tv)). reflexivity.
Qed.

Lemma field_omitEmpty_option (X : Externals) (f : StructField) :
  field_omitEmpty X f = true <-> has_option f (str "omitempty").
Proof.
  unfold field_omitEmpty, has_option. rewrite field_config_eq. simpl.
  apply Contains_In.
Qed.

Lemma field_quoted_option (X : Externals) (f : StructField) :
  field_quoted X f = true <-> has_option f (str "string").
Proof.
  unfold field_quoted, has_option. rewrite field_config_eq. simpl.
  apply Contains_In.
Qed.

Lemma isEmptyValue_Empty (v : Value) : isEmptyValue v = true <-> Empty v.
Proof.
  split.
  - destruct v as [|t j x|t j x|t j x|t j x|t j s|t j fs|t j m|t j l|t j l
                    |t j el|t j el|t j]; simpl; try discriminate.
    + destruct x; [discriminate|constructor].
    + intros H. apply Z.eqb_eq in H. subst. constructor.
    + intros H. apply Z.eqb_eq in H. subst. constructor.
    + intros H. now constructor.
    + destruct s; [constructor|discriminate].
    + destruct m as [[|p es]|]; try discriminate; constructor.
    + destruct l; [constructor|discriminate].
    + destruct l; [constructor|discriminate].
    + destruct el; [discriminate|constructor].
    + destruct el; [discriminate|constructor].
  - destruct 1; simpl; auto.
Qed.

(** The struct loop at one field, as its two tests decide. *)
Lemma struct_loop_cons (X : Externals) rv f v rest first (e : Buffer) :
  struct_loop X rv ((f, v) :: rest) first e =
    if negb (gostring_eqb (PkgPath f) []) then struct_loop X rv rest first e
    else if field_omitEmpty X f && isEmptyValue v
         then struct_loop X rv rest first e
         else (emit_field X rv f v first ;; struct_loop X rv rest false) e.
Proof.
  simpl. destruct (negb (gostring_eqb (PkgPath f) [])); [reflexivity|].
  unfold field_omitEmpty, emit_field, field_key, field_quoted.
  destruct (field_config X f) as [[tag omitEmpty] quoted]. simpl.
  destruct (omitEmpty && isEmptyValue v); [reflexivity|].
  unfold seq.
  destruct ((if first then skip else WriteByte comma_byte) e) as [e1| |];
    try reflexivity.
  destruct (string_ X tag e1) as [e2| |]; reflexivity.
Qed.

(** C4. A visible struct field tagged with the omitempty option is skipped,
    leaving neither key nor comma, when its value is empty, and is written
    (comma if needed, key, colon, value) when it is not; empty means a false
    boolean, a zero number, a string, array, slice or map of length zero, a
    nil interface or pointer, and a struct value is never empty. *)
Theorem omitempty_suppresses_empty :
  forall X rv f v rest first,
    PkgPath f = [] ->
    has_option f (str "omitempty") ->
    (Empty v ->
     forall e, struct_loop X rv ((f, v) :: rest) first e
               = struct_loop X rv rest first e)
    /\ (~ Empty v ->
        forall e, struct_loop X rv ((f, v) :: rest) first e
                  = (emit_field X rv f v first ;; struct_loop X rv rest false) e)
    /\ (forall t j fields, ~ Empty (VStruct t j fields)).
Proof.
  intros X rv f v rest first Hpkg Hopt.
  apply (field_omitEmpty_option X) in Hopt.
  repeat split.
  - intros Hv e. apply isEmptyValue_Empty in Hv.
    rewrite struct_loop_cons, Hpkg, Hopt, Hv. reflexivity.
  - intros Hv e. rewrite struct_loop_cons, Hpkg, Hopt. simpl.
    destruct (isEmptyValue v) eqn:E; [|reflexivity].
    exfalso. apply Hv. now apply isEmptyValue_Empty.
  - intros t j fields H. inversion H.
Qed.

Lemma omitempty_suppresses_empty_witness :
  let X := Sample.externals in
  let f := Sample.exported "A" ",omitempty" in
  PkgPath f = []
  /\ has_option f (str "omitempty")
  /\ struct_loop X (reflectValueQuoted X) [(f, Sample.int_ 0)] true []
     = Done []
  /\ struct_loop X (reflectValueQuoted X) [(f, Sample.int_ 5)] true []
     = Done (json "'A':5")
  /\ Marshal X (Sample.struct_ "T"
                  [(Sample.exported "A" ",omitempty", Sample.int_ 0);
                   (Sample.exported "B" ",omitempty", Sample.int_ 0)])
     = Returns (Some (str "{}")) None.
Proof.
  assert (Hopt : has_option (Sample.exported "A" ",omitempty") (str "omitempty"))
    by (left; reflexivity).
  split; [reflexivity|]. split; [exact Hopt|].
  split; [|split; [|reflexivity]].
  - destruct (omitempty_suppresses_empty Sample.externals
                (reflectValueQuoted Sample.externals)
                (Sample.exported "A" ",omitempty") (Sample.int_ 0) [] true
                eq_refl Hopt) as (H & _ & _).
    exact (H (empty_int _ _) []).
  - destruct (omitempty_suppresses_empty Sample.externals
                (reflectValueQuoted Sample.externals)
                (Sample.exported "A" ",omitempty") (Sample.int_ 5) [] true
                eq_refl Hopt) as (_ & H & _).
    rewrite H; [reflexivity|]. intros He. inversion He.
Defined.

(** ** Tag names *)

Lemma rejected_rune_allowed (X : Externals) (c : Z) :
  rejected_rune X c = false <-> allowed X c.
Proof.
  unfold rejected_rune, allowed.
  destruct (Z.eqb_spec c 36), (Z.eqb_spec c 45), (Z.eqb_spec c 95),
    (unicode_IsLetter X c), (unicode_IsDigit X c); simpl;
    intuition (try discriminate; try congruence).
Qed.

Lemma isValidTag_loop_Forall (X : Externals) (rs : list Z) :
  isValidTag_loop X rs = true <-> Forall (allowed X) rs.
Proof.
  induction rs as [|c rs IH]; simpl.
  - split; [constructor|reflexivity].
  - destruct (rejected_rune X c) eqn:E.
    + split; [discriminate|]. intros H. inversion H; subst.
      apply rejected_rune_allowed in H2. congruence.
    + rewrite IH. split.
      * intros H. constructor; [now apply rejected_rune_allowed|exact H].
      * intros H. now inversion H.
Qed.

Lemma isValidTag_spec (X : Externals) (s : gostring) :
  isValidTag X s = true <-> s <> [] /\ Forall (allowed X) (range_runes X s).
Proof.
  unfold isValidTag. destruct s as [|b s]; simpl.
  - split; [discriminate|]. intros [H _]. congruence.
  - rewrite isValidTag_loop_Forall. split; [|tauto].
    intros H. split; [discriminate|exact H].
Qed.

(** C9. The output key of a field is the text before the first comma of its
    tag exactly when that text is non-empty and made only of letters, digits,
    dollar signs, hyphens and underscores, and the name of the field
    otherwise.  Parsing a tag cannot fail: besides the key it yields two
    flags, set exactly when omitempty and string are among the tokens after
    the first comma, so any other token changes nothing.  A field that is not
    skipped is written under that key. *)
Theorem tag_name_override :
  forall X f,
    let prefix := fst (parseTag (Tag_json f)) in
    let opts := snd (parseTag (Tag_json f)) in
    (isValidTag X prefix = true
     <-> prefix <> [] /\ Forall (allowed X) (range_runes X prefix))
    /\ field_key X f = (if isValidTag X prefix then prefix else Name f)
    /\ (field_omitEmpty X f = true <-> In (str "omitempty") (tokens opts))
    /\ (field_quoted X f = true <-> In (str "string") (tokens opts))
    /\ (forall rv v rest first e,
          PkgPath f = [] ->
          field_omitEmpty X f && isEmptyValue v = false ->
          struct_loop X rv ((f, v) :: rest) first e
          = (((if first then skip else WriteByte comma_byte) ;;
              string_ X (field_key X f) ;;
              WriteByte (byte_of 58) ;;
              rv v (field_quoted X f)) ;;
             struct_loop X rv rest false) e).
Proof.
  intros X f prefix opts. split; [apply isValidTag_spec|].
  split; [unfold field_key; rewrite field_config_eq; reflexivity|].
  split; [apply field_omitEmpty_option|].
  split; [apply field_quoted_option|].
  intros rv v rest first e Hpkg Hskip.
  rewrite struct_loop_cons, Hpkg, Hskip. reflexivity.
Qed.

Lemma tag_name_override_witness :
  let X := Sample.externals in
  let f := Sample.exported "Field" "myName,omitempty,unknown" in
  let g := Sample.exported "Field" "my name,omitempty" in
  field_key X f = str "myName"
  /\ field_key X g = str "Field"
  /\ field_omitEmpty X f = true
  /\ field_quoted X f = false
  /\ Marshal X (Sample.struct_ "T" [(f, Sample.int_ 5)])
     = Returns (Some (json "{'myName':5}")) None
  /\ Marshal X (Sample.struct_ "T" [(f, Sample.int_ 0)])
     = Returns (Some (str "{}")) None
  /\ Marshal X (Sample.struct_ "T" [(g, Sample.int_ 5)])
     = Returns (Some (json "{'Field':5}")) None.
Proof.
  destruct (tag_name_override Sample.externals
              (Sample.exported "Field" "myName,omitempty,unknown"))
    as (_ & Hf & _).
  destruct (tag_name_override Sample.externals
              (Sample.exported "Field" "my name,omitempty"))
    as (_ & Hg & _).
  split; [rewrite Hf; reflexivity|].
  split; [rewrite Hg; reflexivity|].
  repeat split; reflexivity.
Defined.

(** ** The string option *)

Lemma reflectValueQuoted_primitive (X : Externals) v quoted text e :
  Value_Marshaler v = None ->
  primitive_text X v = Some text ->
  reflectValueQuoted X v quoted e
  = (if quoted then string_ X text else WriteString text) e.
Proof.
  intros Hj Ht.
  destruct v; simpl in Hj, Ht; try discriminate; subst;
    inversion Ht; subst; simpl;
    try (destruct x); destruct quoted; reflexivity.
Qed.

Lemma digit_plain (k : N) : (k < 10)%N -> plain_ascii (byte_of (48 + k)) = true.
Proof.
  intros H.
  assert (Hk : (k = 0 \/ k = 1 \/ k = 2 \/ k = 3 \/ k = 4 \/ k = 5 \/ k = 6
                \/ k = 7 \/ k = 8 \/ k = 9)%N) by lia.
  repeat (destruct Hk as [->|Hk]; [reflexivity|]). subst k. reflexivity.
Qed.

Lemma decimal_digits_plain (fuel : nat) :
  forall n acc,
    Forall (fun b => plain_ascii b = true) acc ->
    Forall (fun b => plain_ascii b = true) (decimal_digits fuel n acc).
Proof.
  induction fuel as [|fuel IH]; intros n acc Hacc; simpl; [exact Hacc|].
  assert (Hd : plain_ascii (byte_of (48 + n mod 10)) = true)
    by (apply digit_plain, N.mod_lt; discriminate).
  destruct (n <? 10)%N; [|apply IH]; constructor; assumption.
Qed.

Lemma literal_text_plain (v : Value) (text : gostring) :
  literal_text v = Some text -> Forall (fun b => plain_ascii b = true) text.
Proof.
  destruct v; simpl; try discriminate; intros H; inversion H; subst.
  - destruct x; repeat constructor.
  - unfold strconv_Itoa64. destruct (x <? 0)%Z.
    + constructor; [reflexivity|]. apply decimal_digits_plain. constructor.
    + apply decimal_digits_plain. constructor.
  - apply decimal_digits_plain. constructor.
Qed.

Lemma literal_text_primitive (X : Externals) (v : Value) (text : gostring) :
  literal_text v = Some text -> primitive_text X v = Some text.
Proof. destruct v; simpl; intros H; try discriminate; exact H. Qed.

(** C6. A field tagged with the string option is encoded with the quoted
    flag set.  With the flag set, a boolean or a number is written as the
    JSON string literal of the text it is normally written as: true or
    false, or the digit text, between two double quotes.  A string is first
    encoded as a JSON string literal of its own, and that literal, quotes
    included, is escaped and quoted once more; an error of the inner
    encoding is raised unchanged. *)
Theorem string_option_wraps :
  forall X v e,
    Value_Marshaler v = None ->
    decoder_spans_nonascii X ->
    (forall f, has_option f (str "string") -> field_quoted X f = true)
    /\ (forall text,
          primitive_text X v = Some text ->
          reflectValueQuoted X v false e = Done (e ++ text)
          /\ reflectValueQuoted X v true e = string_ X text e)
    /\ (forall text,
          literal_text v = Some text ->
          reflectValueQuoted X v true e = Done (e ++ quoted_literal text))
    /\ (forall t s,
          v = VString t None s ->
          reflectValueQuoted X v false e = string_ X s e
          /\ (forall sb, string_ X s [] = Done sb ->
                         reflectValueQuoted X v true e = string_ X sb e)
          /\ (forall err e', string_ X s [] = Panic err e' ->
                             reflectValueQuoted X v true e = Panic err e)
          /\ (forall out,
                reflectValueQuoted X v true e = Done out ->
                out = e ++ quoted_literal
                            (flat_map spec_rendering
                               (quoted_literal (flat_map spec_rendering s))))).
Proof.
  intros X v e Hj Hspan. split; [intros f; apply field_quoted_option|].
  split; [|split].
  - intros text Ht. split.
    + now rewrite (reflectValueQuoted_primitive X v false text e Hj Ht).
    + now rewrite (reflectValueQuoted_primitive X v true text e Hj Ht).
  - intros text Ht.
    rewrite (reflectValueQuoted_primitive X v true text e Hj
               (literal_text_primitive X v text Ht)).
    apply string_plain. exact (literal_text_plain v text Ht).
  - intros t s ->. split; [reflexivity|]. split; [|split].
    + intros sb H. simpl. unfold Marshal_string. now rewrite H.
    + intros err e' H. simpl. unfold Marshal_string. now rewrite H.
    + intros out. simpl. unfold Marshal_string.
      destruct (string_ X s []) as [sb| |] eqn:Es; try discriminate.
      intros H. apply (string_Done X _ _ _ Hspan) in Es, H.
      simpl in Es. now subst.
Qed.

Lemma string_option_wraps_witness :
  let X := Sample.externals in
  decoder_spans_nonascii X
  /\ Value_Marshaler (Sample.int_ 5) = None
  /\ reflectValueQuoted X (Sample.int_ 5) false [] = Done (str "5")
  /\ reflectValueQuoted X (Sample.int_ 5) true [] = Done (json "'5'")
  /\ Marshal X (Sample.struct_ "T"
                  [(Sample.exported "N" ",string", Sample.int_ 5)])
     = Returns (Some (json "{'N':'5'}")) None.
Proof.
  destruct (string_option_wraps Sample.externals (Sample.int_ 5) [] eq_refl
              sample_decoder_spans_nonascii) as (_ & H & H' & _).
  destruct (H (str "5") eq_refl) as [H1 _].
  split; [exact sample_decoder_spans_nonascii|].
  split; [reflexivity|]. split; [exact H1|].
  split; [exact (H' (str "5") eq_refl)|reflexivity].
Defined.

(** ** Byte slices *)

Lemma rtype_eqb_refl (t : rtype) : rtype_eqb t t = true.
Proof. unfold rtype_eqb. destruct (rtype_eq_dec t t); congruence. Qed.

Lemma rtype_eqb_eq (t u : rtype) : rtype_eqb t u = true <-> t = u.
Proof.
  unfold rtype_eqb. destruct (rtype_eq_dec t u); split; congruence.
Qed.

(** The value of type [[]byte] that holds the bytes [bs]. *)
Lemma Interface_bytes_of_bytes (bs : list byte) :
  Interface_bytes
    (map (fun b => VUint (Basic Uint8) None (Z.of_N (byte_val b))) bs)
  = Some bs.
Proof.
  induction bs as [|b bs IH]; simpl; [reflexivity|].
  rewrite IH, N2Z.id. unfold byte_of, byte_val.
  now rewrite ascii_N_embedding.
Qed.

(** C5, as amended. A slice whose type is exactly the byte-slice type
    encodes as a JSON string literal holding the base64 text of its bytes
    (the two bytes h, i give aGk=); an array or a slice of any other type,
    whatever its elements, encodes as a JSON array, bracket to bracket. *)
Theorem byte_slice_is_base64 :
  forall X quoted e,
    (forall bs,
       reflectValueQuoted X
         (VSlice byteSliceType None
            (map (fun b => VUint (Basic Uint8) None (Z.of_N (byte_val b))) bs))
         quoted e
       = Done (e ++ quoted_literal (base64_Encode bs)))
    /\ base64_Encode (str "hi") = str "aGk="
    /\ (forall t elems,
          rtype_eqb t byteSliceType = false ->
          reflectValueQuoted X (VSlice t None elems) quoted e
          = (WriteByte (byte_of 91) ;;
             array_loop (reflectValueQuoted X) elems 0 ;;
             WriteByte (byte_of 93)) e
          /\ reflectValueQuoted X (VArray t None elems) quoted e
             = (WriteByte (byte_of 91) ;;
                array_loop (reflectValueQuoted X) elems 0 ;;
                WriteByte (byte_of 93)) e).
Proof.
  intros X quoted e. split; [|split; [reflexivity|]].
  - intros bs. simpl. unfold encode_sequence.
    rewrite rtype_eqb_refl, Interface_bytes_of_bytes.
    destruct (len bs <? 1024);
      unfold seq, WriteByte, Write, quoted_literal;
      rewrite <- !app_assoc; reflexivity.
  - intros t elems Ht. split; simpl; unfold encode_sequence; rewrite Ht;
      reflexivity.
Qed.

Lemma byte_slice_is_base64_witness :
  let X := Sample.externals in
  let hi := [Sample.uint8_ 104; Sample.uint8_ 105] in
  let named := Named (str "Bytes") byteSliceType in
  reflectValueQuoted X (VSlice byteSliceType None hi) false []
  = Done (json "'aGk='")
  /\ rtype_eqb named byteSliceType = false
  /\ reflectValueQuoted X (VSlice named None hi) false []
     = Done (str "[104,105]").
Proof.
  destruct (byte_slice_is_base64 Sample.externals false [])
    as (Hb & _ & Ht).
  split; [exact (Hb (str "hi"))|]. split; [reflexivity|].
  destruct (Ht (Named (str "Bytes") byteSliceType)
              [Sample.uint8_ 104; Sample.uint8_ 105] eq_refl) as [Hs _].
  rewrite Hs. reflexivity.
Defined.

(** C5, as stated, fails: an array of two bytes is a sequence whose elements
    are raw bytes, and it encodes as a JSON array of integers. *)
Lemma byte_array_is_not_base64 :
  Marshal Sample.externals
    (VArray (ArrayOf 2 (Basic Uint8)) None [Sample.uint8_ 104; Sample.uint8_ 105])
  = Returns (Some (str "[104,105]")) None
  /\ str "[104,105]" <> quoted_literal (base64_Encode (str "hi")).
Proof. split; [vm_compute; reflexivity|discriminate]. Qed.

(** ** The encoder only appends *)

Lemma map_loop_cons (X : Externals) rv es k rest i e :
  map_loop X rv es (k :: rest) i e
  = ((if 0 <? i then WriteByte comma_byte else skip) ;;
     string_ X k ;;
     WriteByte (byte_of 58) ;;
     reflectValue_MapIndex rv es k ;;
     map_loop X rv es rest (i + 1)) e.
Proof. reflexivity. Qed.

Lemma reflectValueQuoted_struct (X : Externals) t fields quoted e :
  reflectValueQuoted X (VStruct t None fields) quoted e
  = (WriteByte (byte_of 123) ;;
     struct_loop X (reflectValueQuoted X) fields true ;;
     WriteByte (byte_of 125)) e.
Proof. reflexivity. Qed.

Lemma appends_seq (a b : M) : appends a -> appends b -> appends (a ;; b).
Proof.
  intros Ha Hb e out. unfold seq. destruct (a e) as [e1| |] eqn:E; try discriminate.
  intros H. destruct (Ha e e1 E) as [w1 ->]. destruct (Hb _ _ H) as [w2 ->].
  exists (w1 ++ w2). now rewrite app_assoc.
Qed.

Lemma appends_skip : appends skip.
Proof. intros e out H. inversion H. exists []. now rewrite app_nil_r. Qed.

Lemma appends_WriteString (s : gostring) : appends (WriteString s).
Proof. intros e out H. inversion H. now exists s. Qed.

Lemma appends_WriteByte (c : byte) : appends (WriteByte c).
Proof. intros e out H. inversion H. now exists [c]. Qed.

Lemma appends_error (err : os_Error) : appends (error err).
Proof. intros e out H. discriminate H. Qed.

Lemma appends_escape (b : byte) : appends (escape b).
Proof.
  unfold escape.
  destruct (byte_eqb b backslash_byte || byte_eqb b quote_byte);
    [|destruct (byte_eqb b (byte_of 10)); [|destruct (byte_eqb b (byte_of 13))]];
    repeat apply appends_seq; try apply appends_WriteByte;
    apply appends_WriteString.
Qed.

Lemma appends_string_loop (X : Externals) :
  forall fuel s i start, appends (string_loop X fuel s i start).
Proof.
  intros fuel; induction fuel as [|fuel IH]; intros s i start e out;
    rewrite string_loop_eq; destruct (i <? len s) eqn:Ei; try discriminate.
  - apply (appends_seq _ _); [|apply appends_WriteByte].
    destruct (start <? len s); [apply appends_WriteString|apply appends_skip].
  - cbv zeta. destruct (byte_val (index s i) <? RuneSelf)%N.
    + destruct (plain_byte (index s i)); [apply IH|].
      apply (appends_seq _ _); [|apply appends_seq; [apply appends_escape|]].
      * destruct (start <? i); [apply appends_WriteString|apply appends_skip].
      * intros e0 out0. apply IH.
    + destruct (utf8_DecodeRuneInString X (skipn i s)) as [c size].
      destruct ((c =? RuneError)%Z && (size =? 1)); [discriminate|apply IH].
  - apply (appends_seq _ _); [|apply appends_WriteByte].
    destruct (start <? len s); [apply appends_WriteString|apply appends_skip].
Qed.

Lemma appends_string (X : Externals) (s : gostring) : appends (string_ X s).
Proof.
  unfold string_. apply appends_seq; [apply appends_WriteByte|].
  intros e out. apply appends_string_loop.
Qed.

Lemma appends_struct_loop (X : Externals) (rv : Value -> bool -> M) fields :
  Forall (fun p => forall q, appends (rv (snd p) q)) fields ->
  forall first, appends (struct_loop X rv fields first).
Proof.
  induction 1 as [|[f v] fields Hv _ IH]; intros first; [apply appends_skip|].
  intros e out. rewrite struct_loop_cons.
  destruct (negb (gostring_eqb (PkgPath f) [])); [apply IH|].
  destruct (field_omitEmpty X f && isEmptyValue v); [apply IH|].
  simpl in Hv. apply (appends_seq _ _); [|apply IH].
  unfold emit_field. apply appends_seq; [|apply appends_seq; [|apply appends_seq]].
  - destruct first; [apply appends_skip|apply appends_WriteByte].
  - apply appends_string.
  - apply appends_WriteByte.
  - apply Hv.
Qed.

Lemma appends_array_loop (rv : Value -> bool -> M) elems :
  Forall (fun x => forall q, appends (rv x q)) elems ->
  forall i, appends (array_loop rv elems i).
Proof.
  induction 1 as [|x elems Hx _ IH]; intros i; [apply appends_skip|].
  simpl. apply appends_seq; [|apply appends_seq].
  - destruct (0 <? i); [apply appends_WriteByte|apply appends_skip].
  - apply Hx.
  - apply IH.
Qed.

Lemma appends_MapIndex (rv : Value -> bool -> M) es :
  Forall (fun p => forall q, appends (rv (snd p) q)) es ->
  forall k, appends (reflectValue_MapIndex rv es k).
Proof.
  induction 1 as [|[k' x] es Hx _ IH]; intros k; simpl;
    [apply appends_WriteString|].
  destruct (gostring_eqb k' k); [apply Hx|apply IH].
Qed.

Lemma appends_map_loop (X : Externals) (rv : Value -> bool -> M) es :
  Forall (fun p => forall q, appends (rv (snd p) q)) es ->
  forall sv i, appends (map_loop X rv es sv i).
Proof.
  intros Hes sv; induction sv as [|k sv IH]; intros i; [apply appends_skip|].
  simpl. apply appends_seq; [|apply appends_seq; [|apply appends_seq;
                                                   [|apply appends_seq]]].
  - destruct (0 <? i); [apply appends_WriteByte|apply appends_skip].
  - apply appends_string.
  - apply appends_WriteByte.
  - apply appends_MapIndex. exact Hes.
  - apply IH.
Qed.

Lemma appends_call_Marshaler (X : Externals) t b err :
  appends (call_Marshaler X t b err).
Proof.
  intros e out. unfold call_Marshaler, Compact.
  destruct err; [discriminate|].
  destruct (Compact_bytes X b) as [w|x]; [|discriminate].
  intros H. inversion H. now exists w.
Qed.

Lemma appends_encode_sequence (rv : Value -> bool -> M) t elems :
  Forall (fun x => forall q, appends (rv x q)) elems ->
  appends (encode_sequence rv t elems).
Proof.
  intros H. unfold encode_sequence. destruct (rtype_eqb t byteSliceType).
  - apply appends_seq; [apply appends_WriteByte|].
    apply appends_seq; [|apply appends_WriteByte].
    destruct (Interface_bytes elems) as [s|]; [|intros e out; discriminate].
    destruct (len s <? 1024); apply appends_WriteString.
  - apply appends_seq; [apply appends_WriteByte|].
    apply appends_seq; [|apply appends_WriteByte].
    apply appends_array_loop. exact H.
Qed.

(** The encoder only appends to its buffer. *)
Lemma appends_reflectValueQuoted (X : Externals) (v : Value) :
  forall quoted, appends (reflectValueQuoted X v quoted).
Proof.
  induction v using Value_induction; intros quoted;
    try (destruct j as [[b err]|]; [apply appends_call_Marshaler|]);
    simpl.
  - apply appends_WriteString.
  - destruct x, quoted; try apply appends_string; apply appends_WriteString.
  - destruct quoted; [apply appends_string|apply appends_WriteString].
  - destruct quoted; [apply appends_string|apply appends_WriteString].
  - destruct quoted; [apply appends_string|apply appends_WriteString].
  - destruct quoted; [|apply appends_string].
    destruct (Marshal_string X s) as [sb [err|]|];
      [apply appends_error|apply appends_string|intros e out; discriminate].
  - apply appends_seq; [apply appends_WriteByte|].
    apply appends_seq; [|apply appends_WriteByte].
    apply appends_struct_loop. assumption.
  - destruct (negb (Kind_eqb (rtype_Kind (rtype_Key t)) String));
      [apply appends_error|apply appends_WriteString].
  - destruct (negb (Kind_eqb (rtype_Kind (rtype_Key t)) String));
      [apply appends_error|].
    apply appends_seq; [apply appends_WriteByte|].
    apply appends_seq; [|apply appends_WriteByte].
    apply appends_map_loop. assumption.
  - apply appends_encode_sequence. assumption.
  - apply appends_encode_sequence. assumption.
  - apply appends_WriteString.
  - apply IHv.
  - apply appends_WriteString.
  - apply IHv.
  - apply appends_error.
Qed.

Lemma map_loop_Done (X : Externals) (rv : Value -> bool -> M) es :
  decoder_spans_nonascii X ->
  (forall k, appends (reflectValue_MapIndex rv es k)) ->
  forall ks i e out,
    map_loop X rv es ks i e = Done out ->
    exists ws,
      List.length ws = List.length ks
      /\ out = e ++ members_text (combine ks ws) i.
Proof.
  intros Hspan Hval ks; induction ks as [|k ks IH]; intros i e out.
  - intros H. inversion H. exists []. split; [reflexivity|].
    simpl. now rewrite app_nil_r.
  - rewrite map_loop_cons. unfold seq.
    destruct ((if 0 <? i then WriteByte comma_byte else skip) e) as [e1| |] eqn:E1;
      try discriminate.
    destruct (string_ X k e1) as [e2| |] eqn:E2; try discriminate.
    apply (string_Done X _ _ _ Hspan) in E2.
    cbv [WriteByte].
    destruct (reflectValue_MapIndex rv es k (e2 ++ [byte_of 58])) as [e3| |] eqn:E3;
      try discriminate.
    destruct (Hval k _ _ E3) as [w ->].
    intros H. destruct (IH _ _ _ H) as (ws & Hlen & ->).
    exists (w :: ws). split; [simpl; now rewrite Hlen|].
    subst e2. simpl combine. simpl members_text. unfold member_text.
    destruct (0 <? i); cbv [WriteByte skip] in E1; inversion E1; subst;
      rewrite <- ?app_assoc; simpl; rewrite <- ?app_assoc; reflexivity.
Qed.

(** ** Maps: the order of the keys *)

Lemma byte_val_inj (a b : byte) : byte_val a = byte_val b -> a = b.
Proof.
  unfold byte_val. intros H.
  rewrite <- (ascii_N_embedding a), <- (ascii_N_embedding b). now rewrite H.
Qed.

(** The built-in comparison is the lexicographic order. *)
Lemma gostring_ltb_lex (a b : gostring) : gostring_ltb a b = true <-> lex_lt a b.
Proof.
  split.
  - revert b; induction a as [|x a IH]; intros [|y b]; simpl;
      try discriminate; [constructor|].
    destruct (N.ltb_spec (byte_val x) (byte_val y)) as [Hlt|Hge].
    + intros _. now constructor.
    + destruct (N.ltb_spec (byte_val y) (byte_val x)) as [Hlt'|Hge'];
        [discriminate|].
      intros H. assert (x = y) by (apply byte_val_inj; lia). subst y.
      apply lex_tail. now apply IH.
  - induction 1 as [b t|x s y t Hlt|x s t _ IH]; simpl.
    + reflexivity.
    + apply N.ltb_lt in Hlt. now rewrite Hlt.
    + now rewrite N.ltb_irrefl.
Qed.

Lemma sorted_lex (l : stringValues) :
  StronglySorted key_lt l -> StronglySorted lex_lt l.
Proof.
  induction 1 as [|a l _ IH Ha]; constructor; [exact IH|].
  eapply Forall_impl; [|exact Ha]. intros b. apply gostring_ltb_lex.
Qed.

Lemma gostring_ltb_irrefl (a : gostring) : gostring_ltb a a = false.
Proof.
  induction a as [|x a IH]; simpl; [reflexivity|].
  now rewrite N.ltb_irrefl.
Qed.

Lemma gostring_ltb_trans (a b c : gostring) :
  gostring_ltb a b = true -> gostring_ltb b c = true ->
  gostring_ltb a c = true.
Proof.
  revert b c; induction a as [|x a IH]; intros [|y b] [|z c]; simpl;
    try discriminate; try reflexivity.
  destruct (N.ltb_spec (byte_val x) (byte_val y)),
           (N.ltb_spec (byte_val y) (byte_val x)),
           (N.ltb_spec (byte_val y) (byte_val z)),
           (N.ltb_spec (byte_val z) (byte_val y)),
           (N.ltb_spec (byte_val x) (byte_val z)),
           (N.ltb_spec (byte_val z) (byte_val x));
    try discriminate; try reflexivity; try lia.
  apply IH.
Qed.

Lemma gostring_ltb_antisym (a b : gostring) :
  gostring_ltb a b = false -> gostring_ltb b a = false -> a = b.
Proof.
  revert b; induction a as [|x a IH]; intros [|y b]; simpl;
    try discriminate; try reflexivity.
  destruct (N.ltb_spec (byte_val x) (byte_val y)),
           (N.ltb_spec (byte_val y) (byte_val x));
    try discriminate; try lia.
  intros H1 H2. f_equal; [apply byte_val_inj; lia|now apply IH].
Qed.

Lemma gostring_ltb_asym (a b : gostring) :
  gostring_ltb a b = true -> gostring_ltb b a = false.
Proof.
  intros H. destruct (gostring_ltb b a) eqn:E; [|reflexivity].
  pose proof (gostring_ltb_trans a b a H E) as H'.
  rewrite gostring_ltb_irrefl in H'. discriminate.
Qed.

Lemma key_le_trans (a b c : gostring) : key_le a b -> key_le b c -> key_le a c.
Proof.
  unfold key_le. intros H1 H2.
  destruct (gostring_ltb c a) eqn:E; [|reflexivity].
  destruct (gostring_ltb a b) eqn:E'.
  - rewrite (gostring_ltb_trans c a b E E') in H2. discriminate.
  - rewrite (gostring_ltb_antisym a b E' H1) in E. congruence.
Qed.

(** Two sorted arrangements of the same keys are equal, so the result of
    sorting does not depend on the sorting algorithm. *)
Lemma sorted_perm_unique (l l' : stringValues) :
  StronglySorted key_le l -> StronglySorted key_le l' ->
  Permutation l l' -> l = l'.
Proof.
  intros Hl; revert l'; induction Hl as [|a l Hs IH Ha]; intros l' Hl' Hp.
  - now apply Permutation_nil in Hp.
  - destruct Hl' as [|a' l' Hs' Ha'].
    + apply Permutation_sym, Permutation_nil in Hp. discriminate.
    + assert (a = a').
      { rewrite Forall_forall in Ha, Ha'.
        assert (Hin : In a (a' :: l'))
          by (apply (Permutation_in _ Hp); now left).
        assert (Hin' : In a' (a :: l))
          by (apply (Permutation_in _ (Permutation_sym Hp)); now left).
        destruct Hin as [->|Hin]; [reflexivity|].
        destruct Hin' as [->|Hin']; [reflexivity|].
        apply gostring_ltb_antisym.
        - exact (Ha' a Hin).
        - exact (Ha a' Hin'). }
      subst a'. f_equal. apply IH; [exact Hs'|].
      now apply Permutation_cons_inv in Hp.
Qed.

Lemma sorted_strict (l : stringValues) :
  NoDup l -> StronglySorted key_le l -> StronglySorted key_lt l.
Proof.
  intros Hn Hs; induction Hs as [|a l Hs IH Ha]; [constructor|].
  inversion Hn as [|? ? Hnotin Hn']; subst.
  constructor; [now apply IH|].
  rewrite Forall_forall in Ha |- *. intros y Hy.
  unfold key_lt. destruct (gostring_ltb a y) eqn:E; [reflexivity|].
  exfalso. apply Hnotin.
  rewrite (gostring_ltb_antisym a y E (Ha y Hy)). exact Hy.
Qed.

(** The two ways to say that a slice of keys is in order. *)
Lemma Less_sorted (l : stringValues) :
  (forall i j, i < j -> j < List.length l -> stringValues_Less l j i = false) ->
  StronglySorted key_le l.
Proof.
  induction l as [|a l IH]; intros H; [constructor|].
  constructor.
  - apply IH. intros i j Hij Hj.
    apply (H (S i) (S j)); simpl; lia.
  - rewrite Forall_forall. intros y Hy.
    destruct (In_nth l y [] Hy) as (n & Hn & <-).
    apply (H 0 (S n)); simpl; lia.
Qed.

Lemma sorted_Less (l : stringValues) :
  StronglySorted key_le l ->
  forall i j, i < j -> j < List.length l -> stringValues_Less l j i = false.
Proof.
  unfold stringValues_Less, stringValues_get.
  induction 1 as [|a l Hs IH Ha]; intros i j Hij Hj; simpl in Hj; [lia|].
  destruct j as [|j]; [lia|]. destruct i as [|i]; simpl.
  - rewrite Forall_forall in Ha. apply Ha. apply nth_In. lia.
  - apply IH; lia.
Qed.

Lemma sort_Sort_perm (X : Externals) (sv : stringValues) :
  sorts_by_Less X -> Permutation (sort_Sort X sv) sv.
Proof. intros H. apply H. Qed.

Lemma sort_Sort_sorted (X : Externals) (sv : stringValues) :
  sorts_by_Less X -> StronglySorted key_le (sort_Sort X sv).
Proof.
  intros H. destruct (H sv) as [Hp Hless]. apply Less_sorted.
  intros i j Hij Hj. apply Hless; [exact Hij|].
  now rewrite <- (Permutation_length Hp).
Qed.

(** The sorted slice is the same for every order of the keys given. *)
Lemma sort_Sort_perm_eq (X : Externals) (l l' : stringValues) :
  sorts_by_Less X -> Permutation l l' -> sort_Sort X l = sort_Sort X l'.
Proof.
  intros H Hp. apply sorted_perm_unique; try (apply sort_Sort_sorted; exact H).
  rewrite !(sort_Sort_perm X _ H). exact Hp.
Qed.

(** Sorting by insertion does what is required of [sort.Sort]. *)

Lemma sample_insert_perm (k : gostring) (sv : stringValues) :
  Permutation (Sample.insert k sv) (k :: sv).
Proof.
  induction sv as [|x sv IH]; simpl; [reflexivity|].
  destruct (gostring_ltb k x); [reflexivity|].
  rewrite IH. apply perm_swap.
Qed.

Lemma sample_sort_perm (sv : stringValues) : Permutation (Sample.sort sv) sv.
Proof.
  induction sv as [|k sv IH]; simpl; [reflexivity|].
  rewrite sample_insert_perm. now constructor.
Qed.

Lemma sample_insert_sorted (k : gostring) (sv : stringValues) :
  StronglySorted key_le sv -> StronglySorted key_le (Sample.insert k sv).
Proof.
  induction 1 as [|x sv Hs IH Hx]; simpl.
  - constructor; constructor.
  - destruct (gostring_ltb k x) eqn:E.
    + constructor; [constructor; assumption|].
      assert (Hkx : key_le k x) by (apply gostring_ltb_asym; exact E).
      constructor; [exact Hkx|].
      eapply Forall_impl; [|exact Hx].
      intros y Hy. exact (key_le_trans k x y Hkx Hy).
    + constructor; [exact IH|].
      rewrite Forall_forall. intros y Hy.
      apply (Permutation_in _ (sample_insert_perm k sv)) in Hy.
      destruct Hy as [<-|Hy]; [exact E|].
      rewrite Forall_forall in Hx. now apply Hx.
Qed.

Lemma sample_sort_sorted (sv : stringValues) :
  StronglySorted key_le (Sample.sort sv).
Proof.
  induction sv as [|k sv IH]; simpl; [constructor|].
  now apply sample_insert_sorted.
Qed.

Lemma sample_sorts_by_Less : sorts_by_Less Sample.externals.
Proof.
  intros sv. split; [apply sample_sort_perm|].
  intros i j Hij Hj. apply sorted_Less; [apply sample_sort_sorted|exact Hij|].
  simpl. now rewrite (Permutation_length (sample_sort_perm sv)).
Qed.

Lemma MapIndex_perm (rv : Value -> bool -> M) (es es' : list (gostring * Value)) :
  NoDup (MapKeys es) -> Permutation es es' ->
  forall k e, reflectValue_MapIndex rv es k e = reflectValue_MapIndex rv es' k e.
Proof.
  intros Hn Hp; induction Hp as [|[k1 x1] es es' Hp IH
                                 |[k1 x1] [k2 x2] es|es es' es'' Hp1 IH1 Hp2 IH2];
    intros k e.
  - reflexivity.
  - simpl. destruct (gostring_eqb k1 k); [reflexivity|].
    apply IH. simpl in Hn. now inversion Hn.
  - simpl. destruct (gostring_eqb k2 k) eqn:E2, (gostring_eqb k1 k) eqn:E1;
      try reflexivity.
    apply gostring_eqb_eq in E1, E2. subst.
    simpl in Hn. inversion Hn as [|? ? Hnotin _]. exfalso. apply Hnotin.
    now left.
  - rewrite IH1; [|exact Hn]. apply IH2.
    unfold MapKeys in *.
    apply (Permutation_NoDup (Permutation_map fst Hp1) Hn).
Qed.

Lemma map_loop_perm (X : Externals) (rv : Value -> bool -> M)
    (es es' : list (gostring * Value)) :
  NoDup (MapKeys es) -> Permutation es es' ->
  forall sv i e, map_loop X rv es sv i e = map_loop X rv es' sv i e.
Proof.
  intros Hn Hp sv; induction sv as [|k sv IH]; intros i e; [reflexivity|].
  simpl. unfold seq.
  destruct ((if 0 <? i then WriteByte comma_byte else skip) e) as [e1| |];
    try reflexivity.
  destruct (string_ X k e1) as [e2| |]; try reflexivity.
  cbv [WriteByte]. rewrite (MapIndex_perm rv es es' Hn Hp).
  match goal with
  | |- context [reflectValue_MapIndex rv es' k ?b] =>
      destruct (reflectValue_MapIndex rv es' k b); try reflexivity
  end.
  apply IH.
Qed.

Lemma reflectValueQuoted_map (X : Externals) t es quoted e :
  rtype_Kind (rtype_Key t) = String ->
  reflectValueQuoted X (VMap t None (Some es)) quoted e
  = (WriteByte (byte_of 123) ;;
     map_loop X (reflectValueQuoted X) es (sort_Sort X (MapKeys es)) 0 ;;
     WriteByte (byte_of 125)) e.
Proof. intros H. simpl. rewrite H. reflexivity. Qed.

(** C1. A map with string-like keys encodes as an object that runs through
    its keys in strictly ascending byte-wise order, each key once: when the
    encoding succeeds its bytes are an opening brace, one member per key in
    that order, commas between the members, and a closing brace.  The
    output is the same for every order in which the storage of the map
    yields its entries.  [sort.Sort] is required to sort by [Less]. *)
Theorem map_keys_sorted :
  forall X t es es' quoted e,
    sorts_by_Less X ->
    rtype_Kind (rtype_Key t) = String ->
    NoDup (MapKeys es) ->
    Permutation es es' ->
    reflectValueQuoted X (VMap t None (Some es')) quoted e
    = reflectValueQuoted X (VMap t None (Some es)) quoted e
    /\ exists ks,
         Permutation ks (MapKeys es)
         /\ StronglySorted lex_lt ks
         /\ reflectValueQuoted X (VMap t None (Some es)) quoted e
            = (WriteByte (byte_of 123) ;;
               map_loop X (reflectValueQuoted X) es ks 0 ;;
               WriteByte (byte_of 125)) e
         /\ (decoder_spans_nonascii X ->
             forall out,
               reflectValueQuoted X (VMap t None (Some es)) quoted e = Done out ->
               exists ws,
                 List.length ws = List.length ks
                 /\ out = e ++ object_text (combine ks ws)).
Proof.
  intros X t es es' quoted e Hsort Hk Hn Hp. split.
  - rewrite !reflectValueQuoted_map by exact Hk.
    rewrite (sort_Sort_perm_eq X (MapKeys es') (MapKeys es) Hsort)
      by (apply Permutation_sym, Permutation_map, Hp).
    unfold seq. cbv [WriteByte].
    rewrite (map_loop_perm X _ es es' Hn Hp). reflexivity.
  - exists (sort_Sort X (MapKeys es)).
    split; [apply sort_Sort_perm; exact Hsort|]. split; [|split].
    + apply sorted_lex, sorted_strict; [|apply sort_Sort_sorted; exact Hsort].
      apply (Permutation_NoDup (Permutation_sym (sort_Sort_perm X _ Hsort)) Hn).
    + apply reflectValueQuoted_map. exact Hk.
    + intros Hspan out. rewrite (reflectValueQuoted_map X t es quoted e Hk).
      unfold seq at 1. cbv [WriteByte]. unfold seq.
      destruct (map_loop X (reflectValueQuoted X) es
                  (sort_Sort X (MapKeys es)) 0 (e ++ [byte_of 123]))
        as [e1| |] eqn:E; try discriminate.
      intros H. inversion H; subst out. clear H.
      apply (map_loop_Done X _ es Hspan) in E.
      * destruct E as (ws & Hlen & ->). exists ws. split; [exact Hlen|].
        unfold object_text. rewrite <- !app_assoc. reflexivity.
      * intros k. apply appends_MapIndex.
        rewrite Forall_forall. intros p _ q.
        apply appends_reflectValueQuoted.
Qed.

Lemma map_keys_sorted_witness :
  let X := Sample.externals in
  let es := [(str "b", Sample.int_ 1); (str "a", Sample.int_ 2)] in
  let es' := [(str "a", Sample.int_ 2); (str "b", Sample.int_ 1)] in
  let t := MapOf (Basic String) (Basic Int) in
  sorts_by_Less X
  /\ Marshal X (VMap t None (Some es))
     = Returns (Some (json "{'a':2,'b':1}")) None
  /\ reflectValueQuoted X (VMap t None (Some es')) false []
     = reflectValueQuoted X (VMap t None (Some es)) false [].
Proof.
  split; [exact sample_sorts_by_Less|]. split; [reflexivity|].
  refine (proj1 (map_keys_sorted Sample.externals
                   (MapOf (Basic String) (Basic Int))
                   [(str "b", Sample.int_ 1); (str "a", Sample.int_ 2)]
                   [(str "a", Sample.int_ 2); (str "b", Sample.int_ 1)]
                   false [] sample_sorts_by_Less eq_refl _ _)).
  - repeat constructor; simpl; intuition discriminate.
  - apply perm_swap.
Defined.

(** ** The first failure *)

Lemma array_loop_app (rv : Value -> bool -> M) (pre l : list Value) :
  forall i e,
    array_loop rv (pre ++ l) i e =
      match array_loop rv pre i e with
      | Done e1 => array_loop rv l (i + List.length pre) e1
      | Panic err p => Panic err p
      | NoReturn => NoReturn
      end.
Proof.
  induction pre as [|x pre IH]; intros i e; simpl.
  - now rewrite Nat.add_0_r.
  - unfold seq.
    destruct ((if 0 <? i then WriteByte comma_byte else skip) e) as [e1| |];
      try reflexivity.
    destruct (rv x false e1) as [e2| |]; try reflexivity.
    rewrite IH. now replace (i + 1 + List.length pre) with (i + S (List.length pre)) by lia.
Qed.

Lemma map_loop_app (X : Externals) (rv : Value -> bool -> M)
    (es : list (gostring * Value)) (pre l : stringValues) :
  forall i e,
    map_loop X rv es (pre ++ l) i e =
      match map_loop X rv es pre i e with
      | Done e1 => map_loop X rv es l (i + List.length pre) e1
      | Panic err p => Panic err p
      | NoReturn => NoReturn
      end.
Proof.
  induction pre as [|k pre IH]; intros i e; simpl.
  - now rewrite Nat.add_0_r.
  - unfold seq.
    destruct ((if 0 <? i then WriteByte comma_byte else skip) e) as [e1| |];
      try reflexivity.
    destruct (string_ X k e1) as [e2| |]; try reflexivity.
    cbv [WriteByte].
    match goal with
    | |- context [reflectValue_MapIndex rv es k ?b] =>
        destruct (reflectValue_MapIndex rv es k b); try reflexivity
    end.
    rewrite IH. now replace (i + 1 + List.length pre) with (i + S (List.length pre)) by lia.
Qed.

Lemma struct_loop_skip (X : Externals) rv f v rest first e :
  skipped X f v = true ->
  struct_loop X rv ((f, v) :: rest) first e = struct_loop X rv rest first e.
Proof.
  unfold skipped. intros H. rewrite struct_loop_cons.
  destruct (negb (gostring_eqb (PkgPath f) [])); [reflexivity|].
  simpl in H. now rewrite H.
Qed.

Lemma struct_loop_emit (X : Externals) rv f v rest first e :
  skipped X f v = false ->
  struct_loop X rv ((f, v) :: rest) first e
  = (emit_field X rv f v first ;; struct_loop X rv rest false) e.
Proof.
  unfold skipped. intros H. rewrite struct_loop_cons.
  apply orb_false_iff in H. destruct H as [H1 H2]. now rewrite H1, H2.
Qed.

(** The fields that the struct case passes over leave no trace: the output
    is that of the struct without them. *)
Lemma skipped_fields_leave_no_trace (X : Externals) t fields quoted e :
  reflectValueQuoted X (VStruct t None fields) quoted e
  = reflectValueQuoted X
      (VStruct t None
         (filter (fun p => negb (skipped X (fst p) (snd p))) fields))
      quoted e.
Proof.
  rewrite !reflectValueQuoted_struct. unfold seq at 1 3. cbv [WriteByte].
  unfold seq. generalize (e ++ [byte_of 123]) as e0.
  generalize true as first.
  induction fields as [|[f v] fields IH]; intros first e0; [reflexivity|].
  simpl filter. destruct (skipped X f v) eqn:Es; simpl negb; cbv iota.
  - rewrite (struct_loop_skip X _ f v fields first e0 Es). apply IH.
  - rewrite !(struct_loop_emit X _ f v _ first e0 Es). unfold seq.
    destruct (emit_field X (reflectValueQuoted X) f v first e0) as [e1| |];
      try reflexivity.
    apply IH.
Qed.

Lemma struct_loop_app (X : Externals) (rv : Value -> bool -> M)
    (pre l : list (StructField * Value)) :
  forall first e,
    struct_loop X rv (pre ++ l) first e =
      match struct_loop X rv pre first e with
      | Done e1 => struct_loop X rv l (first_after X pre first) e1
      | Panic err p => Panic err p
      | NoReturn => NoReturn
      end.
Proof.
  induction pre as [|[f v] pre IH]; intros first e.
  - simpl. unfold first_after. simpl. now rewrite andb_true_r.
  - rewrite <- app_comm_cons. unfold first_after. simpl forallb.
    destruct (skipped X f v) eqn:Es.
    + rewrite !struct_loop_skip by exact Es. rewrite IH. reflexivity.
    + rewrite !struct_loop_emit by exact Es. simpl. rewrite andb_false_r.
      unfold seq. destruct (emit_field X rv f v first e) as [e1| |];
        try reflexivity.
      rewrite IH. reflexivity.
Qed.

Lemma reflectValue_MapIndex_lookup (rv : Value -> bool -> M)
    (es : list (gostring * Value)) (k : gostring) (e : Buffer) :
  reflectValue_MapIndex rv es k e =
    match MapIndex es k with
    | Some x => rv x false e
    | None => WriteString (str "null") e
    end.
Proof.
  induction es as [|[k' x] es IH]; simpl; [reflexivity|].
  destruct (gostring_eqb k' k); [reflexivity|exact IH].
Qed.

(** A failure at the value the traversal has come to is the failure of
    the whole call. *)
Lemma reaches_panic (X : Externals) v q e w q' e' :
  Reaches X v q e w q' e' ->
  forall err p,
    reflectValueQuoted X w q' e' = Panic err p ->
    reflectValueQuoted X v q e = Panic err p.
Proof.
  induction 1 as [v q e
                 |t x q e w q' e' _ IH
                 |t x q e w q' e' _ IH
                 |t pre x post q e e1 e2 w q' e' Ht Hpre Hsep _ IH
                 |t pre x post q e e1 e2 w q' e' Ht Hpre Hsep _ IH
                 |t pre f x post q e e1 e2 w q' e' Hpre Hskip Hkey _ IH
                 |t es pre k post x q e e1 e2 w q' e' Hk Hsort Hpre Hkey Hx _ IH];
    intros err p Hw.
  - exact Hw.
  - simpl. exact (IH err p Hw).
  - simpl. exact (IH err p Hw).
  - simpl. unfold encode_sequence. rewrite Ht. unfold seq at 1. cbv [WriteByte].
    unfold seq. rewrite array_loop_app, Hpre. simpl. unfold seq.
    destruct (0 <? List.length pre); cbv [WriteByte skip] in *;
      inversion Hsep; subst; now rewrite (IH err p Hw).
  - simpl. unfold encode_sequence. rewrite Ht. unfold seq at 1. cbv [WriteByte].
    unfold seq. rewrite array_loop_app, Hpre. simpl. unfold seq.
    destruct (0 <? List.length pre); cbv [WriteByte skip] in *;
      inversion Hsep; subst; now rewrite (IH err p Hw).
  - rewrite reflectValueQuoted_struct. unfold seq at 1. cbv [WriteByte].
    unfold seq.
    rewrite struct_loop_app, Hpre, (struct_loop_emit X _ f x post _ e1 Hskip).
    unfold emit_field. unfold seq in Hkey |- *.
    destruct ((if first_after X pre true then skip else WriteByte comma_byte) e1)
      as [e3| |]; try discriminate.
    destruct (string_ X (field_key X f) e3) as [e4| |]; try discriminate.
    cbv [WriteByte] in Hkey |- *.
    assert (Heq : e2 = e4 ++ [byte_of 58]) by congruence. subst e2.
    now rewrite (IH err p Hw).
  - rewrite (reflectValueQuoted_map X t es q e Hk), Hsort.
    unfold seq at 1. cbv [WriteByte]. unfold seq.
    rewrite map_loop_app, Hpre, map_loop_cons, Nat.add_0_l.
    unfold seq in Hkey |- *.
    destruct ((if 0 <? List.length pre then WriteByte comma_byte else skip) e1)
      as [e3| |]; try discriminate.
    destruct (string_ X k e3) as [e4| |]; try discriminate.
    cbv [WriteByte] in Hkey |- *.
    assert (Heq : e2 = e4 ++ [byte_of 58]) by congruence. subst e2.
    rewrite reflectValue_MapIndex_lookup, Hx.
    now rewrite (IH err p Hw).
Qed.

Lemma Marshal_panic (X : Externals) v err p :
  reflectValueQuoted X v false [] = Panic err p ->
  Marshal X v = Returns None (Some err).
Proof. intros H. unfold Marshal, marshal, reflectValue. now rewrite H. Qed.

Lemma Kind_eqb_eq (a b : Kind) : Kind_eqb a b = true <-> a = b.
Proof. unfold Kind_eqb. destruct (Kind_eq_dec a b); split; congruence. Qed.

(** An error never comes with output bytes. *)
Lemma Marshal_error_nil (X : Externals) v b err :
  Marshal X v = Returns b (Some err) -> b = None.
Proof.
  unfold Marshal, marshal. destruct (reflectValue X v []); intros H;
    inversion H; reflexivity.
Qed.

Lemma reflectValueQuoted_malformed (X : Externals) t s quoted e :
  decoder_advances X -> Malformed X s ->
  exists p,
    reflectValueQuoted X (VString t None s) quoted e
    = Panic (InvalidUTF8Error s) p.
Proof.
  intros Hadv Hm. destruct quoted; simpl.
  - destruct (string_malformed X s [] Hadv Hm) as [p Hp].
    unfold Marshal_string. rewrite Hp. exists e. reflexivity.
  - apply string_malformed; assumption.
Qed.

(** C2, as amended. When the traversal comes to a string value that holds a
    malformed sequence, every step before it having succeeded, Marshal
    returns the InvalidUTF8 error that carries this string, and a nil byte
    slice: no partial output and no replacement character.  The decoder is
    required to advance on a non-empty string. *)
Theorem malformed_string_fails :
  forall X v t s quoted e,
    decoder_advances X ->
    Malformed X s ->
    Reaches X v false [] (VString t None s) quoted e ->
    Marshal X v = Returns None (Some (InvalidUTF8Error s)).
Proof.
  intros X v t s quoted e Hadv Hm Hr.
  destruct (reflectValueQuoted_malformed X t s quoted e Hadv Hm) as [p Hp].
  exact (Marshal_panic X v _ p (reaches_panic X _ _ _ _ _ _ Hr _ _ Hp)).
Qed.

Lemma malformed_string_fails_witness :
  let X := Sample.externals in
  let s := str "ok" ++ [byte_of 255] in
  let v := Sample.struct_ "T"
             [(Sample.exported "A" "", Sample.int_ 1);
              (Sample.exported "S" "", Sample.string_value s)] in
  decoder_advances X
  /\ Malformed X s
  /\ Marshal X v = Returns None (Some (InvalidUTF8Error s)).
Proof.
  assert (Hm : Malformed Sample.externals (str "ok" ++ [byte_of 255])).
  { apply malformed_after_byte; [reflexivity|].
    apply malformed_after_byte; [reflexivity|].
    apply malformed_here; [intros H; discriminate H|reflexivity]. }
  split; [exact sample_decoder_advances|]. split; [exact Hm|].
  apply (malformed_string_fails Sample.externals _ (Basic String) _ false
           (json "{'A':1,'S':") sample_decoder_advances Hm).
  apply (reaches_field Sample.externals _
           [(Sample.exported "A" "", Sample.int_ 1)]
           (Sample.exported "S" "") _ [] false []
           (json "{'A':1") (json "{'A':1,'S':"));
    [reflexivity|reflexivity|reflexivity|apply reaches_here].
Defined.

(** C2, as stated, fails: a value that fails earlier in the traversal is
    reported instead, and a string in a field that is not exported is never
    read. *)
Lemma malformed_string_not_reported :
  let bad := Sample.string_value [byte_of 255] in
  Malformed Sample.externals [byte_of 255]
  /\ Marshal Sample.externals (Sample.slice_interface [Sample.func_; bad])
     = Returns None (Some (UnsupportedTypeError (Opaque Func (str "func()"))))
  /\ Marshal Sample.externals (Sample.struct_ "T" [(Sample.unexported "s", bad)])
     = Returns (Some (str "{}")) None.
Proof.
  split; [|split; reflexivity].
  apply malformed_here; [intros H; discriminate H|reflexivity].
Qed.

(** C3, as amended. When the traversal comes to a value of a kind that has
    no encoding (channel, function, complex number, unsafe pointer) and no
    MarshalJSON hook, or to a map without hook whose key kind is not String
    (nil or not), every step before it having succeeded, Marshal returns the
    UnsupportedType error that carries the type of that value, and a nil
    byte slice. *)
Theorem unsupported_kind_fails :
  forall X v w t quoted e,
    Reaches X v false [] w quoted e ->
    (w = VOther t None
     \/ exists m, w = VMap t None m /\ rtype_Kind (rtype_Key t) <> String) ->
    Marshal X v = Returns None (Some (UnsupportedTypeError t)).
Proof.
  intros X v w t quoted e Hr Hw.
  apply (Marshal_panic X v _ e), (reaches_panic X _ _ _ _ _ _ Hr).
  destruct Hw as [->|(m & -> & Hk)]; [reflexivity|].
  simpl. destruct (Kind_eqb (rtype_Kind (rtype_Key t)) String) eqn:E;
    [|reflexivity].
  apply Kind_eqb_eq in E. contradiction.
Qed.

Lemma unsupported_kind_fails_witness :
  let X := Sample.externals in
  let t := MapOf (Basic Int) (Basic String) in
  let v := Sample.struct_ "T"
             [(Sample.exported "A" "", Sample.int_ 1);
              (Sample.exported "M" "", VMap t None None)] in
  Marshal X (VPtr (PtrTo (Opaque Func (str "func()"))) None (Some Sample.func_))
  = Returns None (Some (UnsupportedTypeError (Opaque Func (str "func()"))))
  /\ Marshal X v = Returns None (Some (UnsupportedTypeError t)).
Proof.
  split.
  - apply (unsupported_kind_fails Sample.externals _ Sample.func_ _ false []).
    + apply reaches_ptr, reaches_here.
    + left; reflexivity.
  - apply (unsupported_kind_fails Sample.externals _
             (VMap (MapOf (Basic Int) (Basic String)) None None) _ false
             (json "{'A':1,'M':")).
    + apply (reaches_field Sample.externals _
               [(Sample.exported "A" "", Sample.int_ 1)]
               (Sample.exported "M" "") _ [] false []
               (json "{'A':1") (json "{'A':1,'M':"));
        [reflexivity|reflexivity|reflexivity|apply reaches_here].
    + right. exists None. split; [reflexivity|discriminate].
Defined.

(** C3, as stated, fails: a function value in a field that is not exported
    is never read, and a value that fails earlier in the traversal is
    reported instead. *)
Lemma unsupported_kind_not_reported :
  let bad := Sample.string_value [byte_of 255] in
  Marshal Sample.externals
    (Sample.struct_ "T" [(Sample.unexported "f", Sample.func_)])
  = Returns (Some (str "{}")) None
  /\ Marshal Sample.externals (Sample.slice_interface [bad; Sample.func_])
     = Returns None (Some (InvalidUTF8Error [byte_of 255])).
Proof. split; reflexivity. Qed.

(** * Further properties of the code *)

(** ** HTMLEscape *)

Lemma html_rendering_hex (c : byte) :
  html_special c = true ->
  str "\u00" ++ [index hex (N.to_nat (N.shiftr (byte_val c) 4))]
  ++ [index hex (N.to_nat (N.land (byte_val c) 15))]
  = html_rendering c.
Proof.
  unfold html_special, html_rendering. intros H.
  destruct (byte_eqb c (byte_of 60)) eqn:E1;
    [apply byte_eqb_eq in E1; subst; reflexivity|].
  destruct (byte_eqb c (byte_of 62)) eqn:E2;
    [apply byte_eqb_eq in E2; subst; reflexivity|].
  destruct (byte_eqb c (byte_of 38)) eqn:E3;
    [apply byte_eqb_eq in E3; subst; reflexivity|discriminate].
Qed.

Lemma html_rendering_other (c : byte) :
  html_special c = false -> html_rendering c = [c].
Proof.
  unfold html_special, html_rendering. intros H.
  apply orb_false_iff in H. destruct H as [H H3].
  apply orb_false_iff in H. destruct H as [H1 H2].
  now rewrite H1, H2, H3.
Qed.

(** The loop and the final copy, from any point of the scan. *)
Lemma HTMLEscape_loop_spec (src : list byte) :
  forall rest i start dst,
    skipn i src = rest -> start <= i ->
    (let (dst', start') := HTMLEscape_loop src rest i start dst in
     if start' <? len src then dst' ++ skipn start' src else dst')
    = dst ++ slice src start i ++ flat_map html_rendering rest.
Proof.
  intros rest; induction rest as [|c rest IH]; intros i start dst Hsk Hle.
  - simpl. rewrite app_nil_r.
    assert (Hi : len src <= i) by (apply skipn_all_iff; exact Hsk).
    rewrite (slice_to_end src start i Hle Hi).
    destruct (start <? len src) eqn:Es; [reflexivity|].
    apply Nat.ltb_ge in Es. now rewrite (skipn_all2 src Es), app_nil_r.
  - destruct (skipn_cons_inv src i c rest Hsk) as (Hi & Hidx & Hrest).
    simpl HTMLEscape_loop. destruct (html_special c) eqn:Ec.
    + cbv zeta. rewrite IH; [|exact Hrest|lia].
      rewrite slice_empty. simpl flat_map.
      rewrite <- (html_rendering_hex c Ec).
      assert (Hd : (if start <? i then dst ++ slice src start i else dst)
                   = dst ++ slice src start i).
      { destruct (start <? i) eqn:E; [reflexivity|].
        apply Nat.ltb_ge in E. assert (start = i) by lia. subst.
        now rewrite slice_empty, app_nil_r. }
      rewrite Hd. simpl. now rewrite <- !app_assoc.
    + rewrite IH; [|exact Hrest|lia].
      rewrite (slice_extend src start i 1 Hle), Hsk. simpl.
      rewrite (html_rendering_other c Ec). now rewrite <- !app_assoc.
Qed.

Lemma HTMLEscape_flat_map (dst : Buffer) (src : list byte) :
  HTMLEscape dst src = dst ++ flat_map html_rendering src.
Proof.
  pose proof (HTMLEscape_loop_spec src src 0 0 dst eq_refl (le_n 0)) as H.
  rewrite slice_empty in H. exact H.
Qed.

(** X1. HTMLEscape appends to the buffer the source with each less-than,
    greater-than and ampersand byte replaced by its six-byte escape (u003c,
    u003e, u0026) and every other byte copied: the copying of whole runs
    between escapes loses and repeats nothing. *)
Theorem HTMLEscape_bytewise :
  forall dst src, HTMLEscape dst src = dst ++ flat_map html_rendering src.
Proof. intros dst src. apply HTMLEscape_flat_map. Qed.

Lemma html_rendering_free (c : byte) : html_free (html_rendering c).
Proof.
  unfold html_rendering.
  destruct (byte_eqb c (byte_of 60)) eqn:E1; [repeat constructor|].
  destruct (byte_eqb c (byte_of 62)) eqn:E2; [repeat constructor|].
  destruct (byte_eqb c (byte_of 38)) eqn:E3; [repeat constructor|].
  constructor; [|constructor]. unfold html_special. now rewrite E1, E2, E3.
Qed.

Lemma flat_map_html_free (src : list byte) :
  html_free (flat_map html_rendering src).
Proof.
  induction src as [|c src IH]; simpl; [constructor|].
  apply Forall_app. split; [apply html_rendering_free|exact IH].
Qed.

Lemma flat_map_html_id (src : list byte) :
  html_free src -> flat_map html_rendering src = src.
Proof.
  induction 1 as [|c src Hc _ IH]; simpl; [reflexivity|].
  now rewrite (html_rendering_other c Hc), IH.
Qed.

(** X2. Whatever the source holds, the bytes HTMLEscape appends contain no
    less-than, greater-than or ampersand byte. *)
Theorem HTMLEscape_output_free :
  forall dst src,
    exists w, HTMLEscape dst src = dst ++ w /\ html_free w.
Proof.
  intros dst src. exists (flat_map html_rendering src).
  split; [apply HTMLEscape_flat_map|apply flat_map_html_free].
Qed.

(** X3. A source without less-than, greater-than and ampersand is appended
    unchanged, so escaping twice is the same as escaping once. *)
Theorem HTMLEscape_idempotent :
  forall dst src,
    (html_free src -> HTMLEscape dst src = dst ++ src)
    /\ HTMLEscape dst (HTMLEscape [] src) = HTMLEscape dst src.
Proof.
  intros dst src. split.
  - intros H. now rewrite HTMLEscape_flat_map, (flat_map_html_id src H).
  - rewrite !HTMLEscape_flat_map. simpl.
    now rewrite (flat_map_html_id _ (flat_map_html_free src)).
Qed.

(** X4. Escaping a source in two pieces into the same buffer gives what
    escaping it whole gives: a piece boundary never splits or merges an
    escape. *)
Theorem HTMLEscape_in_pieces :
  forall dst a b,
    HTMLEscape (HTMLEscape dst a) b = HTMLEscape dst (a ++ b).
Proof.
  intros dst a b. rewrite !HTMLEscape_flat_map, flat_map_app.
  now rewrite app_assoc.
Qed.

Lemma HTMLEscape_idempotent_witness :
  html_free (str "a=1")
  /\ HTMLEscape (str "x") (str "a=1") = str "xa=1"
  /\ HTMLEscape [] (str "a<b&c") = str "a\u003cb\u0026c".
Proof.
  assert (H : html_free (str "a=1")) by (repeat constructor).
  split; [exact H|].
  split; [exact (proj1 (HTMLEscape_idempotent (str "x") (str "a=1")) H)|].
  reflexivity.
Defined.

(** ** More on the string escaper *)

(** A panic of the loop means that a malformed sequence lies ahead. *)
Lemma string_loop_Panic_malformed (X : Externals) :
  forall fuel s i start e err p,
    string_loop X fuel s i start e = Panic err p -> Malformed X (skipn i s).
Proof.
  intros fuel; induction fuel as [|fuel IH]; intros s i start e err p;
    rewrite string_loop_eq; destruct (i <? len s) eqn:Ei;
    try discriminate;
    try (unfold seq; destruct (start <? len s); discriminate).
  apply Nat.ltb_lt in Ei. cbv zeta. rewrite (skipn_index s i Ei).
  destruct (byte_val (index s i) <? RuneSelf)%N eqn:Eb.
  - apply N.ltb_lt in Eb. intros H. apply malformed_after_byte; [exact Eb|].
    destruct (plain_byte (index s i)); [exact (IH _ _ _ _ _ _ H)|].
    unfold seq at 1 in H.
    destruct (start <? i); cbv [WriteString skip] in H; unfold seq in H;
      match type of H with
      | context [escape ?b ?x] =>
          destruct (escape_returns b x) as [e2 He2]; rewrite He2 in H
      end; exact (IH _ _ _ _ _ _ H).
  - apply N.ltb_ge in Eb. rewrite <- (skipn_index s i Ei).
    destruct (utf8_DecodeRuneInString X (skipn i s)) as [c size] eqn:Ed.
    destruct ((c =? RuneError)%Z && (size =? 1)) eqn:Et.
    + intros _. apply andb_true_iff in Et. destruct Et as [Ec Es].
      apply Z.eqb_eq in Ec. apply Nat.eqb_eq in Es. subst c size.
      rewrite (skipn_index s i Ei) in Ed |- *.
      apply malformed_here; [exact Eb|exact Ed].
    + intros H. apply IH in H.
      rewrite (Nat.add_comm i size), <- skipn_skipn in H.
      rewrite (skipn_index s i Ei) in Ed, H |- *.
      apply (malformed_after_rune X _ _ c size Eb Ed); [|exact H].
      intros [-> ->]. simpl in Et. discriminate.
Qed.

Lemma string_Panic_malformed (X : Externals) s e err p :
  string_ X s e = Panic err p -> Malformed X s.
Proof.
  unfold string_, seq, WriteByte. intros H.
  exact (string_loop_Panic_malformed X _ _ _ _ _ _ _ H).
Qed.

(** X5. With a decoder that advances, the escaper fails exactly on the
    strings that hold a malformed sequence, with the InvalidUTF8 error that
    carries the whole string; on every other string it returns. *)
Theorem string_fails_iff_malformed :
  forall X s e,
    decoder_advances X ->
    (Malformed X s <-> exists p, string_ X s e = Panic (InvalidUTF8Error s) p)
    /\ (~ Malformed X s <-> exists out, string_ X s e = Done out).
Proof.
  intros X s e Hadv. split; split.
  - apply string_malformed. exact Hadv.
  - intros [p H]. exact (string_Panic_malformed X s e _ p H).
  - intros Hn. destruct (string_ X s e) as [out|err p|] eqn:E.
    + now exists out.
    + exfalso. exact (Hn (string_Panic_malformed X s e err p E)).
    + exfalso. exact (string_returns X s e Hadv E).
  - intros [out H] Hm.
    destruct (string_malformed X s e Hadv Hm) as [p Hp]. congruence.
Qed.

Lemma string_fails_iff_malformed_witness :
  decoder_advances Sample.externals
  /\ (exists out, string_ Sample.externals (str "ok") [] = Done out)
  /\ Malformed Sample.externals [byte_of 255].
Proof.
  split; [exact sample_decoder_advances|].
  destruct (string_fails_iff_malformed Sample.externals [byte_of 255] []
              sample_decoder_advances) as [[_ Hbad] _].
  split; [exists (json "'ok'"); reflexivity|].
  apply Hbad. exists [quote_byte]. reflexivity.
Defined.

Lemma unrender_rendering (b : byte) (u : gostring) :
  unrender (spec_rendering b ++ u) = Some (b, u).
Proof.
  destruct b as [[] [] [] [] [] [] [] []]; reflexivity.
Qed.

Lemma flat_map_rendering_inj (s s' : gostring) (u : gostring) :
  flat_map spec_rendering s ++ quote_byte :: u
  = flat_map spec_rendering s' ++ quote_byte :: u ->
  s = s'.
Proof.
  revert s'; induction s as [|b s IH]; intros [|b' s'] H; simpl in H.
  - reflexivity.
  - apply (f_equal unrender) in H. rewrite <- app_assoc in H.
    rewrite unrender_rendering in H. simpl in H. inversion H; subst.
    exfalso.
    assert (Hl : List.length (flat_map spec_rendering s' ++ quote_byte :: u)
                 = List.length u) by (rewrite <- H2; reflexivity).
    rewrite length_app in Hl. simpl in Hl. lia.
  - apply (f_equal unrender) in H. rewrite <- app_assoc in H.
    rewrite unrender_rendering in H. simpl in H. inversion H; subst.
    exfalso.
    assert (Hl : List.length (flat_map spec_rendering s ++ quote_byte :: u)
                 = List.length u) by (rewrite H2; reflexivity).
    rewrite length_app in Hl. simpl in Hl. lia.
  - rewrite <- !app_assoc in H. apply (f_equal unrender) in H.
    rewrite !unrender_rendering in H. inversion H; subst.
    f_equal. now apply IH.
Qed.

(** X6. Two strings that the escaper encodes to the same literal are the
    same string: the literal determines the string. *)
Theorem string_literal_injective :
  forall X s s' e out,
    decoder_spans_nonascii X ->
    string_ X s e = Done out ->
    string_ X s' e = Done out ->
    s = s'.
Proof.
  intros X s s' e out Hspan H H'.
  apply (string_Done X _ _ _ Hspan) in H, H'. rewrite H in H'.
  apply app_inv_head in H'. unfold quoted_literal in H'.
  inversion H' as [H0]. exact (flat_map_rendering_inj s s' [] H0).
Qed.

Lemma string_literal_injective_witness :
  let X := Sample.externals in
  decoder_spans_nonascii X
  /\ string_ X (str "a<b") [] = Done (json "'a\u003cb'")
  /\ (forall s', string_ X s' [] = Done (json "'a\u003cb'") -> str "a<b" = s').
Proof.
  split; [exact sample_decoder_spans_nonascii|]. split; [reflexivity|].
  intros s' H.
  exact (string_literal_injective Sample.externals (str "a<b") s' []
           (json "'a\u003cb'") sample_decoder_spans_nonascii eq_refl H).
Defined.

Lemma rendering_markup_safe (b : byte) :
  forallb markup_safe (spec_rendering b) = true.
Proof. destruct b as [[] [] [] [] [] [] [] []]; reflexivity. Qed.

Lemma flat_map_rendering_safe (s : gostring) :
  forallb markup_safe (flat_map spec_rendering s) = true.
Proof.
  induction s as [|b s IH]; simpl; [reflexivity|].
  now rewrite forallb_app, rendering_markup_safe, IH.
Qed.

Lemma string_output_safe (X : Externals) s e out :
  decoder_spans_nonascii X ->
  string_ X s e = Done out ->
  exists w, out = e ++ w /\ forallb markup_safe w = true.
Proof.
  intros Hspan H. apply (string_Done X _ _ _ Hspan) in H.
  exists (quoted_literal (flat_map spec_rendering s)). split; [exact H|].
  unfold quoted_literal. simpl.
  now rewrite forallb_app, flat_map_rendering_safe.
Qed.

(** X7. Whatever the string holds, the literal the escaper writes contains
    no byte below 0x20, no less-than and no greater-than byte. *)
Theorem string_literal_markup_safe :
  forall X s e out,
    decoder_spans_nonascii X ->
    string_ X s e = Done out ->
    exists w, out = e ++ w /\ forallb markup_safe w = true.
Proof. intros X s e out. apply string_output_safe. Qed.

Lemma string_literal_markup_safe_witness :
  let X := Sample.externals in
  let s := str "<b>" ++ [byte_of 7] in
  decoder_spans_nonascii X
  /\ exists out w,
       string_ X s [] = Done out /\ out = [] ++ w
       /\ forallb markup_safe w = true.
Proof.
  split; [exact sample_decoder_spans_nonascii|].
  destruct (string_literal_markup_safe Sample.externals
              (str "<b>" ++ [byte_of 7]) []
              (json "'\u003cb\u003e\u0007'")
              sample_decoder_spans_nonascii eq_refl) as (w & Hw & Hs).
  exists (json "'\u003cb\u003e\u0007'"), w. auto.
Defined.

(** ** The buffer is a frame *)

Lemma extend_extend (e w : Buffer) (o : Outcome) :
  extend e (extend w o) = extend (e ++ w) o.
Proof. destruct o; simpl; now rewrite ?app_assoc. Qed.

Lemma frames_seq (a b : M) : frames a -> frames b -> frames (a ;; b).
Proof.
  intros Ha Hb e. unfold seq. rewrite (Ha e).
  destruct (a []) as [w| |]; simpl; try reflexivity.
  now rewrite (Hb (e ++ w)), (Hb w), extend_extend.
Qed.

Lemma frames_skip : frames skip.
Proof. intros e. simpl. now rewrite app_nil_r. Qed.

Lemma frames_WriteString (s : gostring) : frames (WriteString s).
Proof. intros e. reflexivity. Qed.

Lemma frames_WriteByte (c : byte) : frames (WriteByte c).
Proof. intros e. reflexivity. Qed.

Lemma frames_error (err : os_Error) : frames (error err).
Proof. intros e. simpl. now rewrite app_nil_r. Qed.

Lemma frames_NoReturn : frames (fun _ => NoReturn).
Proof. intros e. reflexivity. Qed.

Lemma frames_escape (b : byte) : frames (escape b).
Proof.
  unfold escape.
  destruct (byte_eqb b backslash_byte || byte_eqb b quote_byte);
    [|destruct (byte_eqb b (byte_of 10)); [|destruct (byte_eqb b (byte_of 13))]];
    repeat apply frames_seq; try apply frames_WriteByte;
    apply frames_WriteString.
Qed.

Lemma frames_string_loop (X : Externals) :
  forall fuel s i start, frames (string_loop X fuel s i start).
Proof.
  intros fuel; induction fuel as [|fuel IH]; intros s i start e;
    rewrite (string_loop_eq X _ s i start e), (string_loop_eq X _ s i start []);
    destruct (i <? len s) eqn:Ei; try reflexivity.
  - apply (frames_seq _ _); [|apply frames_WriteByte].
    destruct (start <? len s); [apply frames_WriteString|apply frames_skip].
  - cbv zeta. destruct (byte_val (index s i) <? RuneSelf)%N.
    + destruct (plain_byte (index s i)); [apply IH|].
      apply (frames_seq _ _); [|apply frames_seq; [apply frames_escape|]].
      * destruct (start <? i); [apply frames_WriteString|apply frames_skip].
      * intros e0. apply IH.
    + destruct (utf8_DecodeRuneInString X (skipn i s)) as [c size].
      destruct ((c =? RuneError)%Z && (size =? 1));
        [apply frames_error|apply IH].
  - apply (frames_seq _ _); [|apply frames_WriteByte].
    destruct (start <? len s); [apply frames_WriteString|apply frames_skip].
Qed.

Lemma frames_string (X : Externals) (s : gostring) : frames (string_ X s).
Proof.
  unfold string_. apply frames_seq; [apply frames_WriteByte|].
  intros e. apply frames_string_loop.
Qed.

Lemma frames_struct_loop (X : Externals) (rv : Value -> bool -> M) fields :
  Forall (fun p => forall q, frames (rv (snd p) q)) fields ->
  forall first, frames (struct_loop X rv fields first).
Proof.
  induction 1 as [|[f v] fields Hv _ IH]; intros first; [apply frames_skip|].
  intros e. rewrite !struct_loop_cons.
  destruct (negb (gostring_eqb (PkgPath f) [])); [apply IH|].
  destruct (field_omitEmpty X f && isEmptyValue v); [apply IH|].
  simpl in Hv. apply (frames_seq _ _); [|apply IH].
  unfold emit_field. apply frames_seq; [|apply frames_seq; [|apply frames_seq]].
  - destruct first; [apply frames_skip|apply frames_WriteByte].
  - apply frames_string.
  - apply frames_WriteByte.
  - apply Hv.
Qed.

Lemma frames_array_loop (rv : Value -> bool -> M) elems :
  Forall (fun x => forall q, frames (rv x q)) elems ->
  forall i, frames (array_loop rv elems i).
Proof.
  induction 1 as [|x elems Hx _ IH]; intros i; [apply frames_skip|].
  simpl. apply frames_seq; [|apply frames_seq].
  - destruct (0 <? i); [apply frames_WriteByte|apply frames_skip].
  - apply Hx.
  - apply IH.
Qed.

Lemma frames_MapIndex (rv : Value -> bool -> M) es :
  Forall (fun p => forall q, frames (rv (snd p) q)) es ->
  forall k, frames (reflectValue_MapIndex rv es k).
Proof.
  induction 1 as [|[k' x] es Hx _ IH]; intros k; simpl;
    [apply frames_WriteString|].
  destruct (gostring_eqb k' k); [apply Hx|apply IH].
Qed.

Lemma frames_map_loop (X : Externals) (rv : Value -> bool -> M) es :
  Forall (fun p => forall q, frames (rv (snd p) q)) es ->
  forall sv i, frames (map_loop X rv es sv i).
Proof.
  intros Hes sv; induction sv as [|k sv IH]; intros i; [apply frames_skip|].
  simpl. apply frames_seq; [|apply frames_seq; [|apply frames_seq;
                                                 [|apply frames_seq]]].
  - destruct (0 <? i); [apply frames_WriteByte|apply frames_skip].
  - apply frames_string.
  - apply frames_WriteByte.
  - apply frames_MapIndex. exact Hes.
  - apply IH.
Qed.

Lemma frames_call_Marshaler (X : Externals) t b err :
  frames (call_Marshaler X t b err).
Proof.
  intros e. unfold call_Marshaler, Compact.
  destruct err; [simpl; now rewrite app_nil_r|].
  destruct (Compact_bytes X b) as [w|x]; simpl; [reflexivity|].
  now rewrite app_nil_r.
Qed.

Lemma frames_encode_sequence (rv : Value -> bool -> M) t elems :
  Forall (fun x => forall q, frames (rv x q)) elems ->
  frames (encode_sequence rv t elems).
Proof.
  intros H. unfold encode_sequence. destruct (rtype_eqb t byteSliceType).
  - apply frames_seq; [apply frames_WriteByte|].
    apply frames_seq; [|apply frames_WriteByte].
    destruct (Interface_bytes elems) as [s|]; [|apply frames_NoReturn].
    destruct (len s <? 1024); apply frames_WriteString.
  - apply frames_seq; [apply frames_WriteByte|].
    apply frames_seq; [|apply frames_WriteByte].
    apply frames_array_loop. exact H.
Qed.

Lemma frames_reflectValueQuoted (X : Externals) (v : Value) :
  forall quoted, frames (reflectValueQuoted X v quoted).
Proof.
  induction v using Value_induction; intros quoted;
    try (destruct j as [[b err]|]; [apply frames_call_Marshaler|]);
    simpl.
  - apply frames_WriteString.
  - destruct x, quoted; try apply frames_string; apply frames_WriteString.
  - destruct quoted; [apply frames_string|apply frames_WriteString].
  - destruct quoted; [apply frames_string|apply frames_WriteString].
  - destruct quoted; [apply frames_string|apply frames_WriteString].
  - destruct quoted; [|apply frames_string].
    destruct (Marshal_string X s) as [sb [err|]|];
      [apply frames_error|apply frames_string|apply frames_NoReturn].
  - apply frames_seq; [apply frames_WriteByte|].
    apply frames_seq; [|apply frames_WriteByte].
    apply frames_struct_loop. assumption.
  - destruct (negb (Kind_eqb (rtype_Kind (rtype_Key t)) String));
      [apply frames_error|apply frames_WriteString].
  - destruct (negb (Kind_eqb (rtype_Kind (rtype_Key t)) String));
      [apply frames_error|].
    apply frames_seq; [apply frames_WriteByte|].
    apply frames_seq; [|apply frames_WriteByte].
    apply frames_map_loop. assumption.
  - apply frames_encode_sequence. assumption.
  - apply frames_encode_sequence. assumption.
  - apply frames_WriteString.
  - apply IHv.
  - apply frames_WriteString.
  - apply IHv.
  - apply frames_error.
Qed.

(** X8. What a call of reflectValueQuoted writes, and whether and with which
    error it fails, does not depend on what the buffer already holds; the
    bytes already in the buffer are kept in front, unchanged, on return and
    on panic alike. *)
Theorem reflectValueQuoted_frame :
  forall X v quoted e,
    reflectValueQuoted X v quoted e
    = extend e (reflectValueQuoted X v quoted []).
Proof. intros X v quoted e. apply frames_reflectValueQuoted. Qed.

(** ** How encodings compose *)

Lemma Marshal_Done (X : Externals) (v : Value) (w : list byte) :
  Marshal X v = Returns (Some w) None <-> reflectValueQuoted X v false [] = Done w.
Proof.
  unfold Marshal, marshal, reflectValue.
  destruct (reflectValueQuoted X v false []); split; intros H;
    inversion H; reflexivity.
Qed.

Lemma joined_from_positive (ws : list gostring) (i : nat) :
  0 < i -> joined_from ws i = flat_map (fun x => comma_byte :: x) ws.
Proof.
  revert i; induction ws as [|w ws IH]; intros i Hi; simpl; [reflexivity|].
  destruct (0 <? i) eqn:E; [|apply Nat.ltb_ge in E; lia].
  rewrite IH by lia. reflexivity.
Qed.

Lemma joined_from_zero (ws : list gostring) :
  joined_from ws 0 = join_commas ws.
Proof.
  destruct ws as [|w ws]; simpl; [reflexivity|].
  now rewrite joined_from_positive by lia.
Qed.

Lemma array_loop_joined (X : Externals) elems ws :
  Forall2 (fun x w => reflectValueQuoted X x false [] = Done w) elems ws ->
  forall i e,
    array_loop (reflectValueQuoted X) elems i e = Done (e ++ joined_from ws i).
Proof.
  induction 1 as [|x w elems ws Hx _ IH]; intros i e; simpl.
  - unfold skip. now rewrite app_nil_r.
  - unfold seq.
    assert (Hsep : (if 0 <? i then WriteByte comma_byte else skip) e
                   = Done (e ++ (if 0 <? i then [comma_byte] else [])))
      by (destruct (0 <? i); simpl; [reflexivity|now rewrite app_nil_r]).
    rewrite Hsep, (frames_reflectValueQuoted X x false), Hx. simpl.
    rewrite IH. now rewrite <- !app_assoc.
Qed.

(** X9. The encoding of an array, or of a slice that is not a byte slice,
    whose elements all encode, is an opening bracket, the encodings of the
    elements in order with a comma between each two, and a closing bracket;
    an empty or nil one encodes as the two brackets. *)
Theorem sequence_of_encodings :
  forall X t elems ws,
    rtype_eqb t byteSliceType = false ->
    Forall2 (fun x w => Marshal X x = Returns (Some w) None) elems ws ->
    Marshal X (VSlice t None elems)
    = Returns (Some (byte_of 91 :: join_commas ws ++ [byte_of 93])) None
    /\ Marshal X (VArray t None elems)
       = Returns (Some (byte_of 91 :: join_commas ws ++ [byte_of 93])) None.
Proof.
  intros X t elems ws Ht H.
  assert (H' : Forall2 (fun x w => reflectValueQuoted X x false [] = Done w)
                 elems ws).
  { eapply Forall2_impl; [|exact H]. intros x w. apply Marshal_Done. }
  split; apply Marshal_Done; simpl; unfold encode_sequence; rewrite Ht;
    unfold seq; cbv [WriteByte];
    rewrite (array_loop_joined X elems ws H'), joined_from_zero;
    simpl; rewrite <- ?app_assoc; reflexivity.
Qed.

Lemma sequence_of_encodings_witness :
  let X := Sample.externals in
  let t := SliceOf (Basic Int) in
  rtype_eqb t byteSliceType = false
  /\ Marshal X (VSlice t None [Sample.int_ 1; Sample.int_ 22])
     = Returns (Some (str "[1,22]")) None
  /\ Marshal X (VSlice t None []) = Returns (Some (str "[]")) None.
Proof.
  split; [reflexivity|]. split.
  - refine (proj1 (sequence_of_encodings Sample.externals (SliceOf (Basic Int))
                     [Sample.int_ 1; Sample.int_ 22] [str "1"; str "22"]
                     eq_refl _)).
    repeat constructor.
  - refine (proj1 (sequence_of_encodings Sample.externals (SliceOf (Basic Int))
                     [] [] eq_refl _)).
    constructor.
Defined.

Lemma joined_first_false (ms : list gostring) :
  joined_first ms false = flat_map (fun x => comma_byte :: x) ms.
Proof.
  induction ms as [|m ms IH]; simpl; [reflexivity|]. now rewrite IH.
Qed.

Lemma joined_first_true (ms : list gostring) :
  joined_first ms true = join_commas ms.
Proof.
  destruct ms as [|m ms]; simpl; [reflexivity|].
  now rewrite joined_first_false.
Qed.

Lemma struct_loop_joined (X : Externals) fields ms :
  Forall (fun p => skipped X (fst p) (snd p) = false) fields ->
  Forall2 (member_of X) fields ms ->
  forall first e,
    struct_loop X (reflectValueQuoted X) fields first e
    = Done (e ++ joined_first ms first).
Proof.
  intros Hk H; revert Hk.
  induction H as [|[f v] m fields ms Hm _ IH]; intros Hk first e.
  - simpl. unfold skip. now rewrite app_nil_r.
  - inversion Hk as [|? ? Hs Hk']; subst. simpl in Hs.
    rewrite (struct_loop_emit X _ f v fields first e Hs).
    destruct Hm as (k & w & Hkey & Hval & ->). simpl in Hkey, Hval.
    unfold seq, emit_field, seq.
    assert (Hsep : (if first then skip else WriteByte comma_byte) e
                   = Done (e ++ (if first then [] else [comma_byte])))
      by (destruct first; simpl; [now rewrite app_nil_r|reflexivity]).
    rewrite Hsep, (frames_string X (field_key X f)), Hkey. simpl.
    cbv [WriteByte].
    rewrite (frames_reflectValueQuoted X v (field_quoted X f)), Hval. simpl.
    rewrite (IH Hk'). simpl.
    repeat (rewrite <- ?app_assoc; simpl). reflexivity.
Qed.

Lemma kept_not_skipped (X : Externals) (fields : list (StructField * Value)) :
  Forall (fun p => skipped X (fst p) (snd p) = false)
    (filter (fun p => negb (skipped X (fst p) (snd p))) fields).
Proof.
  rewrite Forall_forall. intros p Hp. apply filter_In in Hp.
  destruct Hp as [_ Hp]. now apply negb_true_iff in Hp.
Qed.

(** X10. The encoding of a struct is an opening brace, one member (key
    literal, colon, encoding of the value) for each field that is exported
    and not omitted as empty, in the order of declaration, with a comma
    between each two members, and a closing brace, when all of these keys
    and values encode.  A struct none of whose fields is written encodes as
    the two braces, whatever its fields hold. *)
Theorem struct_of_members :
  forall X t fields ms quoted e,
    Forall2 (member_of X)
      (filter (fun p => negb (skipped X (fst p) (snd p))) fields) ms ->
    reflectValueQuoted X (VStruct t None fields) quoted e
    = Done (e ++ byte_of 123 :: join_commas ms ++ [byte_of 125]).
Proof.
  intros X t fields ms quoted e H.
  rewrite skipped_fields_leave_no_trace, reflectValueQuoted_struct.
  unfold seq. cbv [WriteByte].
  rewrite (struct_loop_joined X _ ms (kept_not_skipped X fields) H).
  rewrite joined_first_true, <- !app_assoc. reflexivity.
Qed.

Lemma struct_of_members_witness :
  let X := Sample.externals in
  let fields := [(Sample.unexported "f", Sample.func_);
                 (Sample.exported "B" "", Sample.int_ 2);
                 (Sample.exported "Z" ",omitempty", Sample.int_ 0);
                 (Sample.exported "A" "", Sample.int_ 1)] in
  reflectValueQuoted X (Sample.struct_ "T" fields) false []
  = Done (json "{'B':2,'A':1}")
  /\ reflectValueQuoted X
       (Sample.struct_ "T" [(Sample.unexported "f", Sample.func_)]) false []
     = Done (str "{}").
Proof.
  split.
  - refine (struct_of_members Sample.externals _ _
              [json "'B':2"; json "'A':1"] false [] _).
    repeat constructor.
    + exists (json "'B'"), (str "2"). repeat split.
    + exists (json "'A'"), (str "1"). repeat split.
  - refine (struct_of_members Sample.externals _ _ [] false [] _).
    constructor.
Defined.

(** X11. The quoted flag is read for booleans, numbers and strings only: a
    struct, map, array, slice, interface or pointer value, and any value
    with a MarshalJSON hook, is encoded the same with the flag as without
    it, so the string option leaves a field of such a type as it is. *)
Theorem quoted_only_for_primitives :
  forall X v e,
    Value_Marshaler v <> None \/ primitive_kind v = false ->
    reflectValueQuoted X v true e = reflectValueQuoted X v false e.
Proof.
  intros X v e H.
  destruct v; try reflexivity;
    destruct j as [[b err]|]; try reflexivity;
    (destruct H as [H|H]; [exfalso; apply H; reflexivity|discriminate H]).
Qed.

Lemma quoted_only_for_primitives_witness :
  let X := Sample.externals in
  let p := VPtr (PtrTo (Basic Int)) None (Some (Sample.int_ 5)) in
  primitive_kind p = false
  /\ Marshal X (Sample.struct_ "T" [(Sample.exported "P" ",string", p)])
     = Returns (Some (json "{'P':5}")) None
  /\ reflectValueQuoted X p true [] = Done (str "5").
Proof.
  split; [reflexivity|]. split; [reflexivity|].
  rewrite (quoted_only_for_primitives Sample.externals
             (VPtr (PtrTo (Basic Int)) None (Some (Sample.int_ 5))) []
             (or_intror eq_refl)).
  reflexivity.
Defined.

(** ** Going through a value *)

Lemma Forall_inside {A} (f : A -> Value) (P Q : Value -> Prop) (l : list A) :
  Forall (fun p => P (f p) -> Q (f p)) l -> Forall P (map f l) ->
  Forall (fun p => Q (f p)) l.
Proof.
  induction 1 as [|p l Hp _ IH]; intros H; [constructor|].
  simpl in H. inversion H; subst. constructor; auto.
Qed.

Lemma Forall_modus {A} (P Q : A -> Prop) (l : list A) :
  Forall (fun x => P x -> Q x) l -> Forall P l -> Forall Q l.
Proof.
  induction 1 as [|x l Hx _ IH]; intros H; [constructor|].
  inversion H; subst. constructor; auto.
Qed.

(** *** Marshal comes back *)


Lemma returns_Done (f : Buffer -> Buffer) : returns (fun e => Done (f e)).
Proof. intros e. discriminate. Qed.













(** *** The errors of Marshal *)


Lemma raises_Done (f : Buffer -> Buffer) : raises_json_error (fun e => Done (f e)).
Proof. intros e err p H. discriminate H. Qed.













(** *** No tag delimiter in the output *)

Lemma tag_free_app (a b : list byte) :
  tag_free a -> tag_free b -> tag_free (a ++ b).
Proof. unfold tag_free. intros Ha Hb. now rewrite forallb_app, Ha, Hb. Qed.

Lemma tag_free_of_safe (w : list byte) :
  forallb markup_safe w = true -> tag_free w.
Proof.
  unfold tag_free. induction w as [|c w IH]; simpl; [reflexivity|].
  intros H. apply andb_true_iff in H. destruct H as [Hc Hw].
  rewrite (IH Hw), andb_true_r. unfold markup_safe in Hc. unfold tag_free_byte.
  apply andb_true_iff in Hc. destruct Hc as [Hc H2].
  apply andb_true_iff in Hc. destruct Hc as [_ H1]. now rewrite H1, H2.
Qed.

Lemma tag_free_of_plain (w : list byte) :
  Forall (fun b => plain_ascii b = true) w -> tag_free w.
Proof.
  unfold tag_free. induction 1 as [|c w Hc _ IH]; simpl; [reflexivity|].
  rewrite IH, andb_true_r. unfold plain_ascii, plain_byte in Hc.
  unfold tag_free_byte.
  repeat (apply andb_true_iff in Hc; destruct Hc as [Hc ?]).
  repeat (apply andb_true_iff; split); assumption.
Qed.

Lemma base64_char_tag_free (n : N) : tag_free_byte (base64_char n) = true.
Proof.
  unfold base64_char, index.
  destruct (nth_in_or_default (N.to_nat n) base64_alphabet Ascii.zero) as [H| ->];
    [|reflexivity].
  assert (Hall : forallb tag_free_byte base64_alphabet = true) by reflexivity.
  rewrite forallb_forall in Hall. exact (Hall _ H).
Qed.

Lemma base64_Encode_tag_free (s : list byte) : tag_free (base64_Encode s).
Proof.
  assert (H : forall n s, List.length s <= n -> tag_free (base64_Encode s)).
  { clear s. unfold tag_free.
    induction n as [|n IH]; intros s Hn.
    - destruct s; [reflexivity|simpl in Hn; lia].
    - destruct s as [|a [|b [|c rest]]]; simpl.
      + reflexivity.
      + now rewrite !base64_char_tag_free.
      + now rewrite !base64_char_tag_free.
      + rewrite !base64_char_tag_free. simpl. apply IH. simpl in Hn. lia. }
  exact (H (List.length s) s (le_n _)).
Qed.

Lemma wtf_seq (a b : M) :
  writes_tag_free a -> writes_tag_free b -> writes_tag_free (a ;; b).
Proof.
  intros Ha Hb e out. unfold seq. destruct (a e) as [e1| |] eqn:E;
    try discriminate.
  intros H. destruct (Ha e e1 E) as (w1 & -> & H1).
  destruct (Hb _ _ H) as (w2 & -> & H2).
  exists (w1 ++ w2). split; [now rewrite app_assoc|now apply tag_free_app].
Qed.

Lemma wtf_text (s : gostring) : tag_free s -> writes_tag_free (WriteString s).
Proof. intros Hs e out H. inversion H. now exists s. Qed.

Lemma wtf_byte (c : byte) :
  tag_free_byte c = true -> writes_tag_free (WriteByte c).
Proof.
  intros Hc e out H. inversion H. exists [c]. split; [reflexivity|].
  unfold tag_free. simpl. now rewrite Hc.
Qed.

Lemma wtf_skip : writes_tag_free skip.
Proof.
  intros e out H. inversion H. exists []. split; [now rewrite app_nil_r|].
  reflexivity.
Qed.

Lemma wtf_none (f : Buffer -> Outcome) :
  (forall e out, f e <> Done out) -> writes_tag_free f.
Proof. intros Hf e out H. exfalso. exact (Hf e out H). Qed.

Lemma wtf_error (err : os_Error) : writes_tag_free (error err).
Proof. apply wtf_none. intros e out H. discriminate H. Qed.

Lemma wtf_sep (b : bool) :
  writes_tag_free (if b then WriteByte comma_byte else skip).
Proof. destruct b; [apply wtf_byte; reflexivity|apply wtf_skip]. Qed.

Lemma wtf_sep' (b : bool) :
  writes_tag_free (if b then skip else WriteByte comma_byte).
Proof. destruct b; [apply wtf_skip|apply wtf_byte; reflexivity]. Qed.

Lemma wtf_string (X : Externals) (s : gostring) :
  decoder_spans_nonascii X -> writes_tag_free (string_ X s).
Proof.
  intros Hspan e out H.
  destruct (string_output_safe X s e out Hspan H) as (w & -> & Hw).
  exists w. split; [reflexivity|now apply tag_free_of_safe].
Qed.

Lemma wtf_struct_loop (X : Externals) (rv : Value -> bool -> M) fields :
  decoder_spans_nonascii X ->
  Forall (fun p => forall q, writes_tag_free (rv (snd p) q)) fields ->
  forall first, writes_tag_free (struct_loop X rv fields first).
Proof.
  intros Hspan; induction 1 as [|[f v] fields Hv _ IH]; intros first;
    [apply wtf_skip|].
  intros e. rewrite struct_loop_cons.
  destruct (negb (gostring_eqb (PkgPath f) [])); [apply IH|].
  destruct (field_omitEmpty X f && isEmptyValue v); [apply IH|].
  simpl in Hv. apply (wtf_seq _ _); [|apply IH].
  unfold emit_field.
  apply wtf_seq; [apply wtf_sep'|].
  apply wtf_seq; [apply wtf_string; exact Hspan|].
  apply wtf_seq; [apply wtf_byte; reflexivity|apply Hv].
Qed.

Lemma wtf_array_loop (rv : Value -> bool -> M) elems :
  Forall (fun x => forall q, writes_tag_free (rv x q)) elems ->
  forall i, writes_tag_free (array_loop rv elems i).
Proof.
  induction 1 as [|x elems Hx _ IH]; intros i; [apply wtf_skip|].
  simpl. apply wtf_seq; [apply wtf_sep|].
  apply wtf_seq; [apply Hx|apply IH].
Qed.

Lemma wtf_MapIndex (rv : Value -> bool -> M) es :
  Forall (fun p => forall q, writes_tag_free (rv (snd p) q)) es ->
  forall k, writes_tag_free (reflectValue_MapIndex rv es k).
Proof.
  induction 1 as [|[k' x] es Hx _ IH]; intros k; simpl;
    [apply wtf_text; reflexivity|].
  destruct (gostring_eqb k' k); [apply Hx|apply IH].
Qed.

Lemma wtf_map_loop (X : Externals) (rv : Value -> bool -> M) es :
  decoder_spans_nonascii X ->
  Forall (fun p => forall q, writes_tag_free (rv (snd p) q)) es ->
  forall sv i, writes_tag_free (map_loop X rv es sv i).
Proof.
  intros Hspan Hes sv; induction sv as [|k sv IH]; intros i;
    [apply wtf_skip|].
  simpl. apply wtf_seq; [apply wtf_sep|].
  apply wtf_seq; [apply wtf_string; exact Hspan|].
  apply wtf_seq; [apply wtf_byte; reflexivity|].
  apply wtf_seq; [apply wtf_MapIndex; exact Hes|apply IH].
Qed.

Lemma wtf_encode_sequence (rv : Value -> bool -> M) t elems :
  Forall (fun x => forall q, writes_tag_free (rv x q)) elems ->
  writes_tag_free (encode_sequence rv t elems).
Proof.
  intros H. unfold encode_sequence.
  destruct (rtype_eqb t byteSliceType).
  - apply wtf_seq; [apply wtf_byte; reflexivity|].
    apply wtf_seq; [|apply wtf_byte; reflexivity].
    destruct (Interface_bytes elems) as [s|];
      [|apply wtf_none; intros e out H'; discriminate H'].
    destruct (len s <? 1024); apply wtf_text, base64_Encode_tag_free.
  - apply wtf_seq; [apply wtf_byte; reflexivity|].
    apply wtf_seq; [|apply wtf_byte; reflexivity].
    apply wtf_array_loop. exact H.
Qed.

Lemma wtf_primitive (X : Externals) (quoted : bool) (text : gostring) :
  decoder_spans_nonascii X -> tag_free text ->
  writes_tag_free ((if quoted then string_ X else WriteString) text).
Proof.
  intros Hspan Ht. destruct quoted; [apply wtf_string; exact Hspan|].
  apply wtf_text. exact Ht.
Qed.

Lemma wtf_reflectValueQuoted (X : Externals) :
  decoder_spans_nonascii X ->
  float_text_tag_free X ->
  forall v, Everywhere no_hook v ->
  forall quoted, writes_tag_free (reflectValueQuoted X v quoted).
Proof.
  intros Hspan Hfloat v; induction v using Value_induction; intros Hev quoted;
    inversion Hev as [? Hself Hkids]; subst; unfold no_hook in Hself;
    simpl in Hself, Hkids; try subst j; simpl.
  - apply wtf_text. reflexivity.
  - destruct x; apply (wtf_primitive X quoted _ Hspan); reflexivity.
  - apply (wtf_primitive X quoted _ Hspan).
    exact (tag_free_of_plain _ (literal_text_plain (VInt t None x) _ eq_refl)).
  - apply (wtf_primitive X quoted _ Hspan).
    exact (tag_free_of_plain _ (literal_text_plain (VUint t None x) _ eq_refl)).
  - apply (wtf_primitive X quoted _ Hspan). apply Hfloat.
  - destruct quoted; [|apply wtf_string; exact Hspan].
    destruct (Marshal_string X s) as [sb [err|]|];
      [apply wtf_error|apply wtf_string; exact Hspan|].
    apply wtf_none. intros e out H'. discriminate H'.
  - apply wtf_seq; [apply wtf_byte; reflexivity|].
    apply wtf_seq; [|apply wtf_byte; reflexivity].
    apply wtf_struct_loop; [exact Hspan|].
    exact (Forall_inside snd (Everywhere no_hook)
             (fun x => forall q, writes_tag_free (reflectValueQuoted X x q))
             fields H Hkids).
  - destruct (negb (Kind_eqb (rtype_Kind (rtype_Key t)) String));
      [apply wtf_error|apply wtf_text; reflexivity].
  - destruct (negb (Kind_eqb (rtype_Kind (rtype_Key t)) String));
      [apply wtf_error|].
    apply wtf_seq; [apply wtf_byte; reflexivity|].
    apply wtf_seq; [|apply wtf_byte; reflexivity].
    apply wtf_map_loop; [exact Hspan|].
    exact (Forall_inside snd (Everywhere no_hook)
             (fun x => forall q, writes_tag_free (reflectValueQuoted X x q))
             es H Hkids).
  - apply wtf_encode_sequence.
    exact (Forall_modus (Everywhere no_hook)
             (fun x => forall q, writes_tag_free (reflectValueQuoted X x q))
             elems H Hkids).
  - apply wtf_encode_sequence.
    exact (Forall_modus (Everywhere no_hook)
             (fun x => forall q, writes_tag_free (reflectValueQuoted X x q))
             elems H Hkids).
  - apply wtf_text. reflexivity.
  - apply IHv. now inversion Hkids.
  - apply wtf_text. reflexivity.
  - apply IHv. now inversion Hkids.
  - apply wtf_error.
Qed.

Lemma Marshal_tag_free (X : Externals) (v : Value) (b : list byte) :
  decoder_spans_nonascii X ->
  float_text_tag_free X ->
  Everywhere no_hook v ->
  Marshal X v = Returns (Some b) None ->
  tag_free b.
Proof.
  intros Hspan Hfloat Hv H. apply Marshal_Done in H.
  destruct (wtf_reflectValueQuoted X Hspan Hfloat v Hv false [] b H)
    as (w & -> & Hw).
  exact Hw.
Qed.

(** X14. When no value inside the input has a MarshalJSON hook, the bytes
    Marshal returns contain no less-than and no greater-than byte, whatever
    the strings, keys and field names hold: string content is escaped, and
    nothing else the encoder writes has these bytes.  (The text of a float
    comes from strconv and is required to have none.) *)
Theorem Marshal_output_tag_free :
  forall X v b,
    decoder_spans_nonascii X ->
    float_text_tag_free X ->
    Everywhere no_hook v ->
    Marshal X v = Returns (Some b) None ->
    tag_free b.
Proof. intros X v b. apply Marshal_tag_free. Qed.

Lemma sample_float_text_tag_free : float_text_tag_free Sample.externals.
Proof. intros f bits. reflexivity. Qed.

Lemma Marshal_output_tag_free_witness :
  let X := Sample.externals in
  let v := Sample.map_string (Basic String)
             [(str "<k>", Sample.string_value (str "</script>"))] in
  decoder_spans_nonascii X
  /\ float_text_tag_free X
  /\ Everywhere no_hook v
  /\ exists b, Marshal X v = Returns (Some b) None /\ tag_free b.
Proof.
  assert (Hv : Everywhere no_hook
                 (Sample.map_string (Basic String)
                    [(str "<k>", Sample.string_value (str "</script>"))])).
  { repeat (constructor; simpl; try reflexivity). }
  split; [exact sample_decoder_spans_nonascii|].
  split; [exact sample_float_text_tag_free|]. split; [exact Hv|].
  eexists. split; [reflexivity|].
  eapply (Marshal_output_tag_free Sample.externals _ _
            sample_decoder_spans_nonascii sample_float_text_tag_free Hv).
  reflexivity.
Defined.

(** ** MarshalForHTML *)

Lemma html_rendering_amp (w : list byte) :
  tag_free w -> flat_map html_rendering w = flat_map amp_rendering w.
Proof.
  unfold tag_free. induction w as [|c w IH]; simpl; [reflexivity|].
  intros H. apply andb_true_iff in H. destruct H as [Hc Hw].
  rewrite (IH Hw). f_equal. unfold amp_rendering.
  destruct (byte_eqb c (byte_of 38)) eqn:E; [reflexivity|].
  unfold tag_free_byte in Hc. apply andb_true_iff in Hc.
  destruct Hc as [H1 H2]. apply negb_true_iff in H1, H2.
  unfold html_rendering. now rewrite H1, H2, E.
Qed.

(** X15. MarshalForHTML fails exactly as Marshal does, with the same error
    and a nil byte slice; when Marshal returns bytes, it returns them with
    each less-than, greater-than and ampersand escaped, so its output has
    none of the three bytes, also where a hook wrote them. *)
Theorem MarshalForHTML_of_Marshal :
  forall X v,
    (forall b err, Marshal X v = Returns b (Some err) ->
                   MarshalForHTML X v = Returns None (Some err))
    /\ (forall b, Marshal X v = Returns (Some b) None ->
                  MarshalForHTML X v
                  = Returns (Some (flat_map html_rendering b)) None
                  /\ html_free (flat_map html_rendering b))
    /\ (Marshal X v = Never -> MarshalForHTML X v = Never).
Proof.
  intros X v. unfold MarshalForHTML. split; [|split].
  - intros b err H. now rewrite H.
  - intros b H. rewrite H. split; [|apply flat_map_html_free].
    now rewrite HTMLEscape_flat_map.
  - intros H. now rewrite H.
Qed.

Lemma MarshalForHTML_of_Marshal_witness :
  let X := Sample.externals in
  Marshal X (Sample.string_value (str "a&b<c"))
  = Returns (Some (json "'a&b\u003cc'")) None
  /\ MarshalForHTML X (Sample.string_value (str "a&b<c"))
     = Returns (Some (json "'a\u0026b\u003cc'")) None
  /\ MarshalForHTML X Sample.func_
     = Returns None (Some (UnsupportedTypeError (Opaque Func (str "func()")))).
Proof.
  destruct (MarshalForHTML_of_Marshal Sample.externals Sample.func_)
    as (H & _ & _).
  split; [reflexivity|]. split; [reflexivity|].
  exact (H None _ eq_refl).
Defined.

(** X16. For an input without MarshalJSON hooks, MarshalForHTML returns the
    bytes of Marshal with each ampersand replaced by its escape and nothing
    else changed: less-than and greater-than were escaped by Marshal
    already. *)
Theorem MarshalForHTML_escapes_ampersands :
  forall X v b,
    decoder_spans_nonascii X ->
    float_text_tag_free X ->
    Everywhere no_hook v ->
    Marshal X v = Returns (Some b) None ->
    MarshalForHTML X v = Returns (Some (flat_map amp_rendering b)) None.
Proof.
  intros X v b Hspan Hfloat Hv H. unfold MarshalForHTML. rewrite H.
  rewrite HTMLEscape_flat_map. simpl.
  now rewrite (html_rendering_amp b (Marshal_tag_free X v b Hspan Hfloat Hv H)).
Qed.

Lemma MarshalForHTML_escapes_ampersands_witness :
  let X := Sample.externals in
  let v := Sample.string_value (str "a&b") in
  decoder_spans_nonascii X
  /\ float_text_tag_free X
  /\ Everywhere no_hook v
  /\ MarshalForHTML X v = Returns (Some (json "'a\u0026b'")) None.
Proof.
  assert (Hv : Everywhere no_hook (Sample.string_value (str "a&b")))
    by (repeat constructor).
  split; [exact sample_decoder_spans_nonascii|].
  split; [exact sample_float_text_tag_free|]. split; [exact Hv|].
  exact (MarshalForHTML_escapes_ampersands Sample.externals _ (json "'a&b'")
           sample_decoder_spans_nonascii sample_float_text_tag_free Hv
           eq_refl).
Defined.

(** ** The sort interface of the keys *)

(** X17. On the indices of the slice, Less is a strict total order of the
    keys, the byte-wise lexicographic one: no key is less than itself, the
    order is asymmetric and transitive, and two keys neither of which is
    less than the other are the same string. *)
Theorem stringValues_Less_strict_order :
  forall sv i j k,
    i < stringValues_Len sv -> j < stringValues_Len sv ->
    k < stringValues_Len sv ->
    stringValues_Less sv i i = false
    /\ (stringValues_Less sv i j = true -> stringValues_Less sv j i = false)
    /\ (stringValues_Less sv i j = true -> stringValues_Less sv j k = true ->
        stringValues_Less sv i k = true)
    /\ (stringValues_Less sv i j = false -> stringValues_Less sv j i = false ->
        stringValues_get sv i = stringValues_get sv j)
    /\ (stringValues_Less sv i j = true
        <-> lex_lt (stringValues_get sv i) (stringValues_get sv j)).
Proof.
  intros sv i j k _ _ _. unfold stringValues_Less.
  split; [apply gostring_ltb_irrefl|].
  split; [apply gostring_ltb_asym|].
  split; [apply gostring_ltb_trans|].
  split; [apply gostring_ltb_antisym|apply gostring_ltb_lex].
Qed.

Lemma stringValues_Less_strict_order_witness :
  let sv := [str "b"; str "ab"; str "a"] in
  2 < stringValues_Len sv /\ 1 < stringValues_Len sv
  /\ 0 < stringValues_Len sv
  /\ stringValues_Less sv 2 1 = true
  /\ stringValues_Less sv 1 0 = true
  /\ stringValues_Less sv 2 0 = true.
Proof.
  assert (H2 : 2 < stringValues_Len [str "b"; str "ab"; str "a"])
    by (unfold stringValues_Len; simpl; lia).
  assert (H1 : 1 < stringValues_Len [str "b"; str "ab"; str "a"])
    by (unfold stringValues_Len; simpl; lia).
  assert (H0 : 0 < stringValues_Len [str "b"; str "ab"; str "a"])
    by (unfold stringValues_Len; simpl; lia).
  destruct (stringValues_Less_strict_order _ 2 1 0 H2 H1 H0)
    as (_ & _ & Htrans & _).
  split; [exact H2|]. split; [exact H1|]. split; [exact H0|].
  split; [reflexivity|]. split; [reflexivity|].
  exact (Htrans eq_refl eq_refl).
Defined.

Lemma assign_length (sv : stringValues) (i : nat) (x : gostring) :
  List.length (assign sv i x) = List.length sv.
Proof.
  revert i; induction sv as [|y sv IH]; intros [|i]; simpl; try reflexivity.
  now rewrite IH.
Qed.

Lemma assign_same (sv : stringValues) (i : nat) (x : gostring) :
  i < List.length sv -> nth i (assign sv i x) [] = x.
Proof.
  revert i; induction sv as [|y sv IH]; intros [|i] H; simpl in *;
    try lia; [reflexivity|].
  apply IH. lia.
Qed.

Lemma assign_other (sv : stringValues) (i k : nat) (x : gostring) :
  k <> i -> nth k (assign sv i x) [] = nth k sv [].
Proof.
  revert i k; induction sv as [|y sv IH]; intros [|i] [|k] H; simpl;
    try reflexivity; try congruence.
  apply IH. congruence.
Qed.

(** What [Swap] leaves at each index. *)
Lemma swapped_get (sv : stringValues) (i j k : nat) :
  i < List.length sv -> j < List.length sv ->
  nth k (assign (assign sv i (nth j sv [])) j (nth i sv [])) []
  = nth (exchanged i j k) sv [].
Proof.
  intros Hi Hj. unfold exchanged.
  destruct (Nat.eqb_spec k j) as [->|Hkj].
  - rewrite assign_same by (now rewrite assign_length).
    destruct (Nat.eqb_spec j i) as [->|_]; reflexivity.
  - rewrite assign_other by exact Hkj.
    destruct (Nat.eqb_spec k i) as [->|Hki].
    + now apply assign_same.
    + now apply assign_other.
Qed.

Lemma assign_perm (sv : stringValues) (i : nat) (x : gostring) :
  i < List.length sv ->
  Permutation (x :: sv) (nth i sv [] :: assign sv i x).
Proof.
  revert i; induction sv as [|y sv IH]; intros [|i] H; simpl in *; try lia.
  - apply perm_swap.
  - apply perm_trans with (y :: x :: sv); [apply perm_swap|].
    apply perm_trans with (y :: nth i sv [] :: assign sv i x);
      [|apply perm_swap].
    apply perm_skip. apply IH. lia.
Qed.

Lemma swapped_perm (sv : stringValues) (i j : nat) :
  i < List.length sv -> j < List.length sv ->
  Permutation sv (assign (assign sv i (nth j sv [])) j (nth i sv [])).
Proof.
  revert i j; induction sv as [|y sv IH]; intros [|i] [|j] Hi Hj;
    simpl in *; try lia.
  - apply Permutation_refl.
  - apply assign_perm. lia.
  - apply assign_perm. lia.
  - apply perm_skip. apply IH; lia.
Qed.

(** X18. For two indices in range, Swap exchanges the two keys and leaves
    every other index as it was; the slice keeps its length and holds the
    same keys, each as often as before.  With an index out of range it
    does not return. *)
Theorem stringValues_Swap_exchanges :
  forall sv i j,
    (i < stringValues_Len sv -> j < stringValues_Len sv ->
     exists sv',
       stringValues_Swap sv i j = Some sv'
       /\ stringValues_Len sv' = stringValues_Len sv
       /\ stringValues_get sv' i = stringValues_get sv j
       /\ stringValues_get sv' j = stringValues_get sv i
       /\ (forall k, k <> i -> k <> j ->
                     stringValues_get sv' k = stringValues_get sv k)
       /\ Permutation sv sv')
    /\ (stringValues_Len sv <= i \/ stringValues_Len sv <= j ->
        stringValues_Swap sv i j = None).
Proof.
  intros sv i j. unfold stringValues_Swap, stringValues_Len, stringValues_get.
  split.
  - intros Hi Hj.
    destruct (Nat.ltb_spec i (List.length sv)) as [_|?]; [|lia].
    destruct (Nat.ltb_spec j (List.length sv)) as [_|?]; [|lia].
    simpl. eexists. split; [reflexivity|].
    split; [now rewrite !assign_length|].
    split.
    { rewrite (swapped_get sv i j i Hi Hj). unfold exchanged.
      now rewrite Nat.eqb_refl. }
    split.
    { rewrite (swapped_get sv i j j Hi Hj). unfold exchanged.
      rewrite Nat.eqb_refl. destruct (Nat.eqb_spec j i) as [->|_]; reflexivity. }
    split.
    { intros k Hki Hkj. rewrite (swapped_get sv i j k Hi Hj). unfold exchanged.
      destruct (Nat.eqb_spec k i); [contradiction|].
      destruct (Nat.eqb_spec k j); [contradiction|reflexivity]. }
    apply swapped_perm; assumption.
  - intros H.
    destruct (Nat.ltb_spec i (List.length sv));
      destruct (Nat.ltb_spec j (List.length sv)); simpl; try reflexivity.
    lia.
Qed.

Lemma stringValues_Swap_exchanges_witness :
  let sv := [str "b"; str "c"; str "a"] in
  0 < stringValues_Len sv /\ 2 < stringValues_Len sv
  /\ stringValues_Swap sv 0 2 = Some [str "a"; str "c"; str "b"]
  /\ stringValues_Swap sv 0 3 = None
  /\ exists sv', stringValues_Swap sv 0 2 = Some sv' /\ Permutation sv sv'.
Proof.
  assert (H0 : 0 < stringValues_Len [str "b"; str "c"; str "a"])
    by (unfold stringValues_Len; simpl; lia).
  assert (H2 : 2 < stringValues_Len [str "b"; str "c"; str "a"])
    by (unfold stringValues_Len; simpl; lia).
  destruct (stringValues_Swap_exchanges [str "b"; str "c"; str "a"] 0 2)
    as [Hin _].
  destruct (Hin H0 H2) as (sv' & Hs & _ & _ & _ & _ & Hp).
  split; [exact H0|]. split; [exact H2|]. split; [reflexivity|].
  split; [reflexivity|]. exists sv'. split; [exact Hs|exact Hp].
Defined.

(** ** What the omitempty option leaves out *)

Lemma length_zero {A} (l : list A) : (List.length l =? 0) = true -> l = [].
Proof. destruct l; [reflexivity|discriminate]. Qed.

Lemma sort_Sort_nil (X : Externals) : sorts_by_Less X -> sort_Sort X [] = [].
Proof.
  intros H. destruct (H []) as [Hp _].
  apply Permutation_nil. apply Permutation_sym. exact Hp.
Qed.

(** X19. A value that isEmptyValue reports as empty and that has no hook
    always encodes, and to one of a few texts: false, 0, the text of the
    zero float, the empty string literal, null, or an empty array or
    object.  (Of a map only the type with string keys, which alone the
    encoder accepts; [sort.Sort] is required to sort by [Less].) *)
Theorem empty_value_encodings :
  forall X v,
    sorts_by_Less X ->
    isEmptyValue v = true ->
    Value_Marshaler v = None ->
    (forall t j m, v = VMap t j m -> rtype_Kind (rtype_Key t) = String) ->
    exists text,
      Marshal X v = Returns (Some text) None
      /\ (In text [str "false"; str "0"; quoted_literal []; str "null";
                   str "[]"; str "{}"]
          \/ exists t j x,
               v = VFloat t j x /\ text = strconv_FtoaN X x (rtype_Bits t)).
Proof.
  intros X v Hsort Hempty Hj Hmap.
  destruct v; simpl in Hempty; try discriminate; simpl in Hj; subst j.
  - destruct x; [discriminate|]. exists (str "false").
    split; [reflexivity|left; simpl; auto].
  - apply Z.eqb_eq in Hempty. subst x. exists (str "0").
    split; [reflexivity|left; simpl; auto].
  - apply Z.eqb_eq in Hempty. subst x. exists (str "0").
    split; [reflexivity|left; simpl; auto].
  - exists (strconv_FtoaN X x (rtype_Bits t)).
    split; [reflexivity|right; eauto].
  - apply length_zero in Hempty. subst s. exists (quoted_literal []).
    split; [reflexivity|left; simpl; auto].
  - pose proof (Hmap t None m eq_refl) as Hk.
    destruct m as [es|].
    + apply length_zero in Hempty. subst es. exists (str "{}").
      split; [|left; simpl; auto 7].
      unfold Marshal, marshal, reflectValue.
      rewrite reflectValueQuoted_map by exact Hk.
      unfold MapKeys. simpl. rewrite (sort_Sort_nil X Hsort). reflexivity.
    + exists (str "null"). split; [|left; simpl; auto 7].
      unfold Marshal, marshal, reflectValue. simpl. rewrite Hk. reflexivity.
  - apply length_zero in Hempty. subst elems.
    unfold Marshal, marshal, reflectValue. simpl. unfold encode_sequence.
    destruct (rtype_eqb t byteSliceType).
    + exists (quoted_literal []). split; [reflexivity|left; simpl; auto].
    + exists (str "[]"). split; [reflexivity|left; simpl; auto 7].
  - apply length_zero in Hempty. subst elems.
    unfold Marshal, marshal, reflectValue. simpl. unfold encode_sequence.
    destruct (rtype_eqb t byteSliceType).
    + exists (quoted_literal []). split; [reflexivity|left; simpl; auto].
    + exists (str "[]"). split; [reflexivity|left; simpl; auto 7].
  - destruct elem; [discriminate|]. exists (str "null").
    split; [reflexivity|left; simpl; auto 7].
  - destruct elem; [discriminate|]. exists (str "null").
    split; [reflexivity|left; simpl; auto 7].
Qed.

Lemma empty_value_encodings_witness :
  let X := Sample.externals in
  let v := Sample.map_string (Basic Int) [] in
  sorts_by_Less X
  /\ isEmptyValue v = true
  /\ Value_Marshaler v = None
  /\ exists text,
       Marshal X v = Returns (Some text) None
       /\ (In text [str "false"; str "0"; quoted_literal []; str "null";
                    str "[]"; str "{}"]
           \/ exists t j x,
                v = VFloat t j x /\ text = strconv_FtoaN X x (rtype_Bits t)).
Proof.
  split; [exact sample_sorts_by_Less|]. split; [reflexivity|].
  split; [reflexivity|].
  apply (empty_value_encodings Sample.externals
           (Sample.map_string (Basic Int) []) sample_sorts_by_Less
           eq_refl eq_refl).
  intros t j m H. inversion H. reflexivity.
Defined.

(** ** When Marshal succeeds *)

Lemma malformed_nil (X : Externals) : ~ Malformed X [].
Proof. intros H. inversion H. Qed.

Lemma malformed_ascii_head (X : Externals) b t :
  ascii b -> Malformed X (b :: t) -> Malformed X t.
Proof.
  unfold ascii. intros Hb H.
  inversion H as [b' r Hn _|b' r _ Hm|b' r c size Hn _ _ _]; subst;
    try (unfold nonascii in Hn; lia).
  exact Hm.
Qed.

Lemma malformed_ascii_prefix (X : Externals) a t :
  Forall ascii a -> Malformed X (a ++ t) -> Malformed X t.
Proof.
  induction 1 as [|b a Hb _ IH]; simpl; [auto|].
  intros H. apply IH. exact (malformed_ascii_head X b _ Hb H).
Qed.

Lemma hex_digit_ascii (n : N) : ascii (hex_digit n).
Proof.
  unfold hex_digit, index.
  destruct (nth_in_or_default (N.to_nat n) hex Ascii.zero) as [H| ->];
    [|unfold ascii; simpl; lia].
  assert (Hall : forallb (fun b => (byte_val b <? 128)%N) hex = true)
    by reflexivity.
  rewrite forallb_forall in Hall. apply N.ltb_lt. exact (Hall _ H).
Qed.

(** The rendering of a byte below 0x80 is not empty and stays below 0x80. *)
Lemma spec_rendering_ascii (b : byte) :
  ascii b ->
  exists c rest, spec_rendering b = c :: rest /\ ascii c /\ Forall ascii rest.
Proof.
  intros Hb. unfold spec_rendering. cbv zeta.
  assert (Hbs : ascii backslash_byte) by (unfold ascii; simpl; lia).
  assert (Hq : ascii quote_byte) by (unfold ascii; simpl; lia).
  destruct (byte_val b =? 60)%N;
    [eexists; eexists; split; [reflexivity|];
     split; [|repeat constructor]; unfold ascii; simpl; lia|].
  destruct (byte_val b =? 62)%N;
    [eexists; eexists; split; [reflexivity|];
     split; [|repeat constructor]; unfold ascii; simpl; lia|].
  destruct (byte_val b =? 92)%N;
    [eexists; eexists; split; [reflexivity|]; split; [|repeat constructor];
     assumption|].
  destruct (byte_val b =? 34)%N;
    [eexists; eexists; split; [reflexivity|]; split; [|repeat constructor];
     assumption|].
  destruct (byte_val b =? 10)%N;
    [eexists; eexists; split; [reflexivity|];
     split; [|repeat constructor]; unfold ascii; simpl; lia|].
  destruct (byte_val b =? 13)%N;
    [eexists; eexists; split; [reflexivity|];
     split; [|repeat constructor]; unfold ascii; simpl; lia|].
  destruct (byte_val b <? 32)%N.
  - eexists; eexists; split; [reflexivity|].
    split; [unfold ascii; simpl; lia|].
    repeat (constructor; [unfold ascii; simpl; lia|]).
    repeat (constructor; [apply hex_digit_ascii|]). constructor.
  - eexists; eexists; split; [reflexivity|]. split; [exact Hb|constructor].
Qed.

Lemma spec_rendering_nonascii (b : byte) :
  nonascii b -> spec_rendering b = [b].
Proof.
  unfold nonascii, spec_rendering. intros Hb. cbv zeta.
  repeat match goal with
         | |- context [(?x =? ?y)%N] =>
             destruct (N.eqb_spec x y) as [E|_]; [rewrite E in Hb; lia|]
         end.
  destruct (N.ltb_spec (byte_val b) 32); [lia|reflexivity].
Qed.

Lemma literal_tail_cons_nonascii (b : byte) (r : gostring) :
  nonascii b -> literal_tail (b :: r) = b :: literal_tail r.
Proof.
  intros Hb. unfold literal_tail. simpl.
  now rewrite (spec_rendering_nonascii b Hb).
Qed.

Lemma literal_tail_cons_ascii (b : byte) (r : gostring) :
  ascii b ->
  exists c rest,
    literal_tail (b :: r) = c :: rest ++ literal_tail r
    /\ ascii c /\ Forall ascii rest.
Proof.
  intros Hb. destruct (spec_rendering_ascii b Hb) as (c & rest & E & Hc & Hr).
  exists c, rest. unfold literal_tail. simpl. rewrite E.
  simpl. rewrite <- app_assoc. auto.
Qed.

Lemma ascii_or_not (b : byte) : ascii b \/ nonascii b.
Proof. unfold ascii, nonascii. lia. Qed.

Lemma nonascii_run_ascii (c : byte) (t : gostring) :
  ascii c -> nonascii_run (c :: t) = [].
Proof.
  unfold ascii. intros H. simpl.
  destruct (N.leb_spec 128 (byte_val c)); [lia|reflexivity].
Qed.

Lemma nonascii_run_nonascii (c : byte) (t : gostring) :
  nonascii c -> nonascii_run (c :: t) = c :: nonascii_run t.
Proof.
  unfold nonascii. intros H. simpl.
  destruct (N.leb_spec 128 (byte_val c)); [reflexivity|lia].
Qed.

(** Escaping keeps the bytes of 0x80 or more a string starts with. *)
Lemma nonascii_run_literal (s : gostring) :
  nonascii_run (literal_tail s) = nonascii_run s.
Proof.
  induction s as [|b r IH].
  - reflexivity.
  - destruct (ascii_or_not b) as [Hb|Hb].
    + destruct (literal_tail_cons_ascii b r Hb) as (c & rest & E & Hc & _).
      rewrite E, (nonascii_run_ascii c _ Hc), (nonascii_run_ascii b _ Hb).
      reflexivity.
    + rewrite (literal_tail_cons_nonascii b r Hb).
      rewrite !(nonascii_run_nonascii b _ Hb). now rewrite IH.
Qed.

(** Past a run of bytes of 0x80 or more, the literal is the literal of
    what is left of the string. *)
Lemma skipn_literal (n : nat) :
  forall s,
    Forall nonascii (firstn n (literal_tail s)) ->
    skipn n (literal_tail s) = literal_tail (skipn n s).
Proof.
  induction n as [|n IH]; intros s H; [reflexivity|].
  destruct s as [|b r].
  - exfalso. simpl in H. inversion H as [|? ? Hq _]; subst.
    unfold nonascii in Hq. simpl in Hq. lia.
  - destruct (ascii_or_not b) as [Hb|Hb].
    + exfalso.
      destruct (literal_tail_cons_ascii b r Hb) as (c & rest & E & Hc & _).
      rewrite E in H. simpl in H. inversion H as [|? ? Hn _]; subst.
      unfold ascii in Hc. unfold nonascii in Hn. lia.
    + rewrite (literal_tail_cons_nonascii b r Hb) in H |- *.
      simpl in H |- *. inversion H; subst. now apply IH.
Qed.

Lemma literal_tail_malformed (X : Externals) :
  decoder_advances X ->
  decoder_spans_nonascii X ->
  decoder_reads_run X ->
  forall n s, List.length s <= n ->
              Malformed X (literal_tail s) -> Malformed X s.
Proof.
  intros Hadv Hspan Hrun n; induction n as [|n IH]; intros s Hn H.
  - destruct s; [|simpl in Hn; lia].
    exfalso. apply (malformed_nil X).
    apply (malformed_ascii_head X quote_byte); [|exact H].
    unfold ascii. simpl. lia.
  - destruct s as [|b r].
    + exfalso. apply (malformed_nil X).
      apply (malformed_ascii_head X quote_byte); [|exact H].
      unfold ascii. simpl. lia.
    + simpl in Hn. destruct (ascii_or_not b) as [Hb|Hb].
      * destruct (literal_tail_cons_ascii b r Hb) as (c & rest & E & Hc & Hr).
        rewrite E in H. apply malformed_ascii_head in H; [|exact Hc].
        apply malformed_ascii_prefix in H; [|exact Hr].
        apply malformed_after_byte; [exact Hb|]. apply IH; [lia|exact H].
      * pose proof (literal_tail_cons_nonascii b r Hb) as E.
        assert (Hd : utf8_DecodeRuneInString X (b :: literal_tail r)
                     = utf8_DecodeRuneInString X (b :: r))
          by (apply Hrun; [exact Hb|apply nonascii_run_literal]).
        rewrite E in H.
        inversion H as [b' r' _ Hdec|b' r' Hlt _|b' r' c size _ Hdec Hne Hm];
          subst.
        -- apply malformed_here; [exact Hb|]. now rewrite <- Hd.
        -- unfold nonascii in Hb. lia.
        -- rewrite Hd in Hdec.
           assert (Hsize : 1 <= size)
             by (apply (Hadv (b :: r) c size); [discriminate|exact Hdec]).
           apply (malformed_after_rune X b r c size Hb Hdec Hne).
           apply IH.
           ++ rewrite length_skipn.
              change (List.length (b :: r)) with (S (List.length r)). lia.
           ++ rewrite <- skipn_literal; [rewrite E; exact Hm|].
              rewrite E. apply (Hspan b _ c size Hb). now rewrite Hd.
Qed.

(** A string without a malformed sequence has a literal without one. *)
Lemma literal_not_malformed (X : Externals) (s : gostring) :
  decoder_advances X ->
  decoder_spans_nonascii X ->
  decoder_reads_run X ->
  ~ Malformed X s ->
  ~ Malformed X (quoted_literal (flat_map spec_rendering s)).
Proof.
  intros Hadv Hspan Hrun Hs H. apply Hs.
  apply (literal_tail_malformed X Hadv Hspan Hrun (List.length s) s (le_n _)).
  apply (malformed_ascii_head X quote_byte); [unfold ascii; simpl; lia|].
  exact H.
Qed.

Lemma succeeds_seq (a b : M) : succeeds a -> succeeds b -> succeeds (a ;; b).
Proof.
  intros Ha Hb e. unfold seq. destruct (Ha e) as [e1 ->]. apply Hb.
Qed.

Lemma succeeds_Done (f : Buffer -> Buffer) : succeeds (fun e => Done (f e)).
Proof. intros e. eexists. reflexivity. Qed.

Lemma succeeds_byte (c : byte) : succeeds (WriteByte c).
Proof. apply succeeds_Done. Qed.

Lemma succeeds_text (s : gostring) : succeeds (WriteString s).
Proof. apply succeeds_Done. Qed.

Lemma succeeds_sep (b : bool) :
  succeeds (if b then WriteByte comma_byte else skip).
Proof. destruct b; apply succeeds_Done. Qed.

Lemma succeeds_sep' (b : bool) :
  succeeds (if b then skip else WriteByte comma_byte).
Proof. destruct b; apply succeeds_Done. Qed.

Lemma succeeds_string (X : Externals) (s : gostring) :
  decoder_advances X -> ~ Malformed X s -> succeeds (string_ X s).
Proof.
  intros Hadv Hs e. destruct (string_ X s e) as [out|err p|] eqn:E.
  - now exists out.
  - exfalso. exact (Hs (string_Panic_malformed X s e err p E)).
  - exfalso. exact (string_returns X s e Hadv E).
Qed.

Lemma not_malformed_of_Done (X : Externals) (s : gostring) (e out : Buffer) :
  decoder_advances X -> string_ X s e = Done out -> ~ Malformed X s.
Proof.
  intros Hadv H Hm. destruct (string_malformed X s e Hadv Hm) as [p Hp].
  congruence.
Qed.

Lemma plain_not_malformed (X : Externals) (s : gostring) :
  Forall (fun b => plain_ascii b = true) s -> ~ Malformed X s.
Proof.
  induction 1 as [|b s Hb _ IH]; [apply malformed_nil|].
  intros H. apply IH. apply (malformed_ascii_head X b); [|exact H].
  unfold plain_ascii in Hb. apply andb_true_iff in Hb.
  destruct Hb as [_ Hb]. apply N.ltb_lt in Hb. exact Hb.
Qed.

Lemma succeeds_primitive (X : Externals) (quoted : bool) (text : gostring) :
  decoder_advances X -> ~ Malformed X text ->
  succeeds ((if quoted then string_ X else WriteString) text).
Proof.
  intros Hadv Ht. destruct quoted; [now apply succeeds_string|].
  apply succeeds_Done.
Qed.

Lemma succeeds_struct_loop (X : Externals) (rv : Value -> bool -> M) fields :
  decoder_advances X ->
  Forall (fun p => ~ Malformed X (field_key X (fst p))) fields ->
  Forall (fun p => forall q, succeeds (rv (snd p) q)) fields ->
  forall first, succeeds (struct_loop X rv fields first).
Proof.
  intros Hadv Hkeys; induction 1 as [|[f v] fields Hv _ IH]; intros first;
    [apply succeeds_Done|].
  inversion Hkeys as [|? ? Hk Hrest]; subst. simpl in Hk, Hv.
  specialize (IH Hrest).
  intros e. rewrite struct_loop_cons.
  destruct (negb (gostring_eqb (PkgPath f) [])); [apply IH|].
  destruct (field_omitEmpty X f && isEmptyValue v); [apply IH|].
  apply (succeeds_seq _ _); [|apply IH].
  unfold emit_field.
  apply succeeds_seq; [apply succeeds_sep'|].
  apply succeeds_seq; [apply succeeds_string; assumption|].
  apply succeeds_seq; [apply succeeds_byte|apply Hv].
Qed.

Lemma succeeds_array_loop (rv : Value -> bool -> M) elems :
  Forall (fun x => forall q, succeeds (rv x q)) elems ->
  forall i, succeeds (array_loop rv elems i).
Proof.
  induction 1 as [|x elems Hx _ IH]; intros i; [apply succeeds_Done|].
  simpl. apply succeeds_seq; [apply succeeds_sep|].
  apply succeeds_seq; [apply Hx|apply IH].
Qed.

Lemma succeeds_MapIndex (rv : Value -> bool -> M) es :
  Forall (fun p => forall q, succeeds (rv (snd p) q)) es ->
  forall k, succeeds (reflectValue_MapIndex rv es k).
Proof.
  induction 1 as [|[k' x] es Hx _ IH]; intros k; simpl;
    [apply succeeds_text|].
  destruct (gostring_eqb k' k); [apply Hx|apply IH].
Qed.

Lemma succeeds_map_loop (X : Externals) (rv : Value -> bool -> M) es :
  decoder_advances X ->
  Forall (fun p => forall q, succeeds (rv (snd p) q)) es ->
  forall sv, Forall (fun k => ~ Malformed X k) sv ->
  forall i, succeeds (map_loop X rv es sv i).
Proof.
  intros Hadv Hes sv; induction 1 as [|k sv Hk _ IH]; intros i;
    [apply succeeds_Done|].
  simpl. apply succeeds_seq; [apply succeeds_sep|].
  apply succeeds_seq; [apply succeeds_string; assumption|].
  apply succeeds_seq; [apply succeeds_byte|].
  apply succeeds_seq; [apply succeeds_MapIndex; exact Hes|apply IH].
Qed.

Lemma succeeds_encode_sequence (rv : Value -> bool -> M) t elems :
  (rtype_eqb t byteSliceType = true -> Interface_bytes elems <> None) ->
  Forall (fun x => forall q, succeeds (rv x q)) elems ->
  succeeds (encode_sequence rv t elems).
Proof.
  intros Hb H. unfold encode_sequence.
  destruct (rtype_eqb t byteSliceType).
  - apply succeeds_seq; [apply succeeds_byte|].
    apply succeeds_seq; [|apply succeeds_byte].
    destruct (Interface_bytes elems) as [s|];
      [|exfalso; now apply Hb].
    destruct (len s <? 1024); apply succeeds_Done.
  - apply succeeds_seq; [apply succeeds_byte|].
    apply succeeds_seq; [|apply succeeds_byte].
    apply succeeds_array_loop. exact H.
Qed.

Lemma succeeds_reflectValueQuoted (X : Externals) :
  decoder_advances X ->
  decoder_spans_nonascii X ->
  decoder_reads_run X ->
  sorts_by_Less X ->
  forall v, Everywhere (encodable X) v ->
  forall quoted, succeeds (reflectValueQuoted X v quoted).
Proof.
  intros Hadv Hspan Hrun Hsort v; induction v using Value_induction;
    intros Hev quoted;
    inversion Hev as [? Hself Hkids]; subst; destruct Hself as [Hj Hself];
    simpl in Hj, Hself, Hkids; try subst j; simpl.
  - apply succeeds_text.
  - destruct x; apply (succeeds_primitive X quoted _ Hadv);
      apply plain_not_malformed; repeat constructor.
  - apply (succeeds_primitive X quoted _ Hadv). apply plain_not_malformed.
    exact (literal_text_plain (VInt t None x) _ eq_refl).
  - apply (succeeds_primitive X quoted _ Hadv). apply plain_not_malformed.
    exact (literal_text_plain (VUint t None x) _ eq_refl).
  - apply (succeeds_primitive X quoted _ Hadv). exact Hself.
  - destruct quoted; [|now apply succeeds_string].
    unfold Marshal_string.
    destruct (string_ X s []) as [sb|err p|] eqn:E.
    + apply succeeds_string; [exact Hadv|].
      rewrite (string_Done X s [] sb Hspan E). simpl.
      now apply literal_not_malformed.
    + exfalso. exact (Hself (string_Panic_malformed X s [] err p E)).
    + exfalso. exact (string_returns X s [] Hadv E).
  - apply succeeds_seq; [apply succeeds_byte|].
    apply succeeds_seq; [|apply succeeds_byte].
    apply succeeds_struct_loop; [exact Hadv|exact Hself|].
    exact (Forall_inside snd (Everywhere (encodable X))
             (fun x => forall q, succeeds (reflectValueQuoted X x q))
             fields H Hkids).
  - destruct Hself as [Hk _]. rewrite Hk. apply succeeds_text.
  - destruct Hself as [Hk Hkeys]. rewrite Hk.
    change (negb (Kind_eqb String String)) with false. cbv iota.
    apply succeeds_seq; [apply succeeds_byte|].
    apply succeeds_seq; [|apply succeeds_byte].
    apply succeeds_map_loop; [exact Hadv| |].
    + exact (Forall_inside snd (Everywhere (encodable X))
               (fun x => forall q, succeeds (reflectValueQuoted X x q))
               es H Hkids).
    + destruct (Hsort (MapKeys es)) as [Hp _].
      apply (Permutation_Forall (Permutation_sym Hp)).
      unfold MapKeys. apply Forall_map. exact Hkeys.
  - apply succeeds_encode_sequence; [exact Hself|].
    exact (Forall_modus (Everywhere (encodable X))
             (fun x => forall q, succeeds (reflectValueQuoted X x q))
             elems H Hkids).
  - apply succeeds_encode_sequence; [exact Hself|].
    exact (Forall_modus (Everywhere (encodable X))
             (fun x => forall q, succeeds (reflectValueQuoted X x q))
             elems H Hkids).
  - apply succeeds_text.
  - apply IHv. now inversion Hkids.
  - apply succeeds_text.
  - apply IHv. now inversion Hkids.
  - contradiction.
Qed.

(** X20. Marshal returns bytes and no error on every value that is
    encodable throughout: no hook, no malformed sequence in a string, in
    the text of a float, in a field key or in a map key, string keys for
    every map type, bytes in every byte slice, and no value of a kind the
    encoder does not know.  The string option is covered: the literal of
    a string without a malformed sequence has none either.  (The decoder is
    required to advance, to span bytes of 0x80 or more and to read such
    bytes only; [sort.Sort] is required to keep the keys.) *)
Theorem Marshal_succeeds :
  forall X v,
    decoder_advances X ->
    decoder_spans_nonascii X ->
    decoder_reads_run X ->
    sorts_by_Less X ->
    Everywhere (encodable X) v ->
    exists b, Marshal X v = Returns (Some b) None.
Proof.
  intros X v Hadv Hspan Hrun Hsort Hv.
  destruct (succeeds_reflectValueQuoted X Hadv Hspan Hrun Hsort v Hv false [])
    as [out H].
  exists out. apply Marshal_Done. exact H.
Qed.

Lemma sample_continuation (c : byte) :
  (128 <=? byte_val c)%N = false -> Sample.continuation (byte_val c) = false.
Proof. intros H. unfold Sample.continuation. now rewrite H. Qed.

Lemma sample_decode_run (b : byte) (s : gostring) :
  Sample.decode (b :: s) = Sample.decode (b :: nonascii_run s).
Proof.
  destruct s as [|c1 r1]; [reflexivity|].
  cbn [nonascii_run]. destruct (128 <=? byte_val c1)%N eqn:E1.
  2:{ cbn [Sample.decode]. rewrite (sample_continuation c1 E1).
      cbn [negb]. destruct (byte_val b <? 128)%N; [reflexivity|].
      destruct (byte_val b <? 192)%N; reflexivity. }
  destruct r1 as [|c2 r2]; [reflexivity|].
  cbn [nonascii_run]. destruct (128 <=? byte_val c2)%N eqn:E2.
  2:{ cbn [Sample.decode]. rewrite (sample_continuation c2 E2).
      cbn [negb]. destruct (byte_val b <? 128)%N; [reflexivity|].
      destruct (byte_val b <? 192)%N; [reflexivity|].
      destruct (negb (Sample.continuation (byte_val c1))); [reflexivity|].
      destruct (byte_val b <? 224)%N; reflexivity. }
  destruct r2 as [|c3 r3]; [reflexivity|].
  cbn [nonascii_run]. destruct (128 <=? byte_val c3)%N eqn:E3.
  2:{ cbn [Sample.decode]. rewrite (sample_continuation c3 E3).
      cbn [negb]. destruct (byte_val b <? 128)%N; [reflexivity|].
      destruct (byte_val b <? 192)%N; [reflexivity|].
      destruct (negb (Sample.continuation (byte_val c1))); [reflexivity|].
      destruct (byte_val b <? 224)%N; [reflexivity|].
      destruct (negb (Sample.continuation (byte_val c2))); [reflexivity|].
      destruct (byte_val b <? 240)%N; reflexivity. }
  reflexivity.
Qed.

Lemma sample_decoder_reads_run : decoder_reads_run Sample.externals.
Proof.
  intros b s t _ H.
  change (Sample.decode (b :: s) = Sample.decode (b :: t)).
  now rewrite (sample_decode_run b s), (sample_decode_run b t), H.
Qed.

Lemma Marshal_succeeds_witness :
  let X := Sample.externals in
  let v := Sample.struct_ "T"
             [(Sample.exported "Name" "name,string",
               Sample.string_value [byte_of 195; byte_of 169; byte_of 60]);
              (Sample.exported "Tags" "",
               Sample.map_string (Basic Int) [(str "k", Sample.int_ 1)])] in
  decoder_advances X /\ decoder_spans_nonascii X /\ decoder_reads_run X
  /\ sorts_by_Less X /\ Everywhere (encodable X) v
  /\ exists b, Marshal X v = Returns (Some b) None.
Proof.
  assert (Hok : forall s out, string_ Sample.externals s [] = Done out ->
                              ~ Malformed Sample.externals s)
    by (intros s out; apply not_malformed_of_Done;
        exact sample_decoder_advances).
  assert (Hv : Everywhere (encodable Sample.externals)
                 (Sample.struct_ "T"
                    [(Sample.exported "Name" "name,string",
                      Sample.string_value
                        [byte_of 195; byte_of 169; byte_of 60]);
                     (Sample.exported "Tags" "",
                      Sample.map_string (Basic Int)
                        [(str "k", Sample.int_ 1)])])).
  { constructor.
    - split; [reflexivity|]. simpl.
      repeat constructor; simpl; eapply Hok; vm_compute; reflexivity.
    - simpl. constructor; [|constructor; [|constructor]].
      + constructor; [|constructor]. split; [reflexivity|].
        simpl. eapply Hok. vm_compute. reflexivity.
      + constructor.
        * split; [reflexivity|]. split; [reflexivity|].
          constructor; [|constructor]. simpl. eapply Hok. vm_compute.
          reflexivity.
        * simpl. constructor; [|constructor].
          constructor; [|constructor]. split; [reflexivity|exact I]. }
  split; [exact sample_decoder_advances|].
  split; [exact sample_decoder_spans_nonascii|].
  split; [exact sample_decoder_reads_run|].
  split; [exact sample_sorts_by_Less|]. split; [exact Hv|].
  exact (Marshal_succeeds Sample.externals _ sample_decoder_advances
           sample_decoder_spans_nonascii sample_decoder_reads_run
           sample_sorts_by_Less Hv).
Defined.
